(** * The storage service of markdown-online: notes, folders and tags

    A shallow embedding of [services/storage.ts] (class [StorageService])
    and of the JavaScript library calls it relies on, followed by the
    properties of the persistence and consistency engine.

    Conventions of the embedding.
    - A JavaScript string is the list of its UTF-16 code units ([jsstring]);
      the regular expressions of the service carry no [u] flag, so they work
      on code units as well.
    - [Date.now()] and [generateId()] are inputs of an operation: [now k] is
      the value of the k-th call of [Date.now()] made while the operation
      runs, [newId] the identifier that [generateId()] returns.
    - The bodies of the service's methods contain no [await] between reading
      a collection and writing it back, so each call is one atomic step.
    - [localStorage.setItem] is taken to succeed; a collection read back is
      then the list of records last written ([JSON.parse] undoes
      [JSON.stringify] on these plain records). What a collection read makes
      of an arbitrary blob is modelled separately, in [Module Blob], and so
      is the text that a write leaves there.

    The embedding goes on with what the components compute from these
    data: the views and previews of [NoteList], the edits of [Editor], the
    forms of [Sidebar] and the handlers of [App]. Functions of the engine
    whose result depends on its locale or its Unicode tables
    ([localeCompare], [toLowerCase]) are variables of a section. *)

From Stdlib Require Import String Ascii.
From Stdlib Require Import List Bool Arith NArith ZArith Lia.
From Stdlib Require Import Permutation Sorted.
From Stdlib Require DecimalPos DecimalFacts.
Import ListNotations.

Set Implicit Arguments.

(* ================================================================== *)
(** * JavaScript strings *)

Definition jsstring := list N.

(** The code units of an ASCII literal. *)
Definition js (s : string) : jsstring :=
  map N_of_ascii (list_ascii_of_string s).

Definition jsstring_dec : forall a b : jsstring, {a = b} + {a <> b} :=
  list_eq_dec N.eq_dec.

(** [a === b] on strings. *)
Definition streq (a b : jsstring) : bool :=
  if jsstring_dec a b then true else false.

(** [a === b] where either side may be [null]. *)
Definition nullable_streq (a b : option jsstring) : bool :=
  match a, b with
  | Some x, Some y => streq x y
  | None, None => true
  | _, _ => false
  end.

(** [Array.prototype.includes] on an array of strings. *)
Definition includes (x : jsstring) (l : list jsstring) : bool :=
  existsb (streq x) l.

Definition HASH : N := 35.     (* # *)
Definition DOLLAR : N := 36.   (* $ *)
Definition SPACE : N := 32.

Definition inRange (lo hi c : N) : bool := (lo <=? c)%N && (c <=? hi)%N.

(** The class [\w]: ASCII letters, digits and the underscore. *)
Definition isWord (c : N) : bool :=
  inRange 48 57 c || inRange 65 90 c || (c =? 95)%N || inRange 97 122 c.

(** The class [[\w\u4e00-\u9fa5]] of the tag expressions. *)
Definition isTagChar (c : N) : bool :=
  isWord c || inRange 0x4e00 0x9fa5 c.

(** The class [\s]: WhiteSpace and LineTerminator code units. *)
Definition isSpace (c : N) : bool :=
  inRange 9 13 c || (c =? 32)%N || (c =? 0xa0)%N || (c =? 0x1680)%N ||
  inRange 0x2000 0x200a c || (c =? 0x2028)%N || (c =? 0x2029)%N ||
  (c =? 0x202f)%N || (c =? 0x205f)%N || (c =? 0x3000)%N || (c =? 0xfeff)%N.

Fixpoint takeWhile (p : N -> bool) (s : jsstring) : jsstring :=
  match s with
  | c :: r => if p c then c :: takeWhile p r else []
  | [] => []
  end.

Fixpoint dropWhile (p : N -> bool) (s : jsstring) : jsstring :=
  match s with
  | c :: r => if p c then dropWhile p r else s
  | [] => []
  end.

Fixpoint startsWith (prefix s : jsstring) : bool :=
  match prefix, s with
  | [], _ => true
  | p :: prefix', c :: s' => (p =? c)%N && startsWith prefix' s'
  | _ :: _, [] => false
  end.

(** Does the string begin with a character of the class? *)
Definition headIs (p : N -> bool) (s : jsstring) : bool :=
  match s with
  | c :: _ => p c
  | [] => false
  end.

(* ================================================================== *)
(** * Global regular expressions

    A pattern is given by its anchored matcher: [re s] is the length of
    the match that begins at the first code unit of the suffix [s], if
    there is one. The three patterns of the service never match the empty
    string. The functions below are the left-to-right, non-overlapping
    iteration that the [g] flag gives to [String.prototype.match] and
    [String.prototype.replace]: after a match of length [len] the scan
    resumes behind it ([skip] counts the code units still to pass over). *)

Definition matcher := jsstring -> option nat.

Section GlobalRegExp.

Variable re : matcher.

(** [s.match(re)]: the matched substrings, in order. *)
Fixpoint matchAllFrom (skip : nat) (s : jsstring) : list jsstring :=
  match s with
  | [] => []
  | _ :: r =>
      match skip with
      | S k => matchAllFrom k r
      | O =>
          match re s with
          | Some len => firstn len s :: matchAllFrom (pred len) r
          | None => matchAllFrom 0 r
          end
      end
  end.

Definition matchAll (s : jsstring) : list jsstring := matchAllFrom 0 s.

(** [s.replace(re, ...)]: [subst before matched after] is the text put in
    place of a match; [before] and [after] are the parts of the original
    string around it. *)
Variable subst : jsstring -> jsstring -> jsstring -> jsstring.

Fixpoint replaceAllFrom (before : jsstring) (skip : nat) (s : jsstring)
  : jsstring :=
  match s with
  | [] => []
  | c :: r =>
      match skip with
      | S k => replaceAllFrom (before ++ [c]) k r
      | O =>
          match re s with
          | Some len =>
              subst before (firstn len s) (skipn len s)
                ++ replaceAllFrom (before ++ [c]) (pred len) r
          | None => c :: replaceAllFrom (before ++ [c]) 0 r
          end
      end
  end.

Definition replaceAll (s : jsstring) : jsstring := replaceAllFrom [] 0 s.

End GlobalRegExp.

(** GetSubstitution for a pattern without capture groups: in a replacement
    string [$$] stands for a dollar sign, [$&] for the matched text,
    [$`] for the text before the match and [$'] for the text behind it;
    any other use of [$] is kept as it is. *)
Fixpoint getSubstitution (replacement before matched after : jsstring)
  : jsstring :=
  match replacement with
  | [] => []
  | c :: r =>
      if (c =? DOLLAR)%N then
        match r with
        | d :: r' =>
            if (d =? DOLLAR)%N then
              DOLLAR :: getSubstitution r' before matched after
            else if (d =? 38)%N then
              matched ++ getSubstitution r' before matched after
            else if (d =? 96)%N then
              before ++ getSubstitution r' before matched after
            else if (d =? 39)%N then
              after ++ getSubstitution r' before matched after
            else c :: getSubstitution r before matched after
        | [] => [c]
        end
      else c :: getSubstitution r before matched after
  end.

(** [s.replace(re, replacement)] with a string as replacement. *)
Definition replaceWith (re : matcher) (replacement s : jsstring) : jsstring :=
  replaceAll re (getSubstitution replacement) s.

(* ------------------------------------------------------------------ *)
(** ** The patterns of the service *)

(** [/#([\w\u4e00-\u9fa5]+)/]: a hash sign and the longest run of tag
    characters behind it, which must not be empty. *)
Definition hashTagRegex : matcher := fun s =>
  match s with
  | c :: r =>
      if (c =? HASH)%N then
        match takeWhile isTagChar r with
        | [] => None
        | w => Some (S (length w))
        end
      else None
  | [] => None
  end.

(** [new RegExp(`#${tag}(?![\\w\\u4e00-\\u9fa5])`)]: the token [#tag] where
    no tag character follows. The tag is spliced into the pattern source as
    it is; the matcher below is the meaning of that source when [tag]
    consists of tag characters, which have no special meaning in a pattern.
    These are the only tags that [extractTags] produces: a note of a store
    reached from the empty one carries no other tag, and the pattern of
    another tag is never applied to a content there. *)
Definition tagTokenRegex (tag : jsstring) : matcher := fun s =>
  match s with
  | c :: r =>
      if (c =? HASH)%N && startsWith tag r
         && negb (headIs isTagChar (skipn (length tag) r))
      then Some (S (length tag))
      else None
  | [] => None
  end.

(** [/\s{2,}/]: the longest run of white space, of two characters at least. *)
Definition whitespaceRun : matcher := fun s =>
  let w := takeWhile isSpace s in
  if 2 <=? length w then Some (length w) else None.

(** [Array.from(new Set(l))]: the first occurrence of every element, in
    order of insertion. *)
Fixpoint dedupe (seen l : list jsstring) : list jsstring :=
  match l with
  | [] => []
  | x :: r =>
      if includes x seen then dedupe seen r else x :: dedupe (x :: seen) r
  end.

Definition fromSet (l : list jsstring) : list jsstring := dedupe [] l.

(** [tag.substring(1)]. *)
Definition substring1 (s : jsstring) : jsstring := skipn 1 s.

Definition extractTags (content : jsstring) : list jsstring :=
  fromSet (map substring1 (matchAll hashTagRegex content)).

(* ================================================================== *)
(** * Records ([types.ts]) *)

Module Note.
Record t : Type := mk {
  id : jsstring;
  content : jsstring;
  createdAt : Z;
  updatedAt : Z;
  isPinned : bool;
  isTrashed : bool;
  tags : list jsstring;
  folderId : option jsstring   (* [None] is [null] *)
}.
End Note.

Module Folder.
Record t : Type := mk {
  id : jsstring;
  name : jsstring;
  parentId : option jsstring;  (* [None] is [null] *)
  createdAt : Z
}.
End Folder.

(** The optional parameter [folderId?: string | null] of [updateNote]:
    left out ([undefined]), or given as [null] or as a string. *)
Inductive FolderArg : Type :=
| Omitted
| Given (folderId : option jsstring).

(* ================================================================== *)
(** * Arrays *)

(** [Array.prototype.findIndex]; [None] is the result [-1]. *)
Fixpoint findIndex (A : Type) (p : A -> bool) (l : list A) : option nat :=
  match l with
  | [] => None
  | x :: r => if p x then Some 0 else option_map S (findIndex p r)
  end.

(** [l[i] = f(l[i])] for an index inside the array, the only use the
    service makes of an assignment through an index; [l[i]] is then
    [nth_error l i]. *)
Fixpoint updateAt (A : Type) (i : nat) (f : A -> A) (l : list A) : list A :=
  match l, i with
  | [], _ => []
  | x :: r, O => f x :: r
  | x :: r, S k => x :: updateAt k f r
  end.

(** [Array.prototype.sort] with a comparator. The sort is stable and the
    comparators used here are consistent, so the result is the one that
    insertion from the right computes: an element goes in front of the
    first one it does not have to follow. *)
Section Sort.
Variable A : Type.
Variable cmp : A -> A -> Z.

Fixpoint insertSorted (x : A) (l : list A) : list A :=
  match l with
  | [] => [x]
  | y :: r => if (cmp x y <=? 0)%Z then x :: l else y :: insertSorted x r
  end.

Definition sort (l : list A) : list A := fold_right insertSorted [] l.
End Sort.

(* ================================================================== *)
(** * The store *)

Definition STORAGE_KEY_NOTES : jsstring := js "bearclone_notes_v2".
Definition STORAGE_KEY_FOLDERS : jsstring := js "bearclone_folders_v1".

(** The two collections as [localStorage] holds them, and the log of the
    keys of the [setItem] calls made so far (latest first). *)
Record Store : Type := mkStore {
  notes : list Note.t;
  folders : list Folder.t;
  writes : list jsstring
}.

Definition emptyStore : Store := mkStore [] [] [].

(** The readers and writers, on collections that the service has written
    itself. *)
Definition getNotesFromStorage (st : Store) : list Note.t := notes st.

Definition saveNotesToStorage (l : list Note.t) (st : Store) : Store :=
  mkStore l (folders st) (STORAGE_KEY_NOTES :: writes st).

Definition getFoldersFromStorage (st : Store) : list Folder.t := folders st.

Definition saveFoldersToStorage (l : list Folder.t) (st : Store) : Store :=
  mkStore (notes st) l (STORAGE_KEY_FOLDERS :: writes st).

(* ------------------------------------------------------------------ *)
(** ** Notes *)

Definition hasId (id : jsstring) (n : Note.t) : bool := streq (Note.id n) id.

Definition byUpdatedAtDesc (a b : Note.t) : Z :=
  (Note.updatedAt b - Note.updatedAt a)%Z.

Definition getAllNotes (st : Store) : list Note.t :=
  sort byUpdatedAtDesc (getNotesFromStorage st).

(** The parameters are those of the call after the defaults
    ([content = ''], [folderId = null]) have been filled in. *)
Definition createNote (newId : jsstring) (now : nat -> Z)
    (content : jsstring) (folderId : option jsstring) (st : Store)
  : Note.t * Store :=
  let notes := getNotesFromStorage st in
  let newNote :=
    Note.mk newId content (now 0%nat) (now 1%nat) false false
      (extractTags content) folderId in
  (newNote, saveNotesToStorage (newNote :: notes) st).

Definition setPinned (b : bool) (n : Note.t) : Note.t :=
  Note.mk (Note.id n) (Note.content n) (Note.createdAt n) (Note.updatedAt n)
    b (Note.isTrashed n) (Note.tags n) (Note.folderId n).

Definition setTrashed (b : bool) (n : Note.t) : Note.t :=
  Note.mk (Note.id n) (Note.content n) (Note.createdAt n) (Note.updatedAt n)
    (Note.isPinned n) b (Note.tags n) (Note.folderId n).

Definition setFolderId (f : option jsstring) (n : Note.t) : Note.t :=
  Note.mk (Note.id n) (Note.content n) (Note.createdAt n) (Note.updatedAt n)
    (Note.isPinned n) (Note.isTrashed n) (Note.tags n) f.

(** The record [updatedNote] that [updateNote] builds from [notes[index]]. *)
Definition updatedNote (content : jsstring) (folderId : FolderArg) (t : Z)
    (old : Note.t) : Note.t :=
  let n :=
    Note.mk (Note.id old) content (Note.createdAt old) t (Note.isPinned old)
      (Note.isTrashed old) (extractTags content) (Note.folderId old) in
  match folderId with
  | Omitted => n
  | Given f => setFolderId f n
  end.

Definition updateNote (id content : jsstring) (folderId : FolderArg)
    (now : nat -> Z) (st : Store) : option Note.t * Store :=
  let notes := getNotesFromStorage st in
  match findIndex (hasId id) notes with
  | None => (None, st)
  | Some index =>
      let notes' :=
        updateAt index (updatedNote content folderId (now 0%nat)) notes in
      (nth_error notes' index, saveNotesToStorage notes' st)
  end.

Definition togglePin (id : jsstring) (st : Store) : option Note.t * Store :=
  let notes := getNotesFromStorage st in
  match findIndex (hasId id) notes with
  | None => (None, st)
  | Some index =>
      let notes' :=
        updateAt index (fun n => setPinned (negb (Note.isPinned n)) n) notes in
      (nth_error notes' index, saveNotesToStorage notes' st)
  end.

Definition moveToTrash (id : jsstring) (st : Store) : Store :=
  let notes := getNotesFromStorage st in
  match findIndex (hasId id) notes with
  | None => st
  | Some index =>
      saveNotesToStorage
        (updateAt index (fun n => setPinned false (setTrashed true n)) notes) st
  end.

Definition restoreFromTrash (id : jsstring) (st : Store) : Store :=
  let notes := getNotesFromStorage st in
  match findIndex (hasId id) notes with
  | None => st
  | Some index =>
      saveNotesToStorage (updateAt index (setTrashed false) notes) st
  end.

Definition deletePermanently (id : jsstring) (st : Store) : Store :=
  let notes := getNotesFromStorage st in
  saveNotesToStorage (filter (fun n => negb (hasId id n)) notes) st.

(* ------------------------------------------------------------------ *)
(** ** Tags *)

(** The record that the callback of [renameTag] and [deleteTag] returns
    for a note that carries the tag:
    [{...note, content: newContent, tags: this.extractTags(newContent),
    updatedAt: Date.now()}]. *)
Definition retagged (edit : jsstring -> jsstring) (t : Z) (note : Note.t)
  : Note.t :=
  let newContent := edit (Note.content note) in
  Note.mk (Note.id note) newContent (Note.createdAt note) t
    (Note.isPinned note) (Note.isTrashed note) (extractTags newContent)
    (Note.folderId note).

(** The callback that [renameTag] and [deleteTag] map over the notes: a
    note carrying the tag gets its content edited, its tags extracted anew
    and [updatedAt] set to a fresh reading of the clock ([k] readings have
    been taken before); any other note is passed on as it is. *)
Fixpoint mapTagged (tag : jsstring) (edit : jsstring -> jsstring)
    (now : nat -> Z) (k : nat) (l : list Note.t) : list Note.t :=
  match l with
  | [] => []
  | note :: r =>
      if includes tag (Note.tags note)
      then retagged edit (now k) note :: mapTagged tag edit now (S k) r
      else note :: mapTagged tag edit now k r
  end.

(** The flag [updated] that the callback raises. *)
Definition anyTagged (tag : jsstring) (l : list Note.t) : bool :=
  existsb (fun note => includes tag (Note.tags note)) l.

Definition renameContent (oldTag newTag content : jsstring) : jsstring :=
  replaceWith (tagTokenRegex oldTag) (HASH :: newTag) content.

Definition renameTag (oldTag newTag : jsstring) (now : nat -> Z) (st : Store)
  : Store :=
  let notes := getNotesFromStorage st in
  let newNotes := mapTagged oldTag (renameContent oldTag newTag) now 0 notes in
  if anyTagged oldTag notes then saveNotesToStorage newNotes st else st.

Definition deleteContent (tagToDelete content : jsstring) : jsstring :=
  replaceWith whitespaceRun [SPACE]
    (replaceWith (tagTokenRegex tagToDelete) [] content).

Definition deleteTag (tagToDelete : jsstring) (now : nat -> Z) (st : Store)
  : Store :=
  let notes := getNotesFromStorage st in
  let newNotes := mapTagged tagToDelete (deleteContent tagToDelete) now 0 notes in
  if anyTagged tagToDelete notes then saveNotesToStorage newNotes st else st.

(* ------------------------------------------------------------------ *)
(** ** Folders *)

Definition folderHasId (id : jsstring) (f : Folder.t) : bool :=
  streq (Folder.id f) id.

Definition createFolder (newId : jsstring) (now : nat -> Z) (name : jsstring)
    (parentId : option jsstring) (st : Store) : Folder.t * Store :=
  let folders := getFoldersFromStorage st in
  let newFolder := Folder.mk newId name parentId (now 0%nat) in
  (newFolder, saveFoldersToStorage (folders ++ [newFolder]) st).

Definition setName (name : jsstring) (f : Folder.t) : Folder.t :=
  Folder.mk (Folder.id f) name (Folder.parentId f) (Folder.createdAt f).

Definition setParentId (p : option jsstring) (f : Folder.t) : Folder.t :=
  Folder.mk (Folder.id f) (Folder.name f) p (Folder.createdAt f).

Definition updateFolder (id name : jsstring) (st : Store) : Store :=
  let folders := getFoldersFromStorage st in
  match findIndex (folderHasId id) folders with
  | None => st
  | Some index =>
      saveFoldersToStorage (updateAt index (setName name) folders) st
  end.

(** The two callbacks of [deleteFolder]. *)
Definition detachNote (id : jsstring) (n : Note.t) : Note.t :=
  if nullable_streq (Note.folderId n) (Some id) then setFolderId None n else n.

Definition promoteFolder (id : jsstring) (f : Folder.t) : Folder.t :=
  if nullable_streq (Folder.parentId f) (Some id) then setParentId None f else f.

Definition deleteFolder (id : jsstring) (st : Store) : Store :=
  let folders := getFoldersFromStorage st in
  let notes := getNotesFromStorage st in
  let updatedNotes :=
    existsb (fun n => nullable_streq (Note.folderId n) (Some id)) notes in
  let notes' := map (detachNote id) notes in
  let st1 := if updatedNotes then saveNotesToStorage notes' st else st in
  let folders' := map (promoteFolder id) folders in
  let folders'' := filter (fun f => negb (folderHasId id f)) folders' in
  saveFoldersToStorage folders'' st1.

(* ------------------------------------------------------------------ *)
(** ** Calls and runs *)

Inductive Op : Type :=
| Query   (* getAllNotes, getAllFolders, getTags: nothing is written *)
| CreateNote (newId : jsstring) (now : nat -> Z) (content : jsstring)
    (folderId : option jsstring)
| UpdateNote (id content : jsstring) (folderId : FolderArg) (now : nat -> Z)
| TogglePin (id : jsstring)
| MoveToTrash (id : jsstring)
| RestoreFromTrash (id : jsstring)
| DeletePermanently (id : jsstring)
| RenameTag (oldTag newTag : jsstring) (now : nat -> Z)
| DeleteTag (tag : jsstring) (now : nat -> Z)
| CreateFolder (newId : jsstring) (now : nat -> Z) (name : jsstring)
    (parentId : option jsstring)
| UpdateFolder (id name : jsstring)
| DeleteFolder (id : jsstring).

Definition step (op : Op) (st : Store) : Store :=
  match op with
  | Query => st
  | CreateNote newId now content folderId =>
      snd (createNote newId now content folderId st)
  | UpdateNote id content folderId now =>
      snd (updateNote id content folderId now st)
  | TogglePin id => snd (togglePin id st)
  | MoveToTrash id => moveToTrash id st
  | RestoreFromTrash id => restoreFromTrash id st
  | DeletePermanently id => deletePermanently id st
  | RenameTag oldTag newTag now => renameTag oldTag newTag now st
  | DeleteTag tag now => deleteTag tag now st
  | CreateFolder newId now name parentId =>
      snd (createFolder newId now name parentId st)
  | UpdateFolder id name => updateFolder id name st
  | DeleteFolder id => deleteFolder id st
  end.

(** The calls of a run are made one after the other, first call first. *)
Definition run (ops : list Op) (st : Store) : Store :=
  fold_left (fun s op => step op s) ops st.

Definition reachable (st : Store) : Prop :=
  exists ops, run ops emptyStore = st.

(* ------------------------------------------------------------------ *)
(** ** The tag list *)

(** A [Map<string, number>]: its entries in order of insertion. *)
Definition TagMap := list (jsstring * nat).

(** [m.get(key)]; [None] is [undefined]. *)
Fixpoint mapGet (key : jsstring) (m : TagMap) : option nat :=
  match m with
  | [] => None
  | (k, v) :: r => if streq k key then Some v else mapGet key r
  end.

(** [m.set(key, value)]: the value of a key that is present is replaced
    where it stands, a new key goes to the end. *)
Fixpoint mapSet (key : jsstring) (value : nat) (m : TagMap) : TagMap :=
  match m with
  | [] => [(key, value)]
  | (k, v) :: r =>
      if streq k key then (k, value) :: r else (k, v) :: mapSet key value r
  end.

(** [tagMap.set(tag, (tagMap.get(tag) || 0) + 1)]. *)
Definition countTag (m : TagMap) (tag : jsstring) : TagMap :=
  mapSet tag
    (match mapGet tag m with
     | Some c => c
     | None => 0
     end + 1)%nat m.

(** The entries [{tag, count}] that [getTags] returns, as pairs. *)
Definition getTags (st : Store) : list (jsstring * nat) :=
  fold_left
    (fun tagMap note =>
       if Note.isTrashed note then tagMap
       else fold_left countTag (Note.tags note) tagMap)
    (getNotesFromStorage st) [].

(* ------------------------------------------------------------------ *)
(** ** The folder list *)

(** [getAllFolders] sorts by [a.name.localeCompare(b.name)]. The order of
    [localeCompare] depends on the locale of the browser; it is a
    parameter here. *)
Section Locale.
Variable localeCompare : jsstring -> jsstring -> Z.

Definition byName (a b : Folder.t) : Z :=
  localeCompare (Folder.name a) (Folder.name b).

Definition getAllFolders (st : Store) : list Folder.t :=
  sort byName (getFoldersFromStorage st).
End Locale.

(* ================================================================== *)
(** * The list of notes ([NoteList])

    The two functions of the component that compute what is shown: the
    notes of the current view and, for a note, its title and its preview. *)

Definition LF : N := 10.

(** [String.prototype.includes]. *)
Fixpoint strIncludes (s q : jsstring) : bool :=
  startsWith q s
  || match s with
     | [] => false
     | _ :: r => strIncludes r q
     end.

(** [String.prototype.trim]: the white space of [\s] goes, at both ends. *)
Definition trim (s : jsstring) : jsstring :=
  rev (dropWhile isSpace (rev (dropWhile isSpace s))).

(** [s.split(sep)] for a separator of one character. *)
Fixpoint split (sep : N) (s : jsstring) : list jsstring :=
  match s with
  | [] => [[]]
  | c :: r =>
      if (c =? sep)%N then [] :: split sep r
      else
        match split sep r with
        | h :: t => (c :: h) :: t
        | [] => [[c]]
        end
  end.

(** [l.join(sep)], for strings and for other sequences. *)
Fixpoint join (A : Type) (sep : list A) (l : list (list A)) : list A :=
  match l with
  | [] => []
  | [x] => x
  | x :: r => x ++ sep ++ join sep r
  end.

(** [a || b] on strings: the empty string gives way. *)
Definition orElse (a b : jsstring) : jsstring :=
  match a with
  | [] => b
  | _ => a
  end.

Inductive FilterType : Type := ALL | TRASH | TAG | FOLDER.

(** [NoteFilter]; an optional field that is left out is [None]. *)
Module NoteFilter.
Record t : Type := mk {
  type : FilterType;
  tag : option jsstring;
  folderId : option jsstring
}.
End NoteFilter.

(** An optional string in a condition: left out or empty, it is false. *)
Definition given (s : option jsstring) : bool :=
  match s with
  | Some (_ :: _) => true
  | _ => false
  end.

Section NoteList.
(** [String.prototype.toLowerCase], which depends on the Unicode tables of
    the engine. *)
Variable toLowerCase : jsstring -> jsstring.

(** The callback of [notes.filter] in [filteredNotes]. *)
Definition inView (searchQuery : jsstring) (filter : NoteFilter.t)
    (note : Note.t) : bool :=
  if match searchQuery with
     | [] => false
     | _ =>
         let q := toLowerCase searchQuery in
         negb (strIncludes (toLowerCase (Note.content note)) q)
     end
  then false
  else
    match NoteFilter.type filter with
    | TRASH => Note.isTrashed note
    | type =>
        if Note.isTrashed note then false
        else
          match type, NoteFilter.tag filter, NoteFilter.folderId filter with
          | TAG, Some (c :: r), _ => includes (c :: r) (Note.tags note)
          | FOLDER, _, Some (c :: r) =>
              nullable_streq (Note.folderId note) (Some (c :: r))
          | _, _, _ => true
          end
    end.

Definition filteredNotes (searchQuery : jsstring) (filter : NoteFilter.t)
    (notes : list Note.t) : list Note.t :=
  List.filter (inView searchQuery filter) notes.
End NoteList.

(** [s.replace(/^#+\s/, '')]: hash signs at the beginning, one at least,
    go together with the white space character behind them, if there is
    one. *)
Definition dropHeadingMark (s : jsstring) : jsstring :=
  match s with
  | c :: _ =>
      if (c =? HASH)%N then
        match dropWhile (fun d => (d =? HASH)%N) s with
        | d :: r => if isSpace d then r else s
        | [] => s
        end
      else s
  | [] => s
  end.

Definition getTitleAndPreview (content : jsstring) : jsstring * jsstring :=
  let lines := split LF (trim content) in
  let title := orElse (dropHeadingMark (hd [] lines)) (js "Untitled Note") in
  let preview :=
    orElse (firstn 120 (join [SPACE] (tl lines))) (js "No additional text") in
  (title, preview).

(* ================================================================== *)
(** * The editor ([Editor])

    The two functions of the component that compute a new content from the
    content at hand and the selection in the text area; the new content is
    what they hand to [setContent] and to [onUpdate]. *)

(** [s.substring(start, end)]: both arguments are cut down to the length
    of the string, and the smaller one is taken as the beginning. *)
Definition substring (s : jsstring) (start end_ : nat) : jsstring :=
  let a := Nat.min start (length s) in
  let b := Nat.min end_ (length s) in
  firstn (Nat.max a b - Nat.min a b) (skipn (Nat.min a b) s).

(** [s.substring(start)]. *)
Definition substringFrom (s : jsstring) (start : nat) : jsstring :=
  skipn start s.

(** [s.endsWith(suffix)]. *)
Definition endsWith (suffix s : jsstring) : bool :=
  startsWith (rev suffix) (rev s).

(** [a || b] on numbers: zero gives way. *)
Definition orElseNat (a b : nat) : nat :=
  match a with
  | O => b
  | _ => a
  end.

(** [insertText(before, after)] with the text area at hand: the new content
    and the selection that is set afterwards. *)
Definition insertText (before after : jsstring)
    (selectionStart selectionEnd : nat) (content : jsstring)
  : jsstring * (nat * nat) :=
  let start := selectionStart in
  let end_ := selectionEnd in
  let selectedText := substring content start end_ in
  let newText :=
    substring content 0 start ++ before ++ selectedText ++ after
      ++ substringFrom content end_ in
  (newText, (start + length before, end_ + length before)%nat).

Inductive AIMode : Type := Continue | Summarize | Improve.

(** [handleAIAction(mode)] from the point where [generateNoteContent] has
    returned [result]: the new content, or [None] when the content is left
    as it is. [textarea] is the selection of the text area, [None] when
    there is no text area. *)
Definition handleAIAction (mode : AIMode) (textarea : option (nat * nat))
    (content result : jsstring) : option jsstring :=
  let start :=
    match textarea with
    | Some (selectionStart, _) => orElseNat selectionStart (length content)
    | None => length content
    end in
  let end_ :=
    match textarea with
    | Some (_, selectionEnd) => orElseNat selectionEnd (length content)
    | None => length content
    end in
  let selectedText := substring content start end_ in
  match result with
  | [] => None
  | _ =>
      if startsWith (js "Error") result then None
      else
        Some
          match mode with
          | Continue =>
              content ++ (if endsWith [SPACE] content then [] else [SPACE])
                ++ result
          | Improve =>
              if (5 <? length selectedText)%nat
              then substring content 0 start ++ result
                     ++ substringFrom content end_
              else content ++ [LF; LF] ++ js "**AI Summary:**" ++ [LF]
                     ++ result
          | Summarize =>
              content ++ [LF; LF] ++ js "**AI Summary:**" ++ [LF] ++ result
          end
  end.

(* ================================================================== *)
(** * The sidebar ([Sidebar])

    The three forms of the sidebar: what they pass on, if anything, when
    they are submitted. *)

(** [submitNewFolder]: the arguments of [onCreateFolder]. *)
Definition submitNewFolder (newFolderName : jsstring)
  : option (jsstring * option jsstring) :=
  match trim newFolderName with
  | [] => None
  | name => Some (name, None)
  end.

(** [submitRename(id)]: the arguments of [onRenameFolder]. *)
Definition submitRename (id editName : jsstring)
  : option (jsstring * jsstring) :=
  match trim editName with
  | [] => None
  | name => Some (id, name)
  end.

(** [submitTagRename]: the arguments of [onRenameTag]; [tagRename] is the
    pair of the old and the new name, [None] when no tag is being renamed. *)
Definition submitTagRename (tagRename : option (jsstring * jsstring))
  : option (jsstring * jsstring) :=
  match tagRename with
  | Some (old, new) =>
      match trim new with
      | [] => None
      | trimmed => if negb (streq new old) then Some (old, trimmed) else None
      end
  | None => None
  end.

(* ================================================================== *)
(** * The application ([App])

    The state of the component, as far as notes, folders and tags go, and
    two of its handlers. The storage service is a single object whose
    state is the local storage; it stands in the state as [storage]. A
    handler runs from its beginning to its end before the next one. *)

Module App.
Record t : Type := mk {
  notes : list Note.t;
  folders : list Folder.t;
  tags : list (jsstring * nat);
  selectedNoteId : option jsstring;
  filter : NoteFilter.t;
  storage : Store
}.
End App.

(** The content that [handleCreateNote] gives to a new note. *)
Definition NEW_NOTE : jsstring :=
  js "# New Note" ++ [LF] ++ js "Write something... #idea".

Definition isFOLDER (type : FilterType) : bool :=
  match type with
  | FOLDER => true
  | _ => false
  end.

Section Handlers.
Variable localeCompare : jsstring -> jsstring -> Z.

Definition refreshData (s : App.t) : App.t :=
  App.mk (getAllNotes (App.storage s))
    (getAllFolders localeCompare (App.storage s))
    (getTags (App.storage s))
    (App.selectedNoteId s) (App.filter s) (App.storage s).

Definition handleCreateNote (newId : jsstring) (now : nat -> Z) (s : App.t)
  : App.t :=
  let filter := App.filter s in
  let targetFolderId :=
    if isFOLDER (NoteFilter.type filter)
    then match NoteFilter.folderId filter with
         | Some (c :: r) => Some (c :: r)
         | _ => None
         end
    else None in
  let created := createNote newId now NEW_NOTE targetFolderId (App.storage s) in
  let newNote := fst created in
  let s1 :=
    refreshData
      (App.mk (App.notes s) (App.folders s) (App.tags s)
         (App.selectedNoteId s) filter (snd created)) in
  App.mk (App.notes s1) (App.folders s1) (App.tags s1)
    (Some (Note.id newNote))
    (if isFOLDER (NoteFilter.type filter) then filter
     else NoteFilter.mk ALL None None)
    (App.storage s1).
End Handlers.

(** The record that [handleUpdateNote] puts in the place of a note of the
    state: content, time and, if given, folder are new; the tags are not
    touched. *)
Definition edited (content : jsstring) (folderId : FolderArg) (t : Z)
    (n : Note.t) : Note.t :=
  Note.mk (Note.id n) content (Note.createdAt n) t (Note.isPinned n)
    (Note.isTrashed n) (Note.tags n)
    match folderId with
    | Omitted => Note.folderId n
    | Given f => f
    end.

(** [prev.map(n => n.id === id ? {...} : n)]; the clock is read for every
    note with the id. *)
Fixpoint mapEdited (id content : jsstring) (folderId : FolderArg)
    (now : nat -> Z) (k : nat) (l : list Note.t) : list Note.t :=
  match l with
  | [] => []
  | n :: r =>
      if hasId id n
      then edited content folderId (now k) n
             :: mapEdited id content folderId now (S k) r
      else n :: mapEdited id content folderId now k r
  end.

Definition handleUpdateNote (id content : jsstring) (folderId : FolderArg)
    (now : nat -> Z) (s : App.t) : App.t :=
  let notes := mapEdited id content folderId now 0 (App.notes s) in
  let readings := length (List.filter (hasId id) (App.notes s)) in
  let storage :=
    snd (updateNote id content folderId (fun k => now (readings + k)%nat)
           (App.storage s)) in
  let tags :=
    if strIncludes content [HASH] || strIncludes content [SPACE]
    then getTags storage
    else App.tags s in
  App.mk notes (App.folders s) tags (App.selectedNoteId s) (App.filter s)
    storage.

(** The other handlers of [App]. *)
Definition withStorage (st : Store) (s : App.t) : App.t :=
  App.mk (App.notes s) (App.folders s) (App.tags s) (App.selectedNoteId s)
    (App.filter s) st.

Definition setSelectedNoteId (id : option jsstring) (s : App.t) : App.t :=
  App.mk (App.notes s) (App.folders s) (App.tags s) id (App.filter s)
    (App.storage s).

Definition setFilter (f : NoteFilter.t) (s : App.t) : App.t :=
  App.mk (App.notes s) (App.folders s) (App.tags s) (App.selectedNoteId s) f
    (App.storage s).

Definition setNotes (l : list Note.t) (s : App.t) : App.t :=
  App.mk l (App.folders s) (App.tags s) (App.selectedNoteId s) (App.filter s)
    (App.storage s).

(** [if (selectedNoteId === id) setSelectedNoteId(null)]. *)
Definition deselect (id : jsstring) (s : App.t) : App.t :=
  if nullable_streq (App.selectedNoteId s) (Some id)
  then setSelectedNoteId None s
  else s.

Definition isTAG (type : FilterType) : bool :=
  match type with
  | TAG => true
  | _ => false
  end.

Section OtherHandlers.
Variable localeCompare : jsstring -> jsstring -> Z.

Definition handleDeleteNote (id : jsstring) (s : App.t) : App.t :=
  refreshData localeCompare
    (deselect id (withStorage (moveToTrash id (App.storage s)) s)).

Definition handleRestoreNote (id : jsstring) (s : App.t) : App.t :=
  refreshData localeCompare
    (withStorage (restoreFromTrash id (App.storage s)) s).

Definition handleDeletePermanently (id : jsstring) (s : App.t) : App.t :=
  refreshData localeCompare
    (deselect id (withStorage (deletePermanently id (App.storage s)) s)).

Definition handleTogglePin (id : jsstring) (s : App.t) : App.t :=
  refreshData localeCompare
    (withStorage (snd (togglePin id (App.storage s))) s).

Definition handleCreateFolder (newId : jsstring) (now : nat -> Z)
    (name : jsstring) (parentId : option jsstring) (s : App.t) : App.t :=
  refreshData localeCompare
    (withStorage (snd (createFolder newId now name parentId (App.storage s)))
       s).

Definition handleRenameFolder (id name : jsstring) (s : App.t) : App.t :=
  refreshData localeCompare
    (withStorage (updateFolder id name (App.storage s)) s).

Definition handleDeleteFolder (id : jsstring) (s : App.t) : App.t :=
  let s1 := withStorage (deleteFolder id (App.storage s)) s in
  let s2 :=
    if isFOLDER (NoteFilter.type (App.filter s))
       && nullable_streq (NoteFilter.folderId (App.filter s)) (Some id)
    then setFilter (NoteFilter.mk ALL None None) s1
    else s1 in
  refreshData localeCompare s2.

(** The end of [handleRenameTag] and of [handleDeleteTag]: the notes are
    fetched once more when a note is selected. *)
Definition fetchNotesIfSelected (s : App.t) : App.t :=
  if given (App.selectedNoteId s)
  then setNotes (getAllNotes (App.storage s)) s
  else s.

Definition handleRenameTag (oldTag newTag : jsstring) (now : nat -> Z)
    (s : App.t) : App.t :=
  let s1 := withStorage (renameTag oldTag newTag now (App.storage s)) s in
  let s2 :=
    if isTAG (NoteFilter.type (App.filter s))
       && nullable_streq (NoteFilter.tag (App.filter s)) (Some oldTag)
    then setFilter (NoteFilter.mk TAG (Some newTag) None) s1
    else s1 in
  fetchNotesIfSelected (refreshData localeCompare s2).

Definition handleDeleteTag (tag : jsstring) (now : nat -> Z) (s : App.t)
  : App.t :=
  let s1 := withStorage (deleteTag tag now (App.storage s)) s in
  let s2 :=
    if isTAG (NoteFilter.type (App.filter s))
       && nullable_streq (NoteFilter.tag (App.filter s)) (Some tag)
    then setFilter (NoteFilter.mk ALL None None) s1
    else s1 in
  fetchNotesIfSelected (refreshData localeCompare s2).

(** [onSelectFilter] as [App] passes it to the sidebar. *)
Definition selectFilter (f : NoteFilter.t) (s : App.t) : App.t :=
  setSelectedNoteId None (setFilter f s).

(** What the user does, with the values that the clock and [generateId]
    give while the handler runs. *)
Inductive Gesture : Type :=
| GCreateNote (newId : jsstring) (now : nat -> Z)
| GUpdateNote (id content : jsstring) (folderId : FolderArg) (now : nat -> Z)
| GDeleteNote (id : jsstring)
| GRestoreNote (id : jsstring)
| GDeletePermanently (id : jsstring)
| GTogglePin (id : jsstring)
| GCreateFolder (newId : jsstring) (now : nat -> Z) (name : jsstring)
    (parentId : option jsstring)
| GRenameFolder (id name : jsstring)
| GDeleteFolder (id : jsstring)
| GRenameTag (oldTag newTag : jsstring) (now : nat -> Z)
| GDeleteTag (tag : jsstring) (now : nat -> Z)
| GSelectFilter (f : NoteFilter.t)
| GSelectNote (id : jsstring).

Definition handle (g : Gesture) (s : App.t) : App.t :=
  match g with
  | GCreateNote newId now => handleCreateNote localeCompare newId now s
  | GUpdateNote id content folderId now =>
      handleUpdateNote id content folderId now s
  | GDeleteNote id => handleDeleteNote id s
  | GRestoreNote id => handleRestoreNote id s
  | GDeletePermanently id => handleDeletePermanently id s
  | GTogglePin id => handleTogglePin id s
  | GCreateFolder newId now name parentId =>
      handleCreateFolder newId now name parentId s
  | GRenameFolder id name => handleRenameFolder id name s
  | GDeleteFolder id => handleDeleteFolder id s
  | GRenameTag oldTag newTag now => handleRenameTag oldTag newTag now s
  | GDeleteTag tag now => handleDeleteTag tag now s
  | GSelectFilter f => selectFilter f s
  | GSelectNote id => setSelectedNoteId (Some id) s
  end.

Definition gestures (gs : list Gesture) (s : App.t) : App.t :=
  fold_left (fun s g => handle g s) gs s.

(** The state after the first fetch, over whatever is stored. *)
Definition start (st : Store) : App.t :=
  refreshData localeCompare
    (App.mk [] [] [] None (NoteFilter.mk ALL None None) st).
End OtherHandlers.

(* ================================================================== *)
(** * Reading a collection from a blob

    [getNotesFromStorage] and [getFoldersFromStorage] as they treat the
    text found under their key, whatever it is. [JSON.parse] is embedded as
    a lexer and a stack parser, both by recursion over their input. *)

Module Blob.

#[local] Unset Elimination Schemes.
Inductive json : Type :=
| JNull
| JBool (b : bool)
| JNumber (lexeme : jsstring)
| JString (s : jsstring)
| JArray (items : list json)
| JObject (members : list (jsstring * json)).
#[local] Set Elimination Schemes.

Inductive token : Type :=
| TLBracket | TRBracket | TLBrace | TRBrace | TComma | TColon
| TString (s : jsstring)
| TNumber (lexeme : jsstring)
| TName (letters : jsstring).

Definition isDigit (c : N) : bool := inRange 48 57 c.
Definition isLower (c : N) : bool := inRange 97 122 c.
Definition isJsonSpace (c : N) : bool :=
  (c =? 32)%N || (c =? 9)%N || (c =? 10)%N || (c =? 13)%N.
Definition isNumberChar (c : N) : bool :=
  isDigit c || (c =? 45)%N || (c =? 43)%N || (c =? 46)%N
  || (c =? 101)%N || (c =? 69)%N.

Definition hexValue (c : N) : option N :=
  if isDigit c then Some (c - 48)%N
  else if inRange 97 102 c then Some (c - 87)%N
  else if inRange 65 70 c then Some (c - 55)%N
  else None.

(** The grammar of a number: an optional minus sign; a zero, or a digit
    from 1 to 9 and any digits; optionally a dot and one digit or more;
    optionally [e] or [E], an optional sign and one digit or more. *)
Definition validExponent (s : jsstring) : bool :=
  match s with
  | [] => true
  | e :: r =>
      ((e =? 101)%N || (e =? 69)%N)
      && (let digits :=
            match r with
            | sign :: r' =>
                if (sign =? 43)%N || (sign =? 45)%N then r' else r
            | [] => r
            end in
          negb (Nat.eqb (length digits) 0) && forallb isDigit digits)
  end.

Definition validFraction (s : jsstring) : bool :=
  match s with
  | dot :: d :: r =>
      if (dot =? 46)%N then isDigit d && validExponent (dropWhile isDigit r)
      else validExponent s
  | _ => validExponent s
  end.

Definition validNumber (s : jsstring) : bool :=
  let unsigned :=
    match s with
    | c :: r => if (c =? 45)%N then r else s
    | [] => s
    end in
  match unsigned with
  | d :: r =>
      if (d =? 48)%N then validFraction r
      else isDigit d && validFraction (dropWhile isDigit r)
  | [] => false
  end.

Inductive lexState : Type :=
| LIdle
| LString (seen : jsstring)                 (* reversed *)
| LEscape (seen : jsstring)
| LUnicode (seen : jsstring) (digits : list N)
| LNumber (seen : jsstring)
| LName (seen : jsstring).

(** A character met outside a string, a number and a name. *)
Definition lexIdle (c : N) : option (lexState * list token) :=
  if isJsonSpace c then Some (LIdle, [])
  else if (c =? 91)%N then Some (LIdle, [TLBracket])
  else if (c =? 93)%N then Some (LIdle, [TRBracket])
  else if (c =? 123)%N then Some (LIdle, [TLBrace])
  else if (c =? 125)%N then Some (LIdle, [TRBrace])
  else if (c =? 44)%N then Some (LIdle, [TComma])
  else if (c =? 58)%N then Some (LIdle, [TColon])
  else if (c =? 34)%N then Some (LString [], [])
  else if isDigit c || (c =? 45)%N then Some (LNumber [c], [])
  else if isLower c then Some (LName [c], [])
  else None.

Definition lexEscape (c : N) : option N :=
  if (c =? 34)%N || (c =? 92)%N || (c =? 47)%N then Some c
  else if (c =? 98)%N then Some 8%N
  else if (c =? 102)%N then Some 12%N
  else if (c =? 110)%N then Some 10%N
  else if (c =? 114)%N then Some 13%N
  else if (c =? 116)%N then Some 9%N
  else None.

(** The token that ends when a number or a name is left. *)
Definition lexClose (q : lexState) : option (list token) :=
  match q with
  | LIdle => Some []
  | LNumber seen =>
      if validNumber (rev seen) then Some [TNumber (rev seen)] else None
  | LName seen => Some [TName (rev seen)]
  | _ => None
  end.

Definition lexStep (q : lexState) (c : N) : option (lexState * list token) :=
  match q with
  | LIdle => lexIdle c
  | LString seen =>
      if (c =? 34)%N then Some (LIdle, [TString (rev seen)])
      else if (c =? 92)%N then Some (LEscape seen, [])
      else if (c <? 32)%N then None
      else Some (LString (c :: seen), [])
  | LEscape seen =>
      if (c =? 117)%N then Some (LUnicode seen [], [])
      else option_map (fun d => (LString (d :: seen), [])) (lexEscape c)
  | LUnicode seen digits =>
      match hexValue c with
      | None => None
      | Some d =>
          match digits with
          | [d1; d2; d3] =>
              Some (LString ((((d1 * 16 + d2) * 16 + d3) * 16 + d)%N :: seen), [])
          | _ => Some (LUnicode seen (digits ++ [d]), [])
          end
      end
  | LNumber seen =>
      if isNumberChar c then Some (LNumber (c :: seen), [])
      else
        match lexClose q, lexIdle c with
        | Some t, Some (q', t') => Some (q', t ++ t')
        | _, _ => None
        end
  | LName seen =>
      if isLower c then Some (LName (c :: seen), [])
      else
        match lexClose q, lexIdle c with
        | Some t, Some (q', t') => Some (q', t ++ t')
        | _, _ => None
        end
  end.

Fixpoint lex (q : lexState) (s : jsstring) : option (list token) :=
  match s with
  | [] => lexClose q
  | c :: r =>
      match lexStep q c with
      | None => None
      | Some (q', t) => option_map (app t) (lex q' r)
      end
  end.

(** A container that is being read. *)
Inductive frame : Type :=
| FArray (seen : list json)                                 (* reversed *)
| FObject (seen : list (jsstring * json)) (key : jsstring).

Inductive parseState : Type :=
| PValue (stack : list frame)
| PArrayStart (stack : list frame)
| PObjectStart (stack : list frame)
| PKey (seen : list (jsstring * json)) (stack : list frame)
| PColon (seen : list (jsstring * json)) (key : jsstring) (stack : list frame)
| PAfter (v : json) (stack : list frame).

Definition parseValueStart (stack : list frame) (t : token)
  : option parseState :=
  match t with
  | TString s => Some (PAfter (JString s) stack)
  | TNumber l => Some (PAfter (JNumber l) stack)
  | TName l =>
      if streq l (js "null") then Some (PAfter JNull stack)
      else if streq l (js "true") then Some (PAfter (JBool true) stack)
      else if streq l (js "false") then Some (PAfter (JBool false) stack)
      else None
  | TLBracket => Some (PArrayStart stack)
  | TLBrace => Some (PObjectStart stack)
  | _ => None
  end.

Definition parseStep (q : parseState) (t : token) : option parseState :=
  match q, t with
  | PValue stack, _ => parseValueStart stack t
  | PArrayStart stack, TRBracket => Some (PAfter (JArray []) stack)
  | PArrayStart stack, _ => parseValueStart (FArray [] :: stack) t
  | PObjectStart stack, TRBrace => Some (PAfter (JObject []) stack)
  | PObjectStart stack, TString k => Some (PColon [] k stack)
  | PKey seen stack, TString k => Some (PColon seen k stack)
  | PColon seen k stack, TColon => Some (PValue (FObject seen k :: stack))
  | PAfter v (FArray seen :: stack), TComma =>
      Some (PValue (FArray (v :: seen) :: stack))
  | PAfter v (FArray seen :: stack), TRBracket =>
      Some (PAfter (JArray (rev (v :: seen))) stack)
  | PAfter v (FObject seen k :: stack), TComma =>
      Some (PKey ((k, v) :: seen) stack)
  | PAfter v (FObject seen k :: stack), TRBrace =>
      Some (PAfter (JObject (rev ((k, v) :: seen))) stack)
  | _, _ => None
  end.

Fixpoint parseTokens (q : parseState) (ts : list token) : option json :=
  match ts with
  | [] =>
      match q with
      | PAfter v [] => Some v
      | _ => None
      end
  | t :: r =>
      match parseStep q t with
      | None => None
      | Some q' => parseTokens q' r
      end
  end.

(** [JSON.parse(text)]; [None] when it throws a SyntaxError. *)
Definition JSON_parse (text : jsstring) : option json :=
  match lex LIdle text with
  | None => None
  | Some ts => parseTokens (PValue []) ts
  end.

(** [localStorage.getItem]: the text under a key, [None] for [null]. *)
Definition LocalStorage := jsstring -> option jsstring.

(** The body shared by the two readers:
    [try { return raw ? JSON.parse(raw) : [] } catch (e) { return [] }]. *)
Definition readCollection (raw : option jsstring) : json :=
  match raw with
  | None => JArray []
  | Some [] => JArray []
  | Some text =>
      match JSON_parse text with
      | Some v => v
      | None => JArray []
      end
  end.

Definition getNotesFromStorage (ls : LocalStorage) : json :=
  readCollection (ls STORAGE_KEY_NOTES).

Definition getFoldersFromStorage (ls : LocalStorage) : json :=
  readCollection (ls STORAGE_KEY_FOLDERS).

(** The array that a method of the service goes on to work with. A value
    that is not an array has none of [findIndex], [map], [filter], [sort],
    [unshift] and [push]: the call raises a TypeError ([None]). *)
Definition asArray (v : json) : option (list json) :=
  match v with
  | JArray items => Some items
  | _ => None
  end.

(** The blob is the text of a JSON array. *)
Definition parsesAsSequence (text : jsstring) : bool :=
  match JSON_parse text with
  | Some (JArray _) => true
  | _ => false
  end.


(* ------------------------------------------------------------------ *)
(** ** Writing a collection *)

(** The values that the service gives to [JSON.stringify]: strings, whole
    numbers, booleans, [null], arrays of such values, and objects with
    their properties in the order in which they were created. *)
#[local] Unset Elimination Schemes.
Inductive value : Type :=
| VNull
| VBool (b : bool)
| VNumber (n : Z)
| VString (s : jsstring)
| VArray (items : list value)
| VObject (members : list (jsstring * value)).
#[local] Set Elimination Schemes.

Section ValueInduction.
Variable P : value -> Prop.
Hypothesis HNull : P VNull.
Hypothesis HBool : forall b, P (VBool b).
Hypothesis HNumber : forall n, P (VNumber n).
Hypothesis HString : forall s, P (VString s).
Hypothesis HArray : forall items, Forall P items -> P (VArray items).
Hypothesis HObject :
  forall members, Forall (fun m => P (snd m)) members -> P (VObject members).

Fixpoint value_ind (v : value) : P v :=
  match v with
  | VNull => HNull
  | VBool b => HBool b
  | VNumber n => HNumber n
  | VString s => HString s
  | VArray items =>
      HArray
        ((fix all (l : list value) : Forall P l :=
            match l with
            | [] => Forall_nil P
            | x :: r => Forall_cons x (value_ind x) (all r)
            end) items)
  | VObject members =>
      HObject
        ((fix all (l : list (jsstring * value))
            : Forall (fun m => P (snd m)) l :=
            match l with
            | [] => Forall_nil _
            | (k, x) :: r =>
                Forall_cons (P := fun m => P (snd m)) (k, x) (value_ind x)
                  (all r)
            end) members)
  end.
End ValueInduction.

(** The digits of a number in decimal notation. *)
Fixpoint digitsOf (d : Decimal.uint) : jsstring :=
  match d with
  | Decimal.Nil => []
  | Decimal.D0 r => 48%N :: digitsOf r
  | Decimal.D1 r => 49%N :: digitsOf r
  | Decimal.D2 r => 50%N :: digitsOf r
  | Decimal.D3 r => 51%N :: digitsOf r
  | Decimal.D4 r => 52%N :: digitsOf r
  | Decimal.D5 r => 53%N :: digitsOf r
  | Decimal.D6 r => 54%N :: digitsOf r
  | Decimal.D7 r => 55%N :: digitsOf r
  | Decimal.D8 r => 56%N :: digitsOf r
  | Decimal.D9 r => 57%N :: digitsOf r
  end.

(** [Number::toString] for a whole number below 10^21 in size, which is
    where the notation with an exponent begins: the decimal digits, behind
    a minus sign when the number is negative. The time stamps are such
    numbers. *)
Definition numberToString (n : Z) : jsstring :=
  match n with
  | Z0 => [48%N]
  | Zpos p => digitsOf (Pos.to_uint p)
  | Zneg p => 45%N :: digitsOf (Pos.to_uint p)
  end.

(** The numbers of a value are safe integers ([Number.isSafeInteger]),
    which a whole number has to be to be a number of JavaScript for
    certain, and which keeps it below 10^21. *)
Definition MAX_SAFE_INTEGER : Z := 9007199254740991.

Fixpoint safeIntegers (v : value) : bool :=
  match v with
  | VNumber n => (Z.abs n <=? MAX_SAFE_INTEGER)%Z
  | VArray items => forallb safeIntegers items
  | VObject members => forallb (fun m => safeIntegers (snd m)) members
  | _ => true
  end.

(** A digit of a [\u] escape, in lower case. *)
Definition hexDigit (d : N) : N :=
  if (d <? 10)%N then (d + 48)%N else (d + 87)%N.

(** UnicodeEscape: [\u] and the four hexadecimal digits of the code unit. *)
Definition unicodeEscape (c : N) : jsstring :=
  [92%N; 117%N; hexDigit (c / 4096); hexDigit (c / 256 mod 16);
   hexDigit (c / 16 mod 16); hexDigit (c mod 16)].

(** What QuoteJSONString writes for a code unit that is not a surrogate:
    the short escapes, [\u] escapes for the other control characters, the
    code unit itself otherwise. *)
Definition quoteUnit (c : N) : jsstring :=
  if (c =? 8)%N then [92%N; 98%N]
  else if (c =? 9)%N then [92%N; 116%N]
  else if (c =? 10)%N then [92%N; 110%N]
  else if (c =? 12)%N then [92%N; 102%N]
  else if (c =? 13)%N then [92%N; 114%N]
  else if (c =? 34)%N then [92%N; 34%N]
  else if (c =? 92)%N then [92%N; 92%N]
  else if (c <? 32)%N then unicodeEscape c
  else [c].

Definition isLeadingSurrogate (c : N) : bool := inRange 0xd800 0xdbff c.
Definition isTrailingSurrogate (c : N) : bool := inRange 0xdc00 0xdfff c.

(** The string is gone through by code points: a leading surrogate with a
    trailing one behind it is a pair and is written as it is, a surrogate
    on its own is written as a [\u] escape. *)
Fixpoint quoteUnits (s : jsstring) : jsstring :=
  match s with
  | [] => []
  | c :: r =>
      if isLeadingSurrogate c then
        match r with
        | d :: r' =>
            if isTrailingSurrogate d then c :: d :: quoteUnits r'
            else unicodeEscape c ++ quoteUnits r
        | [] => unicodeEscape c
        end
      else if isTrailingSurrogate c then unicodeEscape c ++ quoteUnits r
      else quoteUnit c ++ quoteUnits r
  end.

Definition QuoteJSONString (s : jsstring) : jsstring :=
  34%N :: quoteUnits s ++ [34%N].

(** [JSON.stringify(v)] without indentation. *)
Fixpoint JSON_stringify (v : value) : jsstring :=
  match v with
  | VNull => js "null"
  | VBool true => js "true"
  | VBool false => js "false"
  | VNumber n => numberToString n
  | VString s => QuoteJSONString s
  | VArray items => 91%N :: join [44%N] (map JSON_stringify items) ++ [93%N]
  | VObject members =>
      123%N
        :: join [44%N]
             (map (fun m => QuoteJSONString (fst m) ++ 58%N
                              :: JSON_stringify (snd m)) members)
        ++ [125%N]
  end.

(** The records as values: the properties stand in the order in which
    [createNote] and [createFolder] write them down, which no later call
    changes. *)
Definition nullable (s : option jsstring) : value :=
  match s with
  | Some x => VString x
  | None => VNull
  end.

Definition noteValue (n : Note.t) : value :=
  VObject
    [ (js "id", VString (Note.id n));
      (js "content", VString (Note.content n));
      (js "createdAt", VNumber (Note.createdAt n));
      (js "updatedAt", VNumber (Note.updatedAt n));
      (js "isPinned", VBool (Note.isPinned n));
      (js "isTrashed", VBool (Note.isTrashed n));
      (js "tags", VArray (map VString (Note.tags n)));
      (js "folderId", nullable (Note.folderId n)) ].

Definition folderValue (f : Folder.t) : value :=
  VObject
    [ (js "id", VString (Folder.id f));
      (js "name", VString (Folder.name f));
      (js "parentId", nullable (Folder.parentId f));
      (js "createdAt", VNumber (Folder.createdAt f)) ].

(** [localStorage.setItem(key, text)] when the browser takes the item. *)
Definition setItem (key text : jsstring) (ls : LocalStorage) : LocalStorage :=
  fun k => if streq k key then Some text else ls k.

Section Quota.
(** Whether the browser takes an item: [setItem] raises an exception when
    the quota is exceeded. *)
Variable fits : jsstring -> jsstring -> LocalStorage -> bool.

(** The body shared by the two writers:
    [try { localStorage.setItem(key, JSON.stringify(l)) } catch (e) { ... }],
    where the handler writes to the console only. *)
Definition writeCollection (key : jsstring) (l : list value)
    (ls : LocalStorage) : LocalStorage :=
  let text := JSON_stringify (VArray l) in
  if fits key text ls then setItem key text ls else ls.

Definition saveNotesToStorage (notes : list Note.t) (ls : LocalStorage)
  : LocalStorage :=
  writeCollection STORAGE_KEY_NOTES (map noteValue notes) ls.

Definition saveFoldersToStorage (folders : list Folder.t) (ls : LocalStorage)
  : LocalStorage :=
  writeCollection STORAGE_KEY_FOLDERS (map folderValue folders) ls.
End Quota.

(** The value that [JSON.parse] gives back for a value written. *)
Fixpoint parsedAs (v : value) : json :=
  match v with
  | VNull => JNull
  | VBool b => JBool b
  | VNumber n => JNumber (numberToString n)
  | VString s => JString s
  | VArray items => JArray (map parsedAs items)
  | VObject members =>
      JObject (map (fun m => (fst m, parsedAs (snd m))) members)
  end.

(** The tokens of the text of a value. *)
Fixpoint tokensOf (v : value) : list token :=
  match v with
  | VNull => [TName (js "null")]
  | VBool true => [TName (js "true")]
  | VBool false => [TName (js "false")]
  | VNumber n => [TNumber (numberToString n)]
  | VString s => [TString s]
  | VArray items => TLBracket :: join [TComma] (map tokensOf items)
                      ++ [TRBracket]
  | VObject members =>
      TLBrace
        :: join [TComma]
             (map (fun m => TString (fst m) :: TColon :: tokensOf (snd m))
                members)
        ++ [TRBrace]
  end.

(** The characters that the text of a value is followed by, inside the
    text of an array or of an object. *)
Definition isDelimiter (c : N) : bool :=
  (c =? 44)%N || (c =? 93)%N || (c =? 125)%N.

Definition delimited (rest : jsstring) : bool :=
  match rest with
  | [] => true
  | c :: _ => isDelimiter c
  end.

End Blob.

(* ================================================================== *)
(** * The notions of the statements *)

(* ------------------------------------------------------------------ *)
(** ** Properties of all stored notes *)

(** A property of notes holds for all stored notes. *)
Definition allNotes (P : Note.t -> Prop) (st : Store) : Prop :=
  Forall P (notes st).

(** The note that [togglePin id] is applied to keeps the property. *)
Definition pinKeeps (P : Note.t -> Prop) (id : jsstring) (st : Store) : Prop :=
  forall i n,
    findIndex (hasId id) (notes st) = Some i ->
    nth_error (notes st) i = Some n ->
    P n -> P (setPinned (negb (Note.isPinned n)) n).

Definition stepKeeps (P : Note.t -> Prop) (op : Op) (st : Store) : Prop :=
  match op with
  | TogglePin id => pinKeeps P id st
  | _ => True
  end.

Fixpoint runKeeps (P : Note.t -> Prop) (ops : list Op) (st : Store) : Prop :=
  match ops with
  | [] => True
  | op :: r => stepKeeps P op st /\ runKeeps P r (step op st)
  end.

(* ------------------------------------------------------------------ *)
(** ** Trash and pins *)

Definition unpinnedIfTrashed (n : Note.t) : Prop :=
  Note.isTrashed n = true -> Note.isPinned n = false.

Definition trashNeverPinned (st : Store) : Prop :=
  allNotes unpinnedIfTrashed st.

(** The note that [togglePin id] would flip is not in the trash (or there
    is no such note). The editor offers its pin button under this condition
    only ([!note.isTrashed] in [Editor.tsx]). *)
Definition pinsLiveNote (id : jsstring) (st : Store) : bool :=
  match findIndex (hasId id) (notes st) with
  | Some i =>
      match nth_error (notes st) i with
      | Some n => negb (Note.isTrashed n)
      | None => true
      end
  | None => true
  end.

Definition offered (op : Op) (st : Store) : bool :=
  match op with
  | TogglePin id => pinsLiveNote id st
  | _ => true
  end.

Fixpoint offeredRun (ops : list Op) (st : Store) : bool :=
  match ops with
  | [] => true
  | op :: r => offered op st && offeredRun r (step op st)
  end.

(* ------------------------------------------------------------------ *)
(** ** Tags of a content *)

(** The wording of the extraction rule: somewhere in the content a hash
    sign is followed by the characters of [t], one at least, all of them
    word characters or ideographs, and no such character comes next. *)
Definition TagIn (t content : jsstring) : Prop :=
  exists pre post,
    content = pre ++ HASH :: t ++ post
    /\ t <> []
    /\ Forall (fun c => isTagChar c = true) t
    /\ headIs isTagChar post = false.

Definition tagsDerived (n : Note.t) : Prop :=
  Note.tags n = extractTags (Note.content n).

(** The three calls that do not touch a content. *)
Definition flagsOnly (op : Op) : bool :=
  match op with
  | TogglePin _ | MoveToTrash _ | RestoreFromTrash _ => true
  | _ => false
  end.

(* ------------------------------------------------------------------ *)
(** ** Ids that are not stored *)

Definition noteExists (id : jsstring) (st : Store) : bool :=
  existsb (hasId id) (notes st).

Definition folderExists (id : jsstring) (st : Store) : bool :=
  existsb (folderHasId id) (folders st).

(** Some note or folder points to the folder id. *)
Definition referenced (id : jsstring) (st : Store) : bool :=
  existsb (fun n => nullable_streq (Note.folderId n) (Some id)) (notes st)
  || existsb (fun f => nullable_streq (Folder.parentId f) (Some id))
       (folders st).

(* ------------------------------------------------------------------ *)
(** ** The order of a listing *)

Definition newerOrSame (a b : Note.t) : Prop :=
  (Note.updatedAt a >= Note.updatedAt b)%Z.

Definition updatedAtIs (t : Z) (n : Note.t) : bool :=
  (Note.updatedAt n =? t)%Z.

(* ------------------------------------------------------------------ *)
(** ** Edits of a content *)

Definition dollarFree (s : jsstring) : Prop := ~ In DOLLAR s.

(** The number of notes in front of position [i] that carry the tag, which
    is the number of clock readings taken before that position. *)
Definition taggedBefore (tag : jsstring) (i : nat) (l : list Note.t) : nat :=
  length (filter (fun n => includes tag (Note.tags n)) (firstn i l)).

(** The token [#tag] stands at the beginning of the string, and no tag
    character follows it. *)
Definition TokenAt (tag s : jsstring) : Prop :=
  exists rest, s = HASH :: tag ++ rest /\ headIs isTagChar rest = false.

(** The wording of the replacement: going through the content from the
    left, every token [#tag] that no tag character follows is replaced by
    [rep], and every other character is kept. *)
Inductive Rewritten (tag rep : jsstring) : jsstring -> jsstring -> Prop :=
| Rw_end : Rewritten tag rep [] []
| Rw_token rest out :
    headIs isTagChar rest = false ->
    Rewritten tag rep rest out ->
    Rewritten tag rep (HASH :: tag ++ rest) (rep ++ out)
| Rw_keep c rest out :
    ~ TokenAt tag (c :: rest) ->
    Rewritten tag rep rest out ->
    Rewritten tag rep (c :: rest) (c :: out).

(** The wording of the collapse: going through the content from the left,
    every longest run of two or more white space characters is replaced by
    one space, and every other character is kept. *)
Inductive Collapsed : jsstring -> jsstring -> Prop :=
| Co_end : Collapsed [] []
| Co_run ws rest out :
    (2 <= length ws)%nat ->
    Forall (fun c => isSpace c = true) ws ->
    headIs isSpace rest = false ->
    Collapsed rest out ->
    Collapsed (ws ++ rest) (SPACE :: out)
| Co_keep c rest out :
    isSpace c && headIs isSpace rest = false ->
    Collapsed rest out ->
    Collapsed (c :: rest) (c :: out).

Definition collapseWhitespace (s : jsstring) : jsstring :=
  replaceWith whitespaceRun [SPACE] s.

(** Two white space characters stand side by side somewhere. *)
Fixpoint hasDoubleSpace (s : jsstring) : bool :=
  match s with
  | c :: r => (isSpace c && headIs isSpace r) || hasDoubleSpace r
  | [] => false
  end.

(* ------------------------------------------------------------------ *)
(** ** Blobs that cannot be read *)

(** Nothing was ever written under the key, or the text under it is empty,
    or [JSON.parse] rejects it. *)
Definition unreadable (raw : option jsstring) : bool :=
  match raw with
  | None => true
  | Some [] => true
  | Some text =>
      match Blob.JSON_parse text with
      | None => true
      | Some _ => false
      end
  end.

(** A local storage that holds the same text under every key. *)
Definition holding (text : string) : Blob.LocalStorage :=
  fun _ => Some (js text).

Definition neverWritten : Blob.LocalStorage := fun _ => None.

(* ------------------------------------------------------------------ *)
(** ** Sample data *)

(** A string literal of a JSON text. *)
Definition quoted (s : string) : jsstring := 34%N :: js s ++ [34%N].

Definition tick : nat -> Z := fun k => (1700000000000 + Z.of_nat k)%Z.

(** A pinned note is created, pinned, trashed, restored and pinned again. *)
Definition pinTrashRun : list Op :=
  [ CreateNote (js "n1") tick (js "buy milk #todo") None;
    TogglePin (js "n1");
    MoveToTrash (js "n1");
    MoveToTrash (js "n1");
    RestoreFromTrash (js "n1");
    TogglePin (js "n1") ].

Definition shelf : Store :=
  mkStore
    [ Note.mk (js "a") (js "first #one") 10 20 true false [js "one"] None;
      Note.mk (js "b") (js "second") 11 21 false false [] (Some (js "F0")) ]
    [ Folder.mk (js "F0") (js "inbox") None 5 ]
    [].

(** A folder with a note, a child folder with a note, and a note at the root. *)
Definition tree : Store :=
  mkStore
    [ Note.mk (js "n1") (js "in F") 1 1 false false [] (Some (js "F"));
      Note.mk (js "n2") (js "in child") 2 2 false false [] (Some (js "C"));
      Note.mk (js "n3") (js "at root") 3 3 false false [] None ]
    [ Folder.mk (js "F") (js "work") None 0;
      Folder.mk (js "C") (js "drafts") (Some (js "F")) 0 ]
    [].

Definition ideaStore : Store :=
  mkStore
    [ Note.mk (js "n1") (js "Review #idea please") 1 1 false false
        [js "idea"] None;
      Note.mk (js "n2") (js "#ideaX") 2 2 false false [js "ideaX"] None ]
    [] [].

Definition checkStore : Store :=
  mkStore
    [ Note.mk (js "n1") (js "Check #idea   now") 1 1 false false
        [js "idea"] None;
      Note.mk (js "n2") (js "keep  this #ideas") 2 2 false false
        [js "ideas"] None ]
    [] [].

(** Two paragraphs with a blank line between them and a double space that
    has nothing to do with the tag. *)
Definition paragraphs : jsstring :=
  js "one  two" ++ [10; 10]%N ++ js "three #idea" ++ [10]%N ++ js "four".

(* ------------------------------------------------------------------ *)
(** ** The tag list *)

(** The tags of the notes that are not in the trash, note after note. *)
Definition liveTags (l : list Note.t) : list jsstring :=
  flat_map (fun n => if Note.isTrashed n then [] else Note.tags n) l.

(** The note is not in the trash and carries the tag. *)
Definition carriesLive (tag : jsstring) (n : Note.t) : bool :=
  negb (Note.isTrashed n) && includes tag (Note.tags n).

Definition keys (m : TagMap) : list jsstring := map fst m.

Definition tally (m : TagMap) (k : jsstring) : nat :=
  match mapGet k m with
  | Some c => c
  | None => 0
  end.

(* ------------------------------------------------------------------ *)
(** ** What identifies a record *)

Definition noteKey (n : Note.t) : jsstring * Z := (Note.id n, Note.createdAt n).

Definition folderKey (f : Folder.t) : jsstring * Z :=
  (Folder.id f, Folder.createdAt f).

Definition keyHasId (id : jsstring) (k : jsstring * Z) : bool :=
  streq (fst k) id.

(** The identifier that a call of [createNote] or [createFolder] gets from
    [generateId] is not the id of a stored note or folder. *)
Definition freshId (op : Op) (st : Store) : bool :=
  match op with
  | CreateNote newId _ _ _ => negb (noteExists newId st)
  | CreateFolder newId _ _ _ => negb (folderExists newId st)
  | _ => true
  end.

Fixpoint freshRun (ops : list Op) (st : Store) : bool :=
  match ops with
  | [] => true
  | op :: r => freshId op st && freshRun r (step op st)
  end.

Definition uniqueIds (st : Store) : Prop :=
  NoDup (map Note.id (notes st)) /\ NoDup (map Folder.id (folders st)).

(** A call that works on the notes only. *)
Definition noteCall (op : Op) : bool :=
  match op with
  | CreateFolder _ _ _ _ | UpdateFolder _ _ | DeleteFolder _ => false
  | _ => true
  end.

(* ------------------------------------------------------------------ *)
(** ** References to folders *)

(** The folder that a call names for a note, or as a parent, is stored. *)
Definition namesStoredFolder (op : Op) (st : Store) : bool :=
  match op with
  | CreateNote _ _ _ (Some f) => folderExists f st
  | UpdateNote _ _ (Given (Some f)) _ => folderExists f st
  | CreateFolder _ _ _ (Some p) => folderExists p st
  | _ => true
  end.

Fixpoint namesStoredFolders (ops : list Op) (st : Store) : bool :=
  match ops with
  | [] => true
  | op :: r => namesStoredFolder op st && namesStoredFolders r (step op st)
  end.

(** No note and no folder points to a folder that is not stored. *)
Definition noDanglingReference (st : Store) : Prop :=
  (forall n f, In n (notes st) -> Note.folderId n = Some f ->
               folderExists f st = true)
  /\ (forall g p, In g (folders st) -> Folder.parentId g = Some p ->
                  folderExists p st = true).

(** Every folder with a parent stands behind a folder with the id of
    that parent; [seen] are the ids in front of the list. *)
Fixpoint parentsFirst (seen : list jsstring) (l : list Folder.t) : bool :=
  match l with
  | [] => true
  | f :: r =>
      match Folder.parentId f with
      | None => true
      | Some p => includes p seen
      end && parentsFirst (Folder.id f :: seen) r
  end.

(** The comparator orders the names: of two names one comes first, and
    the order is transitive. *)
Definition ordersNames (cmp : jsstring -> jsstring -> Z) : Prop :=
  (forall a b, (cmp a b <= 0)%Z \/ (cmp b a <= 0)%Z)
  /\ (forall a b c, (cmp a b <= 0)%Z -> (cmp b c <= 0)%Z -> (cmp a c <= 0)%Z).

(** A comparison of names by length, as a sample comparator. *)
Definition byLength (a b : jsstring) : Z :=
  (Z.of_nat (length a) - Z.of_nat (length b))%Z.

(** The folders that the sidebar can show: the folders without a parent,
    and the folders whose parent is the id of a folder it shows. *)
Inductive rooted (l : list Folder.t) : Folder.t -> Prop :=
| rooted_top f : Folder.parentId f = None -> rooted l f
| rooted_child f g :
    Folder.parentId f = Some (Folder.id g) -> In g l -> rooted l g ->
    rooted l f.

Definition named (name : jsstring) (f : Folder.t) : bool :=
  streq (Folder.name f) name.

(** The order of a list of folders under a comparator of names. *)
Definition nameOrder (cmp : jsstring -> jsstring -> Z) (a b : Folder.t)
  : Prop :=
  (cmp (Folder.name a) (Folder.name b) <= 0)%Z.

(* ------------------------------------------------------------------ *)
(** ** Names of tags *)

(** A name that a tag can have: tag characters, one at least. *)
Definition tagName (t : jsstring) : Prop :=
  t <> [] /\ Forall (fun c => isTagChar c = true) t.

(** A note without the time of its last change. *)
Definition withoutUpdatedAt (n : Note.t) : Note.t :=
  Note.mk (Note.id n) (Note.content n) (Note.createdAt n) 0
    (Note.isPinned n) (Note.isTrashed n) (Note.tags n) (Note.folderId n).

(* ------------------------------------------------------------------ *)
(** ** Views of the list of notes *)

Definition viewOf (type : FilterType) : NoteFilter.t :=
  NoteFilter.mk type None None.

Definition tagView (tag : jsstring) : NoteFilter.t :=
  NoteFilter.mk TAG (Some tag) None.

Definition isTRASH (type : FilterType) : bool :=
  match type with
  | TRASH => true
  | _ => false
  end.

(** A sample for [toLowerCase]: the letters from A to Z. *)
Definition lowerAscii (s : jsstring) : jsstring :=
  map (fun c => if inRange 65 90 c then (c + 32)%N else c) s.

(* ------------------------------------------------------------------ *)
(** ** Names that come from a form *)

(** Not empty, and no white space at either end. *)
Definition trimmed (s : jsstring) : Prop :=
  s <> [] /\ headIs isSpace s = false /\ headIs isSpace (rev s) = false.

(** A call on the folders that the sidebar can make. *)
Definition viaSidebar (op : Op) : Prop :=
  match op with
  | CreateFolder _ _ name parentId =>
      exists typed, submitNewFolder typed = Some (name, parentId)
  | UpdateFolder id name =>
      exists typed, submitRename id typed = Some (id, name)
  | _ => True
  end.

(** A folder at the top, with a name that a form lets through. *)
Definition topLevelNamed (f : Folder.t) : Prop :=
  Folder.parentId f = None /\ trimmed (Folder.name f).

(* ------------------------------------------------------------------ *)
(** ** Collections that were written *)

(** What is read from the text of a list of notes or folders: an array of
    objects with the properties of the records. *)
Definition notesRead (notes : list Note.t) : Blob.json :=
  Blob.JArray (map (fun n => Blob.parsedAs (Blob.noteValue n)) notes).

Definition foldersRead (folders : list Folder.t) : Blob.json :=
  Blob.JArray (map (fun f => Blob.parsedAs (Blob.folderValue f)) folders).

Definition notesText (notes : list Note.t) : jsstring :=
  Blob.JSON_stringify (Blob.VArray (map Blob.noteValue notes)).

Definition foldersText (folders : list Folder.t) : jsstring :=
  Blob.JSON_stringify (Blob.VArray (map Blob.folderValue folders)).

(** A browser that takes every item. *)
Definition unlimited : jsstring -> jsstring -> Blob.LocalStorage -> bool :=
  fun _ _ _ => true.

(* ------------------------------------------------------------------ *)
(** ** States of the application *)

(** A state right after the data were fetched, with one note. *)
Definition oneTagState : App.t :=
  let st :=
    mkStore [ Note.mk (js "n1") (js "#idea") 1 1 false false [js "idea"] None ]
      [] [] in
  App.mk (getAllNotes st) [] (getTags st) (Some (js "n1"))
    (NoteFilter.mk ALL None None) st.

(** The call of the storage service that a gesture leads to. *)
Definition callOf (g : Gesture) (s : App.t) : Op :=
  match g with
  | GCreateNote newId now =>
      CreateNote newId now NEW_NOTE
        (if isFOLDER (NoteFilter.type (App.filter s))
         then match NoteFilter.folderId (App.filter s) with
              | Some (c :: r) => Some (c :: r)
              | _ => None
              end
         else None)
  | GUpdateNote id content folderId now =>
      UpdateNote id content folderId
        (fun k => now (length (filter (hasId id) (App.notes s)) + k)%nat)
  | GDeleteNote id => MoveToTrash id
  | GRestoreNote id => RestoreFromTrash id
  | GDeletePermanently id => DeletePermanently id
  | GTogglePin id => TogglePin id
  | GCreateFolder newId now name parentId =>
      CreateFolder newId now name parentId
  | GRenameFolder id name => UpdateFolder id name
  | GDeleteFolder id => DeleteFolder id
  | GRenameTag oldTag newTag now => RenameTag oldTag newTag now
  | GDeleteTag tag now => DeleteTag tag now
  | GSelectFilter _ | GSelectNote _ => Query
  end.

(** The gestures that the lists on the screen offer: a folder view of a
    folder of the sidebar, a note of the list. *)
Definition onScreen (g : Gesture) (s : App.t) : Prop :=
  match g with
  | GSelectFilter f =>
      NoteFilter.type f = FOLDER ->
      exists id, NoteFilter.folderId f = Some id
                 /\ In id (map Folder.id (App.folders s))
  | GSelectNote id => In id (map Note.id (App.notes s))
  | _ => True
  end.

Fixpoint allOnScreen (localeCompare : jsstring -> jsstring -> Z)
    (gs : list Gesture) (s : App.t) : Prop :=
  match gs with
  | [] => True
  | g :: r =>
      onScreen g s /\ allOnScreen localeCompare r (handle localeCompare g s)
  end.

(** The selected note and the folder of the view are stored, and the
    lists of the state have the ids of what is stored. *)
Definition pointsToStored (s : App.t) : Prop :=
  (forall id, App.selectedNoteId s = Some id ->
              noteExists id (App.storage s) = true)
  /\ (forall id, NoteFilter.type (App.filter s) = FOLDER ->
                 NoteFilter.folderId (App.filter s) = Some id ->
                 folderExists id (App.storage s) = true)
  /\ (forall id, In id (map Note.id (App.notes s))
                 <-> noteExists id (App.storage s) = true)
  /\ (forall id, In id (map Folder.id (App.folders s))
                 <-> folderExists id (App.storage s) = true).

(** The lists of the state are those of the storage service. *)
Definition inSync (localeCompare : jsstring -> jsstring -> Z) (s : App.t)
  : Prop :=
  App.notes s = getAllNotes (App.storage s)
  /\ App.folders s = getAllFolders localeCompare (App.storage s)
  /\ App.tags s = getTags (App.storage s).

(** The gestures whose handler fetches the data. *)
Definition fetches (g : Gesture) : bool :=
  match g with
  | GUpdateNote _ _ _ _ | GSelectFilter _ | GSelectNote _ => false
  | _ => true
  end.

(** A note without its two flags. *)
Definition withoutFlags (n : Note.t) : Note.t :=
  Note.mk (Note.id n) (Note.content n) (Note.createdAt n) (Note.updatedAt n)
    false false (Note.tags n) (Note.folderId n).

(* ================================================================== *)
(** * A sample of the parser *)

Example json_demo :
  Blob.JSON_parse
    (js "[{" ++ quoted "id" ++ js ":" ++ quoted "aA" ++ js ","
       ++ quoted "updatedAt" ++ js ":-1.5e3," ++ quoted "tags" ++ js ":[ ],"
       ++ quoted "f" ++ js ":null}, true ]")
  = Some (Blob.JArray
            [Blob.JObject
               [(js "id", Blob.JString (js "aA"));
                (js "updatedAt", Blob.JNumber (js "-1.5e3"));
                (js "tags", Blob.JArray []);
                (js "f", Blob.JNull)];
             Blob.JBool true]).
Proof. vm_compute. reflexivity. Qed.

(* ================================================================== *)
(** * Strings and arrays: basic facts *)

Lemma streq_true (a b : jsstring) : streq a b = true <-> a = b.
Proof.
  unfold streq. destruct (jsstring_dec a b); split; congruence.
Qed.

Lemma streq_false (a b : jsstring) : streq a b = false <-> a <> b.
Proof.
  unfold streq. destruct (jsstring_dec a b); split; congruence.
Qed.

Lemma streq_refl (a : jsstring) : streq a a = true.
Proof. now apply streq_true. Qed.

Lemma nullable_streq_true (a b : option jsstring) :
  nullable_streq a b = true <-> a = b.
Proof.
  destruct a, b; simpl; rewrite ?streq_true; split; congruence.
Qed.

Lemma nullable_streq_false (a b : option jsstring) :
  nullable_streq a b = false <-> a <> b.
Proof.
  rewrite <- nullable_streq_true. destruct (nullable_streq a b); split; congruence.
Qed.

Lemma includes_In (x : jsstring) (l : list jsstring) :
  includes x l = true <-> In x l.
Proof.
  unfold includes. rewrite existsb_exists. split.
  - intros [y [Hy E]]. apply streq_true in E. now subst.
  - intro H. exists x. split; [assumption | apply streq_refl].
Qed.

Section ArrayFacts.
Variable A : Type.
Implicit Types (l : list A) (p : A -> bool) (f : A -> A).

Lemma findIndex_None p l :
  findIndex p l = None <-> forall x, In x l -> p x = false.
Proof.
  induction l as [|y r IH]; simpl.
  - split; [intros _ x [] | reflexivity].
  - destruct (p y) eqn:Hy.
    + split; [discriminate|]. intro H. rewrite (H y) in Hy; auto. discriminate.
    + destruct (findIndex p r); simpl.
      * split; [discriminate|]. intro H.
        assert (E : Some n = None) by (apply IH; intros x Hx; apply H; now right).
        discriminate.
      * split; [|reflexivity]. intros _ x [->|Hx]; [assumption|].
        now apply IH.
Qed.

Lemma findIndex_Some p l i :
  findIndex p l = Some i ->
  exists x, nth_error l i = Some x /\ p x = true.
Proof.
  revert i. induction l as [|y r IH]; simpl; intros i H; [discriminate|].
  destruct (p y) eqn:Hy.
  - injection H as <-. exists y. now split.
  - destruct (findIndex p r) as [j|]; [|discriminate].
    injection H as <-. destruct (IH j eq_refl) as [x Hx]. now exists x.
Qed.

(** The index found is the first one that satisfies the test. *)
Lemma findIndex_first p l i j x :
  findIndex p l = Some i -> (j < i)%nat -> nth_error l j = Some x ->
  p x = false.
Proof.
  revert i j. induction l as [|y r IH]; simpl; intros i j H Hj Hx;
    [discriminate|].
  destruct (p y) eqn:Hy.
  - injection H as <-. lia.
  - destruct (findIndex p r) as [k|]; [|discriminate].
    injection H as <-. destruct j as [|j]; simpl in Hx.
    + now injection Hx as <-.
    + apply (IH k j); [reflexivity | lia | assumption].
Qed.

Lemma updateAt_length i f l : length (updateAt i f l) = length l.
Proof.
  revert i. induction l as [|y r IH]; intros [|i]; simpl; auto.
Qed.

Lemma updateAt_same i f l :
  nth_error (updateAt i f l) i = option_map f (nth_error l i).
Proof.
  revert i. induction l as [|y r IH]; intros [|i]; simpl; auto.
Qed.

Lemma updateAt_other i j f l :
  i <> j -> nth_error (updateAt i f l) j = nth_error l j.
Proof.
  revert i j. induction l as [|y r IH]; intros [|i] [|j] H; simpl; auto;
    try congruence.
Qed.

Lemma updateAt_id i f l :
  (forall x, nth_error l i = Some x -> f x = x) -> updateAt i f l = l.
Proof.
  revert i. induction l as [|y r IH]; intros [|i] H; simpl; auto.
  - now rewrite (H y).
  - f_equal. apply IH. exact H.
Qed.

Lemma updateAt_twice i f g l :
  updateAt i g (updateAt i f l) = updateAt i (fun x => g (f x)) l.
Proof.
  revert i. induction l as [|y r IH]; intros [|i]; simpl; auto.
  now rewrite IH.
Qed.

(** A property of the elements survives an assignment through an index
    when the new element has it. *)
Lemma updateAt_Forall (P : A -> Prop) i f l :
  Forall P l ->
  (forall x, nth_error l i = Some x -> P x -> P (f x)) ->
  Forall P (updateAt i f l).
Proof.
  intro H. revert i. induction H as [|y r Hy Hr IH]; intros [|i] Hf; simpl;
    constructor; auto.
Qed.
End ArrayFacts.

(* ================================================================== *)
(** * Properties of the records that every call keeps

    When a property of a note is kept by each of the record updates of the
    service, every call keeps it for all stored notes. Pinning is set apart:
    its update has to keep the property for the note it is applied to. *)

Section NoteInvariant.
Variable P : Note.t -> Prop.

Hypothesis P_create :
  forall id content t1 t2 folderId,
    P (Note.mk id content t1 t2 false false (extractTags content) folderId).
Hypothesis P_content :
  forall n content t,
    P n ->
    P (Note.mk (Note.id n) content (Note.createdAt n) t (Note.isPinned n)
         (Note.isTrashed n) (extractTags content) (Note.folderId n)).
Hypothesis P_folder : forall n f, P n -> P (setFolderId f n).
Hypothesis P_trash : forall n, P n -> P (setPinned false (setTrashed true n)).
Hypothesis P_restore : forall n, P n -> P (setTrashed false n).

Lemma mapTagged_Forall tag edit now k l :
  Forall P l -> Forall P (mapTagged tag edit now k l).
Proof.
  intro H. revert k. induction H as [|n r Hn Hr IH]; intro k; simpl.
  - constructor.
  - destruct (includes tag (Note.tags n)); constructor; auto.
    unfold retagged. now apply P_content.
Qed.

Lemma updatedNote_P content folderId t n :
  P n -> P (updatedNote content folderId t n).
Proof.
  intro H. unfold updatedNote. destruct folderId as [|f].
  - now apply P_content.
  - apply (P_folder f) in H. apply (P_content content t) in H.
    exact H.
Qed.

Lemma step_allNotes op st :
  allNotes P st -> stepKeeps P op st -> allNotes P (step op st).
Proof.
  unfold allNotes. intros H Hop.
  destruct op; simpl in *; unfold updateNote, togglePin, moveToTrash,
    restoreFromTrash, deletePermanently, renameTag, deleteTag, updateFolder,
    deleteFolder, getNotesFromStorage, getFoldersFromStorage; simpl.
  - exact H.
  - constructor; [apply P_create | exact H].
  - destruct (findIndex (hasId id) (notes st)); simpl; [|exact H].
    apply updateAt_Forall; [exact H|]. intros x _. apply updatedNote_P.
  - destruct (findIndex (hasId id) (notes st)) as [i|] eqn:E; simpl;
      [|exact H].
    apply updateAt_Forall; [exact H|]. intros x Hx Px. now apply (Hop i).
  - destruct (findIndex (hasId id) (notes st)); simpl; [|exact H].
    apply updateAt_Forall; [exact H|]. intros x _. apply P_trash.
  - destruct (findIndex (hasId id) (notes st)); simpl; [|exact H].
    apply updateAt_Forall; [exact H|]. intros x _. apply P_restore.
  - rewrite Forall_forall in *. intros x Hx. apply filter_In in Hx.
    now apply H.
  - destruct (anyTagged oldTag (notes st)); simpl; [|exact H].
    now apply mapTagged_Forall.
  - destruct (anyTagged tag (notes st)); simpl; [|exact H].
    now apply mapTagged_Forall.
  - exact H.
  - destruct (findIndex (folderHasId id) (folders st)); simpl; exact H.
  - destruct (existsb _ (notes st)); simpl; [|exact H].
    rewrite Forall_forall in *. intros x Hx. apply in_map_iff in Hx.
    destruct Hx as [n [<- Hn]]. unfold detachNote.
    destruct (nullable_streq _ _); auto.
Qed.

Lemma run_allNotes ops st :
  allNotes P st -> runKeeps P ops st -> allNotes P (run ops st).
Proof.
  revert st. induction ops as [|op r IH]; simpl; intros st H Hr.
  - exact H.
  - destruct Hr as [Hop Hr]. apply IH; [|exact Hr].
    now apply step_allNotes.
Qed.
End NoteInvariant.

Lemma findIndex_updateAt (A : Type) (p : A -> bool) (f : A -> A) i l :
  (forall x, p (f x) = p x) ->
  findIndex p (updateAt i f l) = findIndex p l.
Proof.
  intro Hf. revert i. induction l as [|y r IH]; intros [|i]; simpl; auto.
  - now rewrite Hf.
  - now rewrite IH.
Qed.

(* ================================================================== *)
(** * Trash and pins *)

Lemma offered_stepKeeps op st :
  offered op st = true -> stepKeeps unpinnedIfTrashed op st.
Proof.
  destruct op; simpl; auto.
  unfold pinsLiveNote, pinKeeps. intros H i n Hi Hn _.
  rewrite Hi, Hn in H. unfold unpinnedIfTrashed; simpl.
  destruct (Note.isTrashed n); simpl in *; congruence.
Qed.

Lemma offeredRun_runKeeps ops st :
  offeredRun ops st = true -> runKeeps unpinnedIfTrashed ops st.
Proof.
  revert st. induction ops as [|op r IH]; simpl; intros st H; [exact I|].
  apply andb_true_iff in H. destruct H as [H1 H2]. split.
  - now apply offered_stepKeeps.
  - now apply IH.
Qed.

Lemma step_trashNeverPinned op st :
  offered op st = true ->
  trashNeverPinned st -> trashNeverPinned (step op st).
Proof.
  intros Hop H. unfold trashNeverPinned.
  apply step_allNotes; try assumption; try (now apply offered_stepKeeps);
    unfold unpinnedIfTrashed; simpl; intros; auto; discriminate.
Qed.

Lemma moveToTrash_found id st i n :
  findIndex (hasId id) (notes st) = Some i ->
  nth_error (notes st) i = Some n ->
  nth_error (notes (moveToTrash id st)) i
  = Some (setPinned false (setTrashed true n)).
Proof.
  intros Hi Hn. unfold moveToTrash, getNotesFromStorage. rewrite Hi. simpl.
  now rewrite updateAt_same, Hn.
Qed.

Lemma moveToTrash_idempotent id st :
  notes (moveToTrash id (moveToTrash id st)) = notes (moveToTrash id st)
  /\ folders (moveToTrash id (moveToTrash id st)) = folders (moveToTrash id st).
Proof.
  assert (E : forall s i,
             findIndex (hasId id) (notes s) = Some i ->
             moveToTrash id s
             = saveNotesToStorage
                 (updateAt i (fun n => setPinned false (setTrashed true n))
                    (notes s)) s).
  { intros s i Hi. unfold moveToTrash, getNotesFromStorage. now rewrite Hi. }
  destruct (findIndex (hasId id) (notes st)) as [i|] eqn:Hi.
  - rewrite (E st i Hi). rewrite (E _ i).
    + simpl. split; [|reflexivity]. rewrite updateAt_twice. reflexivity.
    + simpl. now rewrite findIndex_updateAt.
  - assert (N : moveToTrash id st = st).
    { unfold moveToTrash, getNotesFromStorage. now rewrite Hi. }
    rewrite !N. now split.
Qed.

(** C1, as amended: [moveToTrash] leaves the note it finds trashed and
    unpinned, whatever it was before, and a second call changes nothing
    more; every call other than [togglePin] keeps "a trashed note is not
    pinned" for all stored notes, and so does [togglePin] when the note it
    flips is not in the trash; hence the property holds after every run
    from the empty store in which [togglePin] is never applied to a
    trashed note. *)
Theorem trashed_notes_stay_unpinned :
  (forall id st i n,
      findIndex (hasId id) (notes st) = Some i ->
      nth_error (notes st) i = Some n ->
      exists n',
        nth_error (notes (moveToTrash id st)) i = Some n'
        /\ Note.isTrashed n' = true /\ Note.isPinned n' = false
        /\ n' = setPinned false (setTrashed true n))
  /\ (forall id st,
         notes (moveToTrash id (moveToTrash id st)) = notes (moveToTrash id st)
         /\ folders (moveToTrash id (moveToTrash id st))
            = folders (moveToTrash id st))
  /\ (forall op st,
         offered op st = true ->
         trashNeverPinned st -> trashNeverPinned (step op st))
  /\ (forall ops,
         offeredRun ops emptyStore = true ->
         trashNeverPinned (run ops emptyStore)).
Proof.
  split; [|split; [|split]].
  - intros id st i n Hi Hn. exists (setPinned false (setTrashed true n)).
    split; [now apply moveToTrash_found|]. now repeat split.
  - apply moveToTrash_idempotent.
  - intros op st. apply step_trashNeverPinned.
  - intros ops H. unfold trashNeverPinned.
    apply run_allNotes; try (now apply offeredRun_runKeeps);
      try (now constructor);
      unfold unpinnedIfTrashed; simpl; intros; auto; discriminate.
Qed.

Lemma trashed_notes_stay_unpinned_witness :
  offeredRun pinTrashRun emptyStore = true
  /\ trashNeverPinned (run pinTrashRun emptyStore).
Proof.
  split.
  - vm_compute. reflexivity.
  - apply (proj2 (proj2 (proj2 trashed_notes_stay_unpinned))).
    vm_compute. reflexivity.
Defined.

(** C1, as stated, fails: [togglePin] flips [isPinned] without looking at
    [isTrashed], so a run can leave a note both trashed and pinned. *)
Lemma trashed_note_pinned_counterexample :
  ~ (forall ops, trashNeverPinned (run ops emptyStore)).
Proof.
  intro H.
  specialize (H [ CreateNote (js "n1") tick (js "x") None;
                  MoveToTrash (js "n1");
                  TogglePin (js "n1") ]).
  unfold trashNeverPinned, allNotes in H. vm_compute in H.
  inversion H as [|n r Hn Hr]; subst.
  specialize (Hn eq_refl). discriminate.
Qed.

(* ================================================================== *)
(** * Updating a note *)

(** C4: [updateNote] on the id of a stored note. Without the [folderId]
    argument the note keeps its folder, with [null] it loses it, with a
    string it gets that folder; in each case the content is replaced, the
    tags are extracted from the new content and [updatedAt] is the time of
    the call. The updated record is returned and stored in place; nothing
    else changes. *)
Theorem updateNote_three_folder_shapes st id content now i old :
  findIndex (hasId id) (notes st) = Some i ->
  nth_error (notes st) i = Some old ->
  let updated f :=
    Note.mk (Note.id old) content (Note.createdAt old) (now 0%nat)
      (Note.isPinned old) (Note.isTrashed old) (extractTags content) f in
  fst (updateNote id content Omitted now st) = Some (updated (Note.folderId old))
  /\ fst (updateNote id content (Given None) now st) = Some (updated None)
  /\ (forall F1, fst (updateNote id content (Given (Some F1)) now st)
                 = Some (updated (Some F1)))
  /\ (forall arg,
        let st' := snd (updateNote id content arg now st) in
        nth_error (notes st') i = fst (updateNote id content arg now st)
        /\ (forall j, j <> i -> nth_error (notes st') j = nth_error (notes st) j)
        /\ length (notes st') = length (notes st)
        /\ folders st' = folders st).
Proof.
  intros Hi Hold updated.
  assert (E : forall arg,
             updateNote id content arg now st
             = (Some (updatedNote content arg (now 0%nat) old),
                saveNotesToStorage
                  (updateAt i (updatedNote content arg (now 0%nat)) (notes st))
                  st)).
  { intro arg. unfold updateNote, getNotesFromStorage. rewrite Hi.
    now rewrite updateAt_same, Hold. }
  split; [|split; [|split]].
  - now rewrite E.
  - now rewrite E.
  - intro F1. now rewrite E.
  - intro arg. rewrite E. simpl. split; [|split; [|split]].
    + now rewrite updateAt_same, Hold.
    + intros j Hj. apply updateAt_other. congruence.
    + apply updateAt_length.
    + reflexivity.
Qed.

Lemma updateNote_three_folder_shapes_witness :
  fst (updateNote (js "b") (js "moved #two") Omitted tick shelf)
  = Some (Note.mk (js "b") (js "moved #two") 11 (tick 0%nat) false false
            (extractTags (js "moved #two")) (Some (js "F0"))).
Proof.
  apply (@updateNote_three_folder_shapes shelf (js "b") (js "moved #two") tick
           1%nat
           (Note.mk (js "b") (js "second") 11 21 false false []
              (Some (js "F0")))).
  - vm_compute. reflexivity.
  - reflexivity.
Defined.

(* ================================================================== *)
(** * Calls with an id that is not stored *)

Lemma existsb_false (A : Type) (p : A -> bool) (l : list A) :
  existsb p l = false <-> forall x, In x l -> p x = false.
Proof.
  induction l as [|y r IH]; simpl.
  - split; [intros _ x [] | reflexivity].
  - rewrite orb_false_iff, IH. split.
    + intros [Hy Hr] x [<-|Hx]; auto.
    + intro H. split; [apply H; now left | intros x Hx; apply H; now right].
Qed.

Lemma findIndex_absent (A : Type) (p : A -> bool) (l : list A) :
  existsb p l = false -> findIndex p l = None.
Proof.
  intro H. apply findIndex_None. now apply existsb_false.
Qed.

Lemma filter_all (A : Type) (p : A -> bool) (l : list A) :
  (forall x, In x l -> p x = true) -> filter p l = l.
Proof.
  induction l as [|y r IH]; simpl; intro H; [reflexivity|].
  rewrite (H y) by now left. f_equal. apply IH. intros x Hx. apply H.
  now right.
Qed.

Lemma map_same (A : Type) (f : A -> A) (l : list A) :
  (forall x, In x l -> f x = x) -> map f l = l.
Proof.
  induction l as [|y r IH]; simpl; intro H; [reflexivity|].
  rewrite (H y) by now left. f_equal. apply IH. intros x Hx. apply H.
  now right.
Qed.

Lemma deleteFolder_notes id st :
  notes (deleteFolder id st) = map (detachNote id) (notes st).
Proof.
  unfold deleteFolder, getNotesFromStorage, getFoldersFromStorage. simpl.
  destruct (existsb _ (notes st)) eqn:E; simpl; [reflexivity|].
  symmetry. apply map_same. intros n Hn. unfold detachNote.
  rewrite existsb_false in E. now rewrite (E n Hn).
Qed.

Lemma deleteFolder_folders id st :
  folders (deleteFolder id st)
  = filter (fun f => negb (folderHasId id f))
      (map (promoteFolder id) (folders st)).
Proof.
  unfold deleteFolder, getNotesFromStorage, getFoldersFromStorage. simpl.
  reflexivity.
Qed.

Lemma promoteFolder_id id f : Folder.id (promoteFolder id f) = Folder.id f.
Proof. unfold promoteFolder. now destruct (nullable_streq _ _). Qed.

(** C7, as amended: a call of [updateNote], [togglePin], [moveToTrash],
    [restoreFromTrash] or [deletePermanently] with an id that no stored note
    has, and a call of [updateFolder] with an id that no stored folder has,
    leaves both collections as they are, record for record; the first two
    return [null]. [deleteFolder] with an id that no stored folder has
    removes no folder, but it still detaches the notes and promotes the
    folders that point to that id; when nothing points to it, both
    collections are as before. *)
Theorem absent_id_changes_nothing st id :
  (noteExists id st = false ->
     (forall content arg now, updateNote id content arg now st = (None, st))
     /\ togglePin id st = (None, st)
     /\ moveToTrash id st = st
     /\ restoreFromTrash id st = st
     /\ notes (deletePermanently id st) = notes st
     /\ folders (deletePermanently id st) = folders st)
  /\ (folderExists id st = false ->
        (forall name, updateFolder id name st = st)
        /\ notes (deleteFolder id st) = map (detachNote id) (notes st)
        /\ folders (deleteFolder id st) = map (promoteFolder id) (folders st)
        /\ (referenced id st = false ->
              notes (deleteFolder id st) = notes st
              /\ folders (deleteFolder id st) = folders st)).
Proof.
  split.
  - intro H. pose proof (findIndex_absent _ _ H) as E.
    unfold updateNote, togglePin, moveToTrash, restoreFromTrash,
      deletePermanently, getNotesFromStorage. rewrite E. simpl.
    repeat split.
    apply filter_all. intros n Hn. unfold noteExists in H.
    rewrite existsb_false in H. now rewrite (H n Hn).
  - intro H. pose proof (findIndex_absent _ _ H) as E.
    assert (F : folders (deleteFolder id st)
                = map (promoteFolder id) (folders st)).
    { rewrite deleteFolder_folders. apply filter_all. intros f Hf.
      apply in_map_iff in Hf. destruct Hf as [g [<- Hg]].
      unfold folderExists in H. rewrite existsb_false in H.
      unfold folderHasId in *. rewrite promoteFolder_id. now rewrite (H g Hg). }
    split; [|split; [|split]].
    + intro name. unfold updateFolder, getFoldersFromStorage. now rewrite E.
    + apply deleteFolder_notes.
    + exact F.
    + intro R. unfold referenced in R. apply orb_false_iff in R.
      destruct R as [Rn Rf]. rewrite existsb_false in Rn, Rf. split.
      * rewrite deleteFolder_notes. apply map_same. intros n Hn.
        unfold detachNote. now rewrite (Rn n Hn).
      * rewrite F. apply map_same. intros f Hf.
        unfold promoteFolder. now rewrite (Rf f Hf).
Qed.

Lemma absent_id_changes_nothing_witness :
  moveToTrash (js "zz") shelf = shelf
  /\ notes (deleteFolder (js "zz") shelf) = notes shelf
  /\ folders (deleteFolder (js "zz") shelf) = folders shelf.
Proof.
  destruct (absent_id_changes_nothing shelf (js "zz")) as [Hn Hf].
  split.
  - apply Hn. vm_compute. reflexivity.
  - apply Hf; vm_compute; reflexivity.
Defined.

(** C7, as stated, fails for [deleteFolder]: a note may name a folder that
    was never stored ([createNote] takes any [folderId]), and
    [deleteFolder] with that id rewrites the note. *)
Lemma absent_folder_id_counterexample :
  ~ (forall st id,
        reachable st -> folderExists id st = false ->
        notes (deleteFolder id st) = notes st).
Proof.
  intro H.
  specialize (H (run [CreateNote (js "n1") tick (js "x") (Some (js "F9"))]
                   emptyStore) (js "F9")).
  assert (R : reachable
                (run [CreateNote (js "n1") tick (js "x") (Some (js "F9"))]
                   emptyStore)) by (eexists; reflexivity).
  specialize (H R eq_refl). vm_compute in H. discriminate.
Qed.

(* ================================================================== *)
(** * Deleting a folder *)

Lemma detachNote_folderId id n :
  Note.folderId (detachNote id n) <> Some id.
Proof.
  unfold detachNote.
  destruct (nullable_streq (Note.folderId n) (Some id)) eqn:E; simpl.
  - discriminate.
  - now apply nullable_streq_false.
Qed.

Lemma detachNote_elsewhere id n :
  Note.folderId n <> Some id -> detachNote id n = n.
Proof.
  intro H. unfold detachNote. apply nullable_streq_false in H. now rewrite H.
Qed.

Lemma detachNote_inside id n :
  Note.folderId n = Some id -> detachNote id n = setFolderId None n.
Proof.
  intro H. unfold detachNote. apply nullable_streq_true in H. now rewrite H.
Qed.

Lemma promoteFolder_parentId id f :
  Folder.parentId (promoteFolder id f) <> Some id.
Proof.
  unfold promoteFolder.
  destruct (nullable_streq (Folder.parentId f) (Some id)) eqn:E; simpl.
  - discriminate.
  - now apply nullable_streq_false.
Qed.

Lemma In_deleteFolder_folders id st g :
  In g (folders (deleteFolder id st)) <->
  Folder.id g <> id /\ exists f, In f (folders st) /\ g = promoteFolder id f.
Proof.
  rewrite deleteFolder_folders, filter_In, in_map_iff, negb_true_iff.
  unfold folderHasId. rewrite streq_false. split.
  - intros [[f [<- Hf]] Hid]. split; [assumption|]. now exists f.
  - intros [Hid [f [Hf ->]]]. split; [|assumption]. now exists f.
Qed.

(** C3: [deleteFolder id] writes the folders after the notes, if it writes
    the notes at all. After it no note has [folderId] equal to [id], and
    the notes are otherwise as before, in the same order: a note that was
    in the folder is now at the root, any other note, such as a note in a
    child folder, is unchanged. No folder has [parentId] equal to [id] and
    no folder has the id [id]; every other folder is still stored, a child
    of the deleted folder with [parentId] null and the rest unchanged. *)
Theorem deleteFolder_cascades st id :
  let st' := deleteFolder id st in
  (writes st' = STORAGE_KEY_FOLDERS :: writes st
   \/ writes st' = STORAGE_KEY_FOLDERS :: STORAGE_KEY_NOTES :: writes st)
  /\ (forall n, In n (notes st') -> Note.folderId n <> Some id)
  /\ notes st' = map (detachNote id) (notes st)
  /\ (forall n, In n (notes st) -> Note.folderId n = Some id ->
                detachNote id n = setFolderId None n
                /\ In (setFolderId None n) (notes st'))
  /\ (forall n, In n (notes st) -> Note.folderId n <> Some id ->
                detachNote id n = n /\ In n (notes st'))
  /\ (forall f, In f (folders st') ->
                Folder.parentId f <> Some id /\ Folder.id f <> id)
  /\ (forall c, In c (folders st) -> Folder.id c <> id ->
                Folder.parentId c = Some id ->
                In (setParentId None c) (folders st'))
  /\ (forall c, In c (folders st) -> Folder.id c <> id ->
                Folder.parentId c <> Some id -> In c (folders st'))
  /\ (forall n c, In n (notes st) -> In c (folders st) ->
                  Folder.parentId c = Some id -> Folder.id c <> id ->
                  Note.folderId n = Some (Folder.id c) -> In n (notes st')).
Proof.
  intro st'. subst st'.
  assert (Hin : forall n, In n (notes st) ->
                  In (detachNote id n) (notes (deleteFolder id st))).
  { intros n Hn. rewrite deleteFolder_notes. now apply in_map. }
  split.
  { unfold deleteFolder, getNotesFromStorage, getFoldersFromStorage.
    destruct (existsb _ (notes st)); simpl; [now right | now left]. }
  split; [|split; [|split; [|split; [|split; [|split; [|split]]]]]].
  - intros n Hn. rewrite deleteFolder_notes in Hn. apply in_map_iff in Hn.
    destruct Hn as [m [<- _]]. apply detachNote_folderId.
  - apply deleteFolder_notes.
  - intros n Hn Hf. split; [now apply detachNote_inside|].
    rewrite <- (detachNote_inside _ Hf). now apply Hin.
  - intros n Hn Hf. split; [now apply detachNote_elsewhere|].
    rewrite <- (detachNote_elsewhere _ Hf) at 1. now apply Hin.
  - intros f Hf. apply In_deleteFolder_folders in Hf.
    destruct Hf as [Hid [g [_ ->]]]. split; [apply promoteFolder_parentId|].
    assumption.
  - intros c Hc Hid Hp. apply In_deleteFolder_folders. split; [assumption|].
    exists c. split; [assumption|]. unfold promoteFolder.
    apply nullable_streq_true in Hp. now rewrite Hp.
  - intros c Hc Hid Hp. apply In_deleteFolder_folders. split; [assumption|].
    exists c. split; [assumption|]. unfold promoteFolder.
    apply nullable_streq_false in Hp. now rewrite Hp.
  - intros n c Hn Hc Hp Hid Hf.
    rewrite <- (@detachNote_elsewhere id n) at 1.
    + now apply Hin.
    + rewrite Hf. congruence.
Qed.

Example deleteFolder_tree :
  notes (deleteFolder (js "F") tree)
  = [ Note.mk (js "n1") (js "in F") 1 1 false false [] None;
      Note.mk (js "n2") (js "in child") 2 2 false false [] (Some (js "C"));
      Note.mk (js "n3") (js "at root") 3 3 false false [] None ]
  /\ folders (deleteFolder (js "F") tree)
     = [ Folder.mk (js "C") (js "drafts") None 0 ].
Proof. vm_compute. split; reflexivity. Qed.

Lemma deleteFolder_cascades_witness :
  In (setParentId None (Folder.mk (js "C") (js "drafts") (Some (js "F")) 0))
    (folders (deleteFolder (js "F") tree)).
Proof.
  destruct (deleteFolder_cascades tree (js "F"))
    as (_ & _ & _ & _ & _ & _ & Hchild & _).
  apply Hchild.
  - right. left. reflexivity.
  - discriminate.
  - reflexivity.
Defined.

(* ================================================================== *)
(** * Listing the notes *)

Section SortByUpdatedAt.
Local Abbreviation ins := (insertSorted byUpdatedAtDesc).
Local Abbreviation srt := (sort byUpdatedAtDesc).

Lemma insertSorted_perm x l : Permutation (ins x l) (x :: l).
Proof.
  induction l as [|y r IH]; simpl; [reflexivity|].
  destruct (byUpdatedAtDesc x y <=? 0)%Z; [reflexivity|].
  rewrite IH. apply perm_swap.
Qed.

Lemma sort_perm l : Permutation (srt l) l.
Proof.
  induction l as [|x r IH]; simpl; [reflexivity|].
  unfold srt in *. simpl. fold ins. rewrite insertSorted_perm. now constructor.
Qed.

Lemma insertSorted_sorted x l :
  StronglySorted newerOrSame l -> StronglySorted newerOrSame (ins x l).
Proof.
  induction 1 as [|y r Hr IH Hy]; simpl.
  - repeat constructor.
  - unfold byUpdatedAtDesc at 1.
    destruct (Note.updatedAt y - Note.updatedAt x <=? 0)%Z eqn:E.
    + apply Z.leb_le in E. constructor; [now constructor|].
      constructor; [unfold newerOrSame; lia|].
      eapply Forall_impl; [|exact Hy]. unfold newerOrSame. intros; lia.
    + apply Z.leb_gt in E. constructor; [exact IH|].
      apply (Permutation_Forall (Permutation_sym (insertSorted_perm x r))).
      constructor; [unfold newerOrSame; lia | exact Hy].
Qed.

Lemma sort_sorted l : StronglySorted newerOrSame (srt l).
Proof.
  induction l as [|x r IH]; simpl; [constructor|].
  now apply insertSorted_sorted.
Qed.

(** Insertion puts the new element in front of the elements of its own
    time stamp. *)
Lemma insertSorted_stable t x l :
  filter (updatedAtIs t) (ins x l) = filter (updatedAtIs t) (x :: l).
Proof.
  induction l as [|y r IH]; [reflexivity|].
  change (ins x (y :: r))
    with (if (byUpdatedAtDesc x y <=? 0)%Z then x :: y :: r else y :: ins x r).
  destruct (byUpdatedAtDesc x y <=? 0)%Z eqn:E; [reflexivity|].
  apply Z.leb_gt in E. unfold byUpdatedAtDesc in E.
  change (filter (updatedAtIs t) (y :: ins x r))
    with (if updatedAtIs t y then y :: filter (updatedAtIs t) (ins x r)
          else filter (updatedAtIs t) (ins x r)).
  rewrite IH. simpl. unfold updatedAtIs.
  destruct (Note.updatedAt x =? t)%Z eqn:Ex;
    destruct (Note.updatedAt y =? t)%Z eqn:Ey; try reflexivity.
  apply Z.eqb_eq in Ex, Ey. lia.
Qed.

Lemma sort_stable t l :
  filter (updatedAtIs t) (srt l) = filter (updatedAtIs t) l.
Proof.
  induction l as [|x r IH]; [reflexivity|].
  change (srt (x :: r)) with (ins x (srt r)).
  rewrite insertSorted_stable. simpl. now rewrite IH.
Qed.

(** An element that is at least as new as all others comes out first. *)
Lemma sort_newest_first x l :
  (forall y, In y l -> (Note.updatedAt y <= Note.updatedAt x)%Z) ->
  exists rest, srt (x :: l) = x :: rest.
Proof.
  intro H. change (srt (x :: l)) with (ins x (srt l)).
  destruct (srt l) as [|y r] eqn:E; simpl; [now exists []|].
  assert (Hy : In y l).
  { apply (Permutation_in y (sort_perm l)). fold srt in E. rewrite E.
    now left. }
  apply H in Hy. unfold byUpdatedAtDesc at 1.
  destruct (Note.updatedAt y - Note.updatedAt x <=? 0)%Z eqn:F.
  - now exists (y :: r).
  - apply Z.leb_gt in F. lia.
Qed.
End SortByUpdatedAt.

(** The description of the listing leaves no choice: a list in descending
    order that keeps, for every time stamp, the stored notes of that time
    stamp in their order is the listing. *)
Lemma sorted_stable_unique l1 l2 :
  StronglySorted newerOrSame l1 -> StronglySorted newerOrSame l2 ->
  (forall t, filter (updatedAtIs t) l1 = filter (updatedAtIs t) l2) ->
  l1 = l2.
Proof.
  intro S1. revert l2.
  induction S1 as [|x r1 S1 IH F1]; intros l2 S2 H.
  - destruct l2 as [|y r2]; [reflexivity|].
    specialize (H (Note.updatedAt y)). simpl in H. unfold updatedAtIs in H.
    rewrite Z.eqb_refl in H. discriminate H.
  - destruct l2 as [|y r2].
    + specialize (H (Note.updatedAt x)). simpl in H. unfold updatedAtIs in H.
      rewrite Z.eqb_refl in H. discriminate H.
    + inversion S2 as [|? ? S2' F2]; subst.
      assert (Hxy : (Note.updatedAt y >= Note.updatedAt x)%Z).
      { assert (I : In x (filter (updatedAtIs (Note.updatedAt x)) (y :: r2))).
        { rewrite <- H. simpl. unfold updatedAtIs at 1. rewrite Z.eqb_refl.
          now left. }
        apply filter_In in I. destruct I as [[<-|I] _]; [lia|].
        rewrite Forall_forall in F2. apply (F2 x I). }
      assert (Hyx : (Note.updatedAt x >= Note.updatedAt y)%Z).
      { assert (I : In y (filter (updatedAtIs (Note.updatedAt y)) (x :: r1))).
        { rewrite H. simpl. unfold updatedAtIs at 1. rewrite Z.eqb_refl.
          now left. }
        apply filter_In in I. destruct I as [[<-|I] _]; [lia|].
        rewrite Forall_forall in F1. apply (F1 y I). }
      assert (E : Note.updatedAt x = Note.updatedAt y) by lia.
      pose proof (H (Note.updatedAt x)) as Hx. simpl in Hx.
      assert (Ex : updatedAtIs (Note.updatedAt x) x = true)
        by apply Z.eqb_refl.
      assert (Ey : updatedAtIs (Note.updatedAt x) y = true)
        by (unfold updatedAtIs; rewrite E; apply Z.eqb_refl).
      rewrite Ex, Ey in Hx. injection Hx as <- Hx. f_equal.
      apply IH; [assumption|].
      intro t. destruct (Z.eqb_spec (Note.updatedAt x) t) as [<-|Ne].
      * exact Hx.
      * specialize (H t). simpl in H.
        assert (Nx : updatedAtIs t x = false) by now apply Z.eqb_neq.
        now rewrite Nx in H.
Qed.


Example getAllNotes_ties :
  map Note.id
    (getAllNotes
       (mkStore
          [ Note.mk (js "a") [] 0 5 false false [] None;
            Note.mk (js "b") [] 0 9 false false [] None;
            Note.mk (js "c") [] 0 5 false false [] None;
            Note.mk (js "d") [] 0 9 false false [] None ] [] []))
  = [js "b"; js "d"; js "a"; js "c"].
Proof. vm_compute. reflexivity. Qed.


(* ================================================================== *)
(** * Facts about the scans *)

Section Runs.
Variable p : N -> bool.

Lemma takeWhile_dropWhile s : takeWhile p s ++ dropWhile p s = s.
Proof.
  induction s as [|c r IH]; simpl; [reflexivity|].
  destruct (p c); simpl; [now rewrite IH | reflexivity].
Qed.

Lemma takeWhile_all s : Forall (fun c => p c = true) (takeWhile p s).
Proof.
  induction s as [|c r IH]; simpl; [constructor|].
  destruct (p c) eqn:E; now constructor.
Qed.

Lemma dropWhile_head s : headIs p (dropWhile p s) = false.
Proof.
  induction s as [|c r IH]; simpl; [reflexivity|].
  destruct (p c) eqn:E; simpl; assumption.
Qed.

Lemma skipn_takeWhile s : skipn (length (takeWhile p s)) s = dropWhile p s.
Proof.
  induction s as [|c r IH]; simpl; [reflexivity|].
  destruct (p c); simpl; [exact IH | reflexivity].
Qed.

Lemma firstn_takeWhile s : firstn (length (takeWhile p s)) s = takeWhile p s.
Proof.
  induction s as [|c r IH]; simpl; [reflexivity|].
  destruct (p c); simpl; [now rewrite IH | reflexivity].
Qed.

(** A run followed by a character outside the class is the longest one. *)
Lemma takeWhile_run w rest :
  Forall (fun c => p c = true) w -> headIs p rest = false ->
  takeWhile p (w ++ rest) = w /\ dropWhile p (w ++ rest) = rest.
Proof.
  intros Hw Hrest. induction Hw as [|c w Hc Hw IH]; simpl.
  - destruct rest as [|d rest]; simpl in *; [now split|].
    now rewrite Hrest.
  - rewrite Hc. destruct IH as [-> ->]. now split.
Qed.
End Runs.

Lemma startsWith_app tag s :
  startsWith tag s = true <-> exists rest, s = tag ++ rest.
Proof.
  revert s. induction tag as [|c tag IH]; intro s; simpl.
  - split; [intros _; now exists s | reflexivity].
  - destruct s as [|d s].
    + split; [discriminate | intros [rest H]; discriminate].
    + rewrite andb_true_iff, N.eqb_eq, IH. split.
      * intros [-> [rest ->]]. now exists rest.
      * intros [rest H]. injection H as -> ->. split; [reflexivity|].
        now exists rest.
Qed.

Lemma skipn_app_exact (tag rest : jsstring) :
  skipn (length tag) (tag ++ rest) = rest.
Proof. induction tag; simpl; auto. Qed.

Lemma firstn_app_exact (tag rest : jsstring) :
  firstn (length tag) (tag ++ rest) = tag.
Proof. induction tag; simpl; [reflexivity | now f_equal]. Qed.

Section ScanFacts.
Variable re : matcher.

Lemma matchAllFrom_skip k s :
  matchAllFrom re k s = matchAll re (skipn k s).
Proof.
  revert k. induction s as [|c r IH]; intros [|k]; try reflexivity.
  simpl. apply IH.
Qed.

(** The scan, told by matches instead of code units. *)
Lemma matchAll_cons c r :
  matchAll re (c :: r)
  = match re (c :: r) with
    | Some len => firstn len (c :: r) :: matchAll re (skipn (pred len) r)
    | None => matchAll re r
    end.
Proof.
  unfold matchAll at 1. simpl. destruct (re (c :: r)); [|reflexivity].
  now rewrite matchAllFrom_skip.
Qed.

Variable subst : jsstring -> jsstring -> jsstring -> jsstring.

Lemma replaceAllFrom_skip before k s :
  replaceAllFrom re subst before k s
  = replaceAllFrom re subst (before ++ firstn k s) 0 (skipn k s).
Proof.
  revert before k. induction s as [|c r IH]; intros before [|k]; simpl;
    rewrite ?app_nil_r; try reflexivity.
  rewrite IH. now rewrite <- app_assoc.
Qed.

Lemma replaceAllFrom_cons before c r :
  replaceAllFrom re subst before 0 (c :: r)
  = match re (c :: r) with
    | Some len =>
        subst before (firstn len (c :: r)) (skipn len (c :: r))
          ++ replaceAllFrom re subst (before ++ c :: firstn (pred len) r) 0
               (skipn (pred len) r)
    | None => c :: replaceAllFrom re subst (before ++ [c]) 0 r
    end.
Proof.
  simpl. destruct (re (c :: r)); [|reflexivity].
  rewrite replaceAllFrom_skip. now rewrite <- app_assoc.
Qed.
End ScanFacts.

Lemma replaceAllFrom_ext re subst1 subst2 before k s :
  (forall b m a, subst1 b m a = subst2 b m a) ->
  replaceAllFrom re subst1 before k s = replaceAllFrom re subst2 before k s.
Proof.
  intro H. revert before k.
  induction s as [|c r IH]; intros before [|k]; simpl; auto.
  destruct (re (c :: r)); rewrite IH; [now rewrite H | reflexivity].
Qed.

(** A replacement that does not look at the match does not need the text
    before it. *)
Lemma replaceAllFrom_const re rep before before' k s :
  replaceAllFrom re (fun _ _ _ => rep) before k s
  = replaceAllFrom re (fun _ _ _ => rep) before' k s.
Proof.
  revert before before' k.
  induction s as [|c r IH]; intros before before' [|k]; simpl; auto.
  destruct (re (c :: r)).
  - f_equal. apply IH.
  - f_equal. apply IH.
Qed.

Lemma getSubstitution_plain rep before matched after :
  dollarFree rep -> getSubstitution rep before matched after = rep.
Proof.
  unfold dollarFree. induction rep as [|c r IH]; simpl; intro H;
    [reflexivity|].
  destruct (c =? DOLLAR)%N eqn:E.
  - apply N.eqb_eq in E. exfalso. apply H. now left.
  - f_equal. apply IH. intro Hin. apply H. now right.
Qed.

(** Replacing by a text without dollar signs, told by matches. *)
Lemma replaceWith_cons re rep c r :
  dollarFree rep ->
  replaceWith re rep (c :: r)
  = match re (c :: r) with
    | Some len => rep ++ replaceWith re rep (skipn (pred len) r)
    | None => c :: replaceWith re rep r
    end.
Proof.
  intro H.
  assert (E : forall before k s,
             replaceAllFrom re (getSubstitution rep) before k s
             = replaceAllFrom re (fun _ _ _ => rep) [] k s).
  { intros before k s.
    rewrite (replaceAllFrom_ext re (getSubstitution rep) (fun _ _ _ => rep))
      by (intros; now apply getSubstitution_plain).
    apply replaceAllFrom_const. }
  unfold replaceWith, replaceAll. rewrite E, replaceAllFrom_cons.
  destruct (re (c :: r)); rewrite E; f_equal; apply replaceAllFrom_const.
Qed.

Lemma replaceWith_nil re rep : replaceWith re rep [] = [].
Proof. reflexivity. Qed.

(* ================================================================== *)
(** * The tags of a content *)

Lemma isTagChar_not_hash c : isTagChar c = true -> (c =? HASH)%N = false.
Proof.
  intro H. destruct (c =? HASH)%N eqn:E; [|reflexivity].
  apply N.eqb_eq in E. subst c. discriminate H.
Qed.

Lemma hashTagRegex_Some s len :
  hashTagRegex s = Some len <->
  exists r, s = HASH :: r /\ takeWhile isTagChar r <> []
            /\ len = S (length (takeWhile isTagChar r)).
Proof.
  unfold hashTagRegex. destruct s as [|c r].
  - split; [discriminate | intros [r [H _]]; discriminate].
  - destruct (c =? HASH)%N eqn:E.
    + apply N.eqb_eq in E. subst c. destruct (takeWhile isTagChar r) eqn:W.
      * split; [discriminate|]. intros [r' [H [Hw _]]]. injection H as <-.
        now rewrite W in Hw.
      * split.
        -- intro H. injection H as <-. exists r. rewrite W.
           split; [reflexivity|]. split; [discriminate | reflexivity].
        -- intros [r' [H [_ ->]]]. injection H as <-. now rewrite W.
    + split; [discriminate|]. intros [r' [H _]]. injection H as -> _.
      discriminate E.
Qed.

Lemma matchAll_tagchars w s :
  Forall (fun c => isTagChar c = true) w ->
  matchAll hashTagRegex (w ++ s) = matchAll hashTagRegex s.
Proof.
  induction 1 as [|c w Hc Hw IH]; simpl; [reflexivity|].
  rewrite matchAll_cons. simpl. now rewrite (isTagChar_not_hash _ Hc).
Qed.

(** Every hash sign is looked at: a match never hides a later one. *)
Lemma matchAll_hashTag_cons c r :
  matchAll hashTagRegex (c :: r)
  = match hashTagRegex (c :: r) with
    | Some len => [firstn len (c :: r)]
    | None => []
    end ++ matchAll hashTagRegex r.
Proof.
  rewrite matchAll_cons. destruct (hashTagRegex (c :: r)) as [len|] eqn:E;
    [|reflexivity].
  apply hashTagRegex_Some in E. destruct E as [r' [H [_ ->]]].
  injection H as -> <-. simpl. f_equal.
  rewrite skipn_takeWhile.
  rewrite <- (takeWhile_dropWhile isTagChar r) at 2.
  symmetry. apply matchAll_tagchars. apply takeWhile_all.
Qed.

Lemma In_matchAll_hashTag m s :
  In m (matchAll hashTagRegex s) <-> exists t, m = HASH :: t /\ TagIn t s.
Proof.
  induction s as [|c r IH].
  - split; [intros []|]. intros [t [_ [pre [post [H _]]]]].
    destruct pre; discriminate H.
  - rewrite matchAll_hashTag_cons, in_app_iff, IH. split.
    + intros [H|[t [-> [pre [post [-> Ht]]]]]].
      * destruct (hashTagRegex (c :: r)) as [len|] eqn:E; [|destruct H].
        destruct H as [<-|[]].
        apply hashTagRegex_Some in E. destruct E as [r' [H [Hw ->]]].
        injection H as -> <-. exists (takeWhile isTagChar r).
        simpl. rewrite firstn_takeWhile. split; [reflexivity|].
        exists [], (dropWhile isTagChar r). simpl.
        rewrite takeWhile_dropWhile. split; [reflexivity|].
        split; [assumption|]. split; [apply takeWhile_all|].
        apply dropWhile_head.
      * exists t. split; [reflexivity|].
        exists (c :: pre), post. now split.
    + intros [t [-> [pre [post [H [Ht [Hall Hpost]]]]]]].
      destruct pre as [|d pre]; simpl in H.
      * left. injection H as -> ->.
        destruct (takeWhile_run isTagChar post Hall Hpost) as [Ew _].
        assert (E : hashTagRegex (HASH :: t ++ post) = Some (S (length t))).
        { apply hashTagRegex_Some. exists (t ++ post). rewrite Ew.
          now repeat split. }
        rewrite E. left. simpl. now rewrite firstn_app_exact.
      * right. injection H as -> ->. exists t. split; [reflexivity|].
        exists pre, post. now split.
Qed.

Lemma In_dedupe x seen l :
  In x (dedupe seen l) <-> In x l /\ ~ In x seen.
Proof.
  revert seen. induction l as [|y r IH]; intro seen; simpl.
  - tauto.
  - destruct (includes y seen) eqn:E.
    + apply includes_In in E. rewrite IH. split.
      * intros [H1 H2]. tauto.
      * intros [[->|H1] H2]; tauto.
    + assert (Hy : ~ In y seen).
      { intro H. apply includes_In in H. congruence. }
      simpl. rewrite IH. simpl. split.
      * intros [->|[H1 H2]]; tauto.
      * intros [[->|H1] H2]; [now left|].
        destruct (jsstring_dec y x) as [->|Hne]; [now left|]. right.
        split; [assumption|]. intros [H|H]; congruence.
Qed.

Lemma NoDup_dedupe seen l : NoDup (dedupe seen l).
Proof.
  revert seen. induction l as [|y r IH]; intro seen; simpl.
  - constructor.
  - destruct (includes y seen); [apply IH|]. constructor; [|apply IH].
    rewrite In_dedupe. intros [_ H]. apply H. now left.
Qed.

(** The extraction returns the tags of the content in the wording above,
    each of them once. *)
Lemma extractTags_spec content :
  NoDup (extractTags content)
  /\ forall t, In t (extractTags content) <-> TagIn t content.
Proof.
  unfold extractTags, fromSet. split; [apply NoDup_dedupe|]. intro t.
  rewrite In_dedupe, in_map_iff. split.
  - intros [[m [<- Hm]] _]. apply In_matchAll_hashTag in Hm.
    destruct Hm as [t [-> Ht]]. exact Ht.
  - intro Ht. split; [|intros []]. exists (HASH :: t).
    split; [reflexivity|]. apply In_matchAll_hashTag. now exists t.
Qed.

Example extractTags_sample :
  extractTags (js "a #idea, #x_1 and #idea again # #, #Idea#2")
  = [js "idea"; js "x_1"; js "Idea"; js "2"]
  /\ extractTags ([HASH; 0x4e2d; 0x6587; SPACE; HASH; 0x3042]%N)
     = [[0x4e2d; 0x6587]%N].
Proof. vm_compute. split; reflexivity. Qed.

Lemma updateAt_map (A B : Type) (g : A -> B) (f : A -> A) i l :
  (forall x, g (f x) = g x) -> map g (updateAt i f l) = map g l.
Proof.
  intro H. revert i. induction l as [|y r IH]; intros [|i]; simpl; auto.
  - now rewrite H.
  - now rewrite IH.
Qed.

Lemma flagsOnly_content op st :
  flagsOnly op = true ->
  map Note.content (notes (step op st)) = map Note.content (notes st)
  /\ map Note.tags (notes (step op st)) = map Note.tags (notes st).
Proof.
  destruct op; try discriminate; intros _; simpl;
    unfold togglePin, moveToTrash, restoreFromTrash, getNotesFromStorage;
    destruct (findIndex (hasId id) (notes st)); simpl;
    split; try reflexivity; now apply updateAt_map.
Qed.

Lemma step_tagsDerived op st :
  allNotes tagsDerived st -> allNotes tagsDerived (step op st).
Proof.
  intro H. apply step_allNotes; try assumption;
    try (unfold tagsDerived; simpl; intros; auto; fail).
  destruct op; simpl; auto. intros i n _ _ Hn. exact Hn.
Qed.

(** C2: in every store reached from the empty one, each note's [tags] are
    the tags extracted from its [content]: every call keeps this for all
    stored notes ([createNote], [updateNote], [renameTag] and [deleteTag]
    extract them anew, no call writes [tags] in another way), and
    [togglePin], [moveToTrash] and [restoreFromTrash] change neither
    contents nor tags. The extracted tags are the strings [t], each once,
    for which [#t] stands in the content with [t] a longest, non-empty run
    of word characters and ideographs. *)
Theorem tags_follow_content :
  (forall ops, allNotes tagsDerived (run ops emptyStore))
  /\ (forall op st,
         allNotes tagsDerived st -> allNotes tagsDerived (step op st))
  /\ (forall op st,
         flagsOnly op = true ->
         map Note.content (notes (step op st)) = map Note.content (notes st)
         /\ map Note.tags (notes (step op st)) = map Note.tags (notes st))
  /\ (forall content,
         NoDup (extractTags content)
         /\ forall t, In t (extractTags content) <-> TagIn t content).
Proof.
  split; [|split; [|split]].
  - intro ops. assert (G : forall st, allNotes tagsDerived st ->
                                      allNotes tagsDerived (run ops st)).
    { induction ops as [|op r IH]; simpl; intros st H; [exact H|].
      apply IH. now apply step_tagsDerived. }
    apply G. constructor.
  - apply step_tagsDerived.
  - apply flagsOnly_content.
  - apply extractTags_spec.
Qed.

Lemma tags_follow_content_witness :
  allNotes tagsDerived
    (step (RenameTag (js "todo") (js "done") tick)
       (run pinTrashRun emptyStore)).
Proof.
  destruct tags_follow_content as (Hrun & Hstep & _).
  apply Hstep. apply Hrun.
Defined.

(* ================================================================== *)
(** * Renaming and deleting a tag *)

Lemma mapTagged_length tag edit now k l :
  length (mapTagged tag edit now k l) = length l.
Proof.
  revert k. induction l as [|n r IH]; intro k; simpl; [reflexivity|].
  destruct (includes tag (Note.tags n)); simpl; now rewrite IH.
Qed.

Lemma mapTagged_nth tag edit now k l i n :
  nth_error l i = Some n ->
  nth_error (mapTagged tag edit now k l) i
  = Some (if includes tag (Note.tags n)
          then retagged edit (now (k + taggedBefore tag i l)%nat) n
          else n).
Proof.
  revert k i. induction l as [|m r IH]; intros k [|i] H; simpl in H;
    try discriminate.
  - injection H as ->. simpl. unfold taggedBefore. simpl.
    destruct (includes tag (Note.tags n)); simpl; [|reflexivity].
    now rewrite Nat.add_0_r.
  - simpl. unfold taggedBefore. simpl.
    destruct (includes tag (Note.tags m)) eqn:E; simpl;
      rewrite (IH _ _ H); unfold taggedBefore; [|reflexivity].
    now rewrite Nat.add_succ_r.
Qed.

Lemma mapTagged_untagged tag edit now k l :
  anyTagged tag l = false -> mapTagged tag edit now k l = l.
Proof.
  unfold anyTagged. revert k.
  induction l as [|n r IH]; intros k H; simpl in *; [reflexivity|].
  apply orb_false_iff in H. destruct H as [-> H]. f_equal. now apply IH.
Qed.

(** What both calls do to the store, whatever the edit of the content. *)
Lemma retag_store tag edit now st st' :
  st' = (if anyTagged tag (notes st)
         then saveNotesToStorage (mapTagged tag edit now 0 (notes st)) st
         else st) ->
  (anyTagged tag (notes st) = false -> st' = st)
  /\ (anyTagged tag (notes st) = true ->
      writes st' = STORAGE_KEY_NOTES :: writes st)
  /\ folders st' = folders st
  /\ length (notes st') = length (notes st)
  /\ (forall i n,
        nth_error (notes st) i = Some n ->
        nth_error (notes st') i
        = Some (if includes tag (Note.tags n)
                then retagged edit (now (taggedBefore tag i (notes st))) n
                else n)).
Proof.
  intros ->. destruct (anyTagged tag (notes st)) eqn:E; simpl.
  - split; [discriminate|]. split; [reflexivity|]. split; [reflexivity|].
    split; [apply mapTagged_length|]. intros i n H.
    now rewrite (mapTagged_nth tag edit now 0 _ _ H).
  - split; [reflexivity|]. split; [discriminate|]. split; [reflexivity|].
    split; [reflexivity|]. intros i n H. rewrite H.
    unfold anyTagged in E. rewrite existsb_false in E.
    apply nth_error_In in H. now rewrite (E n H).
Qed.

Lemma tagTokenRegex_Some tag s len :
  tagTokenRegex tag s = Some len -> len = S (length tag) /\ TokenAt tag s.
Proof.
  unfold tagTokenRegex. destruct s as [|c r]; [discriminate|].
  destruct ((c =? HASH)%N && startsWith tag r
            && negb (headIs isTagChar (skipn (length tag) r))) eqn:E;
    [|discriminate].
  intro H. injection H as <-. split; [reflexivity|].
  apply andb_true_iff in E. destruct E as [E E3].
  apply andb_true_iff in E. destruct E as [E1 E2].
  apply N.eqb_eq in E1. apply startsWith_app in E2. destruct E2 as [rest ->].
  subst c. exists rest. split; [reflexivity|].
  rewrite skipn_app_exact in E3. now apply negb_true_iff in E3.
Qed.

Lemma tagTokenRegex_None tag s :
  tagTokenRegex tag s = None -> ~ TokenAt tag s.
Proof.
  intros H [rest [-> Hrest]]. unfold tagTokenRegex in H.
  rewrite N.eqb_refl, skipn_app_exact, Hrest in H.
  assert (E : startsWith tag (tag ++ rest) = true)
    by (apply startsWith_app; now exists rest).
  rewrite E in H. discriminate H.
Qed.

Lemma replaceWith_Rewritten tag rep s :
  dollarFree rep ->
  Rewritten tag rep s (replaceWith (tagTokenRegex tag) rep s).
Proof.
  intro Hrep.
  assert (G : forall n s, (length s <= n)%nat ->
                Rewritten tag rep s (replaceWith (tagTokenRegex tag) rep s)).
  { clear s. induction n as [|n IH]; intros s Hlen.
    - destruct s; [constructor | simpl in Hlen; lia].
    - destruct s as [|c r]; [constructor|].
      rewrite replaceWith_cons by assumption.
      destruct (tagTokenRegex tag (c :: r)) as [len|] eqn:E.
      + apply tagTokenRegex_Some in E. destruct E as [-> [rest [H Hrest]]].
        injection H as -> ->. simpl. rewrite skipn_app_exact.
        apply Rw_token; [assumption|]. apply IH. simpl in Hlen.
        rewrite length_app in Hlen. lia.
      + apply Rw_keep; [now apply tagTokenRegex_None|].
        apply IH. simpl in Hlen. lia. }
  now apply (G (length s)).
Qed.

Lemma dollarFree_space : dollarFree [SPACE].
Proof. intros [H|[]]. discriminate H. Qed.

Lemma dollarFree_nil : dollarFree [].
Proof. intros []. Qed.

Lemma takeWhile_nil_head p s : takeWhile p s = [] -> headIs p s = false.
Proof.
  destruct s as [|c r]; simpl; [reflexivity|].
  destruct (p c); [discriminate | reflexivity].
Qed.

Lemma whitespaceRun_Some c r len :
  whitespaceRun (c :: r) = Some len ->
  isSpace c = true /\ takeWhile isSpace r <> []
  /\ len = S (length (takeWhile isSpace r)).
Proof.
  unfold whitespaceRun. simpl takeWhile.
  destruct (isSpace c); [|discriminate]. simpl length.
  destruct (takeWhile isSpace r) as [|d w]; [discriminate|].
  intro H. injection H as <-. split; [reflexivity|].
  split; [discriminate | reflexivity].
Qed.

Lemma whitespaceRun_None c r :
  whitespaceRun (c :: r) = None -> isSpace c && headIs isSpace r = false.
Proof.
  unfold whitespaceRun. simpl takeWhile.
  destruct (isSpace c); [|reflexivity]. simpl length.
  destruct (takeWhile isSpace r) as [|d w] eqn:E; [|discriminate].
  intros _. simpl. now apply takeWhile_nil_head.
Qed.

Lemma collapseWhitespace_Collapsed s : Collapsed s (collapseWhitespace s).
Proof.
  unfold collapseWhitespace.
  assert (G : forall n s, (length s <= n)%nat ->
                Collapsed s (replaceWith whitespaceRun [SPACE] s)).
  { clear s. induction n as [|n IH]; intros s Hlen.
    - destruct s; [constructor | simpl in Hlen; lia].
    - destruct s as [|c r]; [constructor|].
      rewrite replaceWith_cons by apply dollarFree_space.
      destruct (whitespaceRun (c :: r)) as [len|] eqn:E.
      + apply whitespaceRun_Some in E. destruct E as [Ec [Ew ->]].
        simpl pred. rewrite skipn_takeWhile.
        rewrite <- (takeWhile_dropWhile isSpace r) at 1.
        change (Collapsed ((c :: takeWhile isSpace r) ++ dropWhile isSpace r)
                  (SPACE :: replaceWith whitespaceRun [SPACE]
                              (dropWhile isSpace r))).
        apply Co_run.
        * destruct (takeWhile isSpace r); [congruence | simpl; lia].
        * constructor; [assumption | apply takeWhile_all].
        * apply dropWhile_head.
        * apply IH. simpl in Hlen.
          pose proof (f_equal (@length N) (takeWhile_dropWhile isSpace r))
            as L.
          rewrite length_app in L. lia.
      + apply Co_keep; [now apply whitespaceRun_None|].
        apply IH. simpl in Hlen. lia. }
  now apply (G (length s)).
Qed.

Lemma Collapsed_head s out :
  Collapsed s out -> headIs isSpace s = false -> headIs isSpace out = false.
Proof.
  destruct 1 as [|ws rest out Hlen Hws Hrest H|c rest out Hc H]; simpl; auto.
  destruct Hws as [|d ws Hd Hws]; simpl in *; [lia | congruence].
Qed.

Lemma Collapsed_no_double s out :
  Collapsed s out -> hasDoubleSpace out = false.
Proof.
  induction 1 as [|ws rest out Hlen Hws Hrest H IH|c rest out Hc H IH]; simpl.
  - reflexivity.
  - rewrite IH, (Collapsed_head H Hrest). reflexivity.
  - rewrite IH, orb_false_r. destruct (isSpace c); simpl in *; [|reflexivity].
    now apply (Collapsed_head H).
Qed.

Lemma Rewritten_functional tag rep s out1 out2 :
  Rewritten tag rep s out1 -> Rewritten tag rep s out2 -> out1 = out2.
Proof.
  intro H. revert out2.
  induction H as [|rest out Hrest H IH|c rest out Hc H IH]; intros out2 H2.
  - inversion H2 as [| |]; reflexivity.
  - inversion H2 as [|rest' out' Hrest' H' E|c' rest' out' Hc' H' E]; subst.
    + apply app_inv_head in E. subst rest'. f_equal. now apply IH.
    + exfalso. apply Hc'. now exists rest.
  - inversion H2 as [|rest' out' Hrest' H' E|c' rest' out' Hc' H' E]; subst.
    + exfalso. apply Hc. now exists rest'.
    + f_equal. now apply IH.
Qed.

Lemma run_starts_run ws rest c rest' :
  (2 <= length ws)%nat -> Forall (fun c => isSpace c = true) ws ->
  ws ++ rest = c :: rest' ->
  isSpace c && headIs isSpace rest' = true.
Proof.
  intros Hlen Hws E. destruct ws as [|a [|b ws]]; simpl in Hlen; try lia.
  simpl in E. injection E as Ea Er. subst c rest'.
  inversion Hws as [|? ? Ha Hws']; subst.
  inversion Hws' as [|? ? Hb _]; subst. simpl. now rewrite Ha, Hb.
Qed.

Lemma Collapsed_functional s out1 out2 :
  Collapsed s out1 -> Collapsed s out2 -> out1 = out2.
Proof.
  intro H. revert out2.
  induction H as [|ws rest out Hlen Hws Hrest H IH|c rest out Hc H IH];
    intros out2 H2.
  - inversion H2 as [|ws' rest' out' Hlen' Hws' Hrest' H' E|]; [reflexivity|].
    destruct ws' as [|d ws']; [simpl in Hlen'; lia | discriminate E].
  - inversion H2 as [E|ws' rest' out' Hlen' Hws' Hrest' H' E
                     |c' rest' out' Hc' H' E].
    + destruct ws; [simpl in Hlen; lia | discriminate E].
    + destruct (takeWhile_run isSpace rest Hws Hrest) as [T D].
      destruct (takeWhile_run isSpace rest' Hws' Hrest') as [T' D'].
      rewrite <- E in T, D. rewrite T' in T. rewrite D' in D. subst.
      f_equal. now apply IH.
    + exfalso. symmetry in E.
      pose proof (run_starts_run _ Hlen Hws E) as K. congruence.
  - inversion H2 as [|ws' rest' out' Hlen' Hws' Hrest' H' E
                     |c' rest' out' Hc' H' E].
    + exfalso. pose proof (run_starts_run _ Hlen' Hws' E) as K. congruence.
    + subst. f_equal. now apply IH.
Qed.

Lemma dollarFree_hash newTag : dollarFree newTag -> dollarFree (HASH :: newTag).
Proof. intros H [E|E]; [discriminate E | now apply H]. Qed.

(** [renameTag] with a new name without dollar signs: the notes that carry
    the old tag get every bounded token [#oldTag] replaced by [#newTag],
    their tags extracted anew and [updatedAt] read from the clock; the other
    notes are the same records; without a carrier nothing is written. *)
Lemma renameTag_plain st oldTag newTag now :
  dollarFree newTag ->
  let st' := renameTag oldTag newTag now st in
  (anyTagged oldTag (notes st) = false -> st' = st)
  /\ (anyTagged oldTag (notes st) = true ->
      writes st' = STORAGE_KEY_NOTES :: writes st)
  /\ folders st' = folders st
  /\ length (notes st') = length (notes st)
  /\ (forall i n,
        nth_error (notes st) i = Some n ->
        (includes oldTag (Note.tags n) = false ->
         nth_error (notes st') i = Some n)
        /\ (includes oldTag (Note.tags n) = true ->
            exists content' k,
              Rewritten oldTag (HASH :: newTag) (Note.content n) content'
              /\ nth_error (notes st') i
                 = Some (Note.mk (Note.id n) content' (Note.createdAt n)
                           (now k) (Note.isPinned n) (Note.isTrashed n)
                           (extractTags content') (Note.folderId n)))).
Proof.
  intros Hnew st'.
  destruct (retag_store oldTag (renameContent oldTag newTag) now st
              (st' := st') eq_refl) as (H1 & H2 & H3 & H4 & H5).
  repeat (split; [assumption|]). intros i n Hn. specialize (H5 i n Hn).
  split; intro E; rewrite E in H5; [exact H5|].
  exists (renameContent oldTag newTag (Note.content n)),
    (taggedBefore oldTag i (notes st)).
  split; [|exact H5]. apply replaceWith_Rewritten. now apply dollarFree_hash.
Qed.

(** The example of the specification: "idea" is renamed to "notion". *)
Example renameTag_idea_notion :
  notes (renameTag (js "idea") (js "notion") tick ideaStore)
  = [ Note.mk (js "n1") (js "Review #notion please") 1 (tick 0%nat) false
        false [js "notion"] None;
      Note.mk (js "n2") (js "#ideaX") 2 2 false false [js "ideaX"] None ]
  /\ renameTag (js "ghost") (js "notion") tick ideaStore = ideaStore.
Proof. vm_compute. split; reflexivity. Qed.

(** C5 at a new name with a dollar sign: [renameTag("idea", "$&")] hands
    the text [#$&] to [String.prototype.replace], where [$&] stands for
    the matched token; the content becomes [Review ##idea please], not
    [Review #$& please], and the note still carries the tag [idea]. *)
Theorem renameTag_dollar_pattern :
  notes (renameTag (js "idea") (js "$&") tick ideaStore)
  = [ Note.mk (js "n1") (js "Review ##idea please") 1 (tick 0%nat) false
        false [js "idea"] None;
      Note.mk (js "n2") (js "#ideaX") 2 2 false false [js "ideaX"] None ]
  /\ ~ Rewritten (js "idea") (HASH :: js "$&") (js "Review #idea please")
         (js "Review ##idea please")
  /\ Rewritten (js "idea") (HASH :: js "$&") (js "Review #idea please")
       (js "Review #$& please").
Proof.
  assert (R : Rewritten (js "idea") (HASH :: js "$&")
                (js "Review #idea please") (js "Review #$& please")).
  { change (js "Review #idea please")
      with (js "Review " ++ HASH :: js "idea" ++ js " please").
    change (js "Review #$& please")
      with (js "Review " ++ (HASH :: js "$&") ++ js " please").
    assert (K : forall pre s out,
               Forall (fun c => c <> HASH) pre ->
               Rewritten (js "idea") (HASH :: js "$&") s out ->
               Rewritten (js "idea") (HASH :: js "$&") (pre ++ s) (pre ++ out)).
    { induction pre as [|c pre IH]; intros s out Hpre Hs; [exact Hs|].
      inversion Hpre; subst. simpl. apply Rw_keep; [|now apply IH].
      intros [rest [E _]]. injection E as E _. contradiction. }
    apply K.
    - repeat constructor; discriminate.
    - apply Rw_token; [reflexivity|].
      rewrite <- (app_nil_r (js " please")).
      apply K; [repeat constructor; discriminate | constructor]. }
  split; [vm_compute; reflexivity|]. split; [|exact R].
  intro H. pose proof (Rewritten_functional H R) as E.
  vm_compute in E. discriminate E.
Qed.

(** ** A deleted tag is gone *)

Lemma isTagChar_not_space c : isTagChar c = true -> isSpace c = false.
Proof.
  unfold isTagChar, isWord, isSpace, inRange. intro H.
  repeat rewrite ?orb_true_iff, ?andb_true_iff, ?N.leb_le, ?N.eqb_eq in H.
  repeat rewrite ?orb_false_iff, ?andb_false_iff, ?N.leb_gt, ?N.eqb_neq.
  lia.
Qed.

Lemma isSpace_not_tagChar c : isSpace c = true -> isTagChar c = false.
Proof.
  intro H. destruct (isTagChar c) eqn:E; [|reflexivity].
  apply isTagChar_not_space in E. congruence.
Qed.

Lemma Removed_head tag s out :
  Rewritten tag [] s out ->
  headIs isTagChar s = false -> headIs isTagChar out = false.
Proof.
  induction 1 as [|rest out Hrest H IH|c rest out Hc H IH]; simpl; auto.
Qed.

Lemma Removed_head_back tag s out :
  Rewritten tag [] s out ->
  headIs isTagChar out = false -> headIs isTagChar s = false.
Proof.
  destruct 1 as [|rest out Hrest H|c rest out Hc H]; simpl; auto.
Qed.

(** Tag characters at the front of the result stood at the front before. *)
Lemma Removed_prefix tag w :
  Forall (fun c => isTagChar c = true) w ->
  forall s post,
    Rewritten tag [] s (w ++ post) ->
    exists rest, s = w ++ rest /\ Rewritten tag [] rest post.
Proof.
  induction 1 as [|d w Hd Hw IH]; intros s post H.
  - now exists s.
  - simpl in H.
    inversion H as [|rest out Hrest H' E1 E2|c rest out Hc H' E1 E2]; subst.
    + simpl in E2. subst out.
      pose proof (Removed_head H' Hrest) as K. simpl in K. congruence.
    + destruct (IH _ _ H') as [rest' [-> R]]. now exists rest'.
Qed.

Lemma Removed_no_token_at_head tag s out :
  Forall (fun c => isTagChar c = true) tag ->
  Rewritten tag [] s out -> ~ TokenAt tag out.
Proof.
  intros Htag.
  induction 1 as [|rest out Hrest H IH|c rest out Hc H IH].
  - intros [rest [E _]]. discriminate E.
  - exact IH.
  - intros [post [E Hpost]]. injection E as -> ->.
    destruct (Removed_prefix Htag _ H) as [rest' [-> R]].
    apply Hc. exists rest'. split; [reflexivity|].
    now apply (Removed_head_back R).
Qed.

Lemma Removed_no_token tag s out :
  Forall (fun c => isTagChar c = true) tag ->
  Rewritten tag [] s out ->
  forall pre post, out = pre ++ post -> ~ TokenAt tag post.
Proof.
  intros Htag H.
  induction H as [|rest out Hrest H IH|c rest out Hc H IH]; intros pre post E.
  - destruct pre; [|discriminate E]. simpl in E. subst post.
    intros [rest [E _]]. discriminate E.
  - now apply (IH pre).
  - destruct pre as [|d pre]; simpl in E.
    + subst post. apply (Removed_no_token_at_head Htag (s := c :: rest)).
      now apply Rw_keep.
    + injection E as <- E. now apply (IH pre).
Qed.

Lemma Collapsed_head_back s out :
  Collapsed s out ->
  headIs isTagChar out = false -> headIs isTagChar s = false.
Proof.
  destruct 1 as [|ws rest out Hlen Hws Hrest H|c rest out Hc H]; simpl; auto.
  intros _. destruct Hws as [|d ws Hd Hws]; simpl in *; [lia|].
  now apply isSpace_not_tagChar.
Qed.

Lemma Collapsed_prefix w :
  Forall (fun c => isSpace c = false) w ->
  forall s post,
    Collapsed s (w ++ post) ->
    exists rest, s = w ++ rest /\ Collapsed rest post.
Proof.
  induction 1 as [|d w Hd Hw IH]; intros s post H.
  - now exists s.
  - simpl in H.
    inversion H as [|ws rest out Hlen Hws Hrest H' E1 E2
                    |c rest out Hc H' E1 E2]; subst.
    + discriminate Hd.
    + destruct (IH _ _ H') as [rest' [-> R]]. now exists rest'.
Qed.

(** A token of the collapsed text was a token before the collapse. *)
Lemma Collapsed_token_back tag s out :
  Forall (fun c => isTagChar c = true) tag ->
  Collapsed s out ->
  forall pre post,
    out = pre ++ post -> TokenAt tag post ->
    exists pre' post', s = pre' ++ post' /\ TokenAt tag post'.
Proof.
  intros Htag H.
  assert (Hns : Forall (fun c => isSpace c = false) tag).
  { eapply Forall_impl; [|exact Htag]. apply isTagChar_not_space. }
  induction H as [|ws rest out Hlen Hws Hrest H IH|c rest out Hc H IH];
    intros pre post E T.
  - destruct pre; [|discriminate E]. simpl in E. subst post.
    destruct T as [rest [E _]]. discriminate E.
  - destruct pre as [|d pre]; simpl in E.
    + subst post. destruct T as [rest' [E _]]. discriminate E.
    + injection E as <- E. destruct (IH _ _ E T) as [p1 [p2 [-> T2]]].
      exists (ws ++ p1), p2. split; [now rewrite app_assoc | exact T2].
  - destruct pre as [|d pre]; simpl in E.
    + subst post. destruct T as [post' [E Hpost]]. injection E as -> ->.
      destruct (Collapsed_prefix Hns _ H) as [rest' [-> R]].
      exists [], (HASH :: tag ++ rest'). split; [reflexivity|].
      exists rest'. split; [reflexivity|].
      now apply (Collapsed_head_back R).
    + injection E as <- E. destruct (IH _ _ E T) as [p1 [p2 [-> T2]]].
      exists (c :: p1), p2. now split.
Qed.

(** After the deletion no token of the tag is left, and the tag is not
    among the tags extracted from the new content. *)
Lemma deleteContent_drops_tag tag content :
  Forall (fun c => isTagChar c = true) tag ->
  ~ TagIn tag (deleteContent tag content)
  /\ ~ In tag (extractTags (deleteContent tag content)).
Proof.
  intro Htag.
  assert (G : ~ TagIn tag (deleteContent tag content)).
  { intros [pre [post [E [_ [_ Hpost]]]]].
    pose proof (replaceWith_Rewritten tag content dollarFree_nil) as R.
    pose proof (collapseWhitespace_Collapsed
                  (replaceWith (tagTokenRegex tag) [] content)) as C.
    fold (deleteContent tag content) in C. unfold collapseWhitespace in C.
    fold (deleteContent tag content) in C.
    assert (T : TokenAt tag (HASH :: tag ++ post)) by now exists post.
    destruct (Collapsed_token_back Htag C _ E T) as [p1 [p2 [E2 T2]]].
    exact (Removed_no_token Htag R _ E2 T2). }
  split; [exact G|]. intro H. apply G.
  now apply (proj2 (extractTags_spec _)).
Qed.

Lemma deleteContent_steps tag content :
  exists mid,
    Rewritten tag [] content mid
    /\ Collapsed mid (deleteContent tag content)
    /\ hasDoubleSpace (deleteContent tag content) = false.
Proof.
  exists (replaceWith (tagTokenRegex tag) [] content).
  split; [apply replaceWith_Rewritten, dollarFree_nil|].
  unfold deleteContent. fold (collapseWhitespace
                                (replaceWith (tagTokenRegex tag) [] content)).
  split; [apply collapseWhitespace_Collapsed|].
  apply (Collapsed_no_double (collapseWhitespace_Collapsed _)).
Qed.

(** A tag that a note with derived tags carries is a non-empty run of tag
    characters, so that the pattern built from it is the plain token. *)
Lemma carried_tag_is_plain n tag :
  tagsDerived n -> In tag (Note.tags n) ->
  TagIn tag (Note.content n)
  /\ tag <> [] /\ Forall (fun c => isTagChar c = true) tag.
Proof.
  unfold tagsDerived. intros -> H.
  apply (proj2 (extractTags_spec _)) in H. split; [exact H|].
  destruct H as [pre [post [_ [H1 [H2 _]]]]]. now split.
Qed.

(** C6: [deleteTag] writes nothing when no note carries the tag. Otherwise
    the notes are written back once: a note that carries the tag has every
    token [#tag] that no tag character follows taken out of its content,
    then every run of two or more white space characters replaced by one
    space, its tags extracted from the new content and [updatedAt] read
    from the clock; every other note is the same record. When the tags of
    the note were those of its content, the deleted tag is not among the
    new ones. Deleting "idea" from [Check #idea   now] gives [Check now],
    without tags. *)
Theorem deleteTag_removes_and_collapses st tag now :
  let st' := deleteTag tag now st in
  (anyTagged tag (notes st) = false -> st' = st)
  /\ (anyTagged tag (notes st) = true ->
      writes st' = STORAGE_KEY_NOTES :: writes st)
  /\ folders st' = folders st
  /\ length (notes st') = length (notes st)
  /\ (forall i n,
        nth_error (notes st) i = Some n ->
        (~ In tag (Note.tags n) -> nth_error (notes st') i = Some n)
        /\ (In tag (Note.tags n) ->
            exists mid content' k,
              Rewritten tag [] (Note.content n) mid
              /\ Collapsed mid content'
              /\ nth_error (notes st') i
                 = Some (Note.mk (Note.id n) content' (Note.createdAt n)
                           (now k) (Note.isPinned n) (Note.isTrashed n)
                           (extractTags content') (Note.folderId n))
              /\ (tagsDerived n -> ~ In tag (extractTags content'))))
  /\ notes (deleteTag (js "idea") tick checkStore)
     = [ Note.mk (js "n1") (js "Check now") 1 (tick 0%nat) false false []
           None;
         Note.mk (js "n2") (js "keep  this #ideas") 2 2 false false
           [js "ideas"] None ].
Proof.
  intro st'.
  destruct (retag_store tag (deleteContent tag) now st (st' := st') eq_refl)
    as (H1 & H2 & H3 & H4 & H5).
  repeat (split; [assumption|]). split; [|vm_compute; reflexivity].
  intros i n Hn. specialize (H5 i n Hn). split; intro E.
  - destruct (includes tag (Note.tags n)) eqn:F; [|exact H5].
    apply includes_In in F. contradiction.
  - pose proof E as F. apply includes_In in F. rewrite F in H5.
    destruct (deleteContent_steps tag (Note.content n)) as [mid [R [C _]]].
    exists mid, (deleteContent tag (Note.content n)),
      (taggedBefore tag i (notes st)).
    split; [exact R|]. split; [exact C|]. split; [exact H5|].
    intro D. destruct (@carried_tag_is_plain n tag D E) as (_ & _ & Hplain).
    apply (deleteContent_drops_tag _ Hplain).
Qed.

Lemma deleteTag_removes_and_collapses_witness :
  deleteTag (js "ghost") tick checkStore = checkStore.
Proof.
  apply (deleteTag_removes_and_collapses checkStore (js "ghost") tick).
  vm_compute. reflexivity.
Defined.

(** C10: the collapse of [deleteTag] runs over the whole content of a note
    that carries the tag: after the tokens are taken out, every longest run
    of two or more white space characters, wherever it stands and whether
    or not a token stood next to it, line feeds included, has become one
    space, and no two white space characters are left side by side. *)
Theorem deleteTag_collapse_is_global st tag now i n :
  nth_error (notes st) i = Some n ->
  In tag (Note.tags n) ->
  exists mid n',
    nth_error (notes (deleteTag tag now st)) i = Some n'
    /\ Rewritten tag [] (Note.content n) mid
    /\ Collapsed mid (Note.content n')
    /\ (forall out, Collapsed mid out -> out = Note.content n')
    /\ hasDoubleSpace (Note.content n') = false.
Proof.
  intros Hn Ht.
  destruct (retag_store tag (deleteContent tag) now st eq_refl)
    as (_ & _ & _ & _ & H).
  specialize (H i n Hn). apply includes_In in Ht. rewrite Ht in H.
  destruct (deleteContent_steps tag (Note.content n)) as [mid [R [C D]]].
  exists mid. eexists. split; [exact H|]. simpl.
  split; [exact R|]. split; [exact C|]. split; [|exact D].
  intros out Hout. apply (Collapsed_functional Hout C).
Qed.

Example deleteTag_paragraphs :
  deleteContent (js "idea") paragraphs = js "one two three four"
  /\ hasDoubleSpace paragraphs = true.
Proof. vm_compute. split; reflexivity. Qed.

Lemma deleteTag_collapse_is_global_witness :
  exists mid n',
    nth_error
      (notes (deleteTag (js "idea") tick
                (mkStore [Note.mk (js "p") paragraphs 1 1 false false
                            [js "idea"] None] [] []))) 0
    = Some n'
    /\ Rewritten (js "idea") [] paragraphs mid
    /\ Collapsed mid (Note.content n')
    /\ (forall out, Collapsed mid out -> out = Note.content n')
    /\ hasDoubleSpace (Note.content n') = false.
Proof.
  apply (@deleteTag_collapse_is_global
           (mkStore [Note.mk (js "p") paragraphs 1 1 false false
                       [js "idea"] None] [] [])
           (js "idea") tick 0%nat
           (Note.mk (js "p") paragraphs 1 1 false false [js "idea"] None)).
  - reflexivity.
  - simpl. left. reflexivity.
Defined.

(* ================================================================== *)
(** * Blobs that cannot be read *)

Lemma readCollection_unreadable raw :
  unreadable raw = true -> Blob.readCollection raw = Blob.JArray [].
Proof.
  unfold unreadable, Blob.readCollection.
  destruct raw as [[|c text]|]; try reflexivity.
  destruct (Blob.JSON_parse (c :: text)); [discriminate | reflexivity].
Qed.

(** What is read is what [JSON.parse] makes of any other text. *)
Lemma readCollection_parsed text v :
  Blob.JSON_parse text = Some v -> Blob.readCollection (Some text) = v.
Proof.
  unfold Blob.readCollection. destruct text as [|c text].
  - discriminate.
  - now intros ->.
Qed.

(** C9, as amended: when the blob of a collection is missing, empty or
    not a JSON text, the reader returns the empty array, as it does for a
    key that was never written, and the methods that go on from it work on
    the empty collection; the reader itself never raises. A blob that is a
    JSON text is handed on as parsed, whatever its shape. *)
Theorem unreadable_blob_reads_empty (ls : Blob.LocalStorage) :
  (unreadable (ls STORAGE_KEY_NOTES) = true ->
     Blob.getNotesFromStorage ls = Blob.JArray []
     /\ Blob.getNotesFromStorage ls = Blob.getNotesFromStorage neverWritten
     /\ Blob.asArray (Blob.getNotesFromStorage ls) = Some [])
  /\ (unreadable (ls STORAGE_KEY_FOLDERS) = true ->
        Blob.getFoldersFromStorage ls = Blob.JArray []
        /\ Blob.getFoldersFromStorage ls
           = Blob.getFoldersFromStorage neverWritten
        /\ Blob.asArray (Blob.getFoldersFromStorage ls) = Some [])
  /\ (forall text v,
        ls STORAGE_KEY_NOTES = Some text ->
        Blob.JSON_parse text = Some v ->
        Blob.getNotesFromStorage ls = v)
  /\ (forall text v,
        ls STORAGE_KEY_FOLDERS = Some text ->
        Blob.JSON_parse text = Some v ->
        Blob.getFoldersFromStorage ls = v).
Proof.
  unfold Blob.getNotesFromStorage, Blob.getFoldersFromStorage.
  split; [|split; [|split]].
  - intro H. rewrite (readCollection_unreadable _ H). now repeat split.
  - intro H. rewrite (readCollection_unreadable _ H). now repeat split.
  - intros text v -> H. now apply readCollection_parsed.
  - intros text v -> H. now apply readCollection_parsed.
Qed.

Example unreadable_blobs :
  unreadable (Some (js "{oops")) = true
  /\ unreadable (Some (js "[1,2")) = true
  /\ unreadable (Some (js "undefined")) = true
  /\ unreadable (Some (js "[]")) = false
  /\ Blob.getNotesFromStorage (holding "[]") = Blob.JArray [].
Proof. vm_compute. repeat split. Qed.

Lemma unreadable_blob_reads_empty_witness :
  Blob.getNotesFromStorage (holding "{oops") = Blob.JArray []
  /\ Blob.getNotesFromStorage (holding "{oops")
     = Blob.getNotesFromStorage neverWritten
  /\ Blob.asArray (Blob.getNotesFromStorage (holding "{oops")) = Some [].
Proof.
  apply (unreadable_blob_reads_empty (holding "{oops")).
  vm_compute. reflexivity.
Defined.

(** C9, as stated, fails: the blob [null] does not parse as a sequence of
    records, yet the reader returns what [JSON.parse] gives, the value
    [null], and not the empty array; the next array method called on it
    raises a TypeError. The blob [{}] fares the same. *)
Lemma shapeless_blob_counterexample :
  ~ (forall ls : Blob.LocalStorage,
        (ls STORAGE_KEY_NOTES = None
         \/ exists text, ls STORAGE_KEY_NOTES = Some text
                         /\ Blob.parsesAsSequence text = false) ->
        Blob.getNotesFromStorage ls = Blob.JArray []
        /\ Blob.asArray (Blob.getNotesFromStorage ls) = Some []).
Proof.
  intro H. destruct (H (holding "null")) as [E _].
  - right. exists (js "null"). split; [reflexivity|]. vm_compute. reflexivity.
  - vm_compute in E. discriminate E.
Qed.

Example shapeless_blobs :
  Blob.getNotesFromStorage (holding "null") = Blob.JNull
  /\ Blob.asArray (Blob.getNotesFromStorage (holding "null")) = None
  /\ Blob.getFoldersFromStorage (holding "{}") = Blob.JObject []
  /\ Blob.asArray (Blob.getFoldersFromStorage (holding "{}")) = None.
Proof. vm_compute. repeat split. Qed.

(* ================================================================== *)
(** * The tag list *)

Lemma mapGet_mapSet k k' v m :
  mapGet k (mapSet k' v m) = if streq k' k then Some v else mapGet k m.
Proof.
  induction m as [|[a x] r IH]; simpl; [reflexivity|].
  destruct (streq a k') eqn:E; simpl.
  - apply streq_true in E. subst a. now destruct (streq k' k).
  - rewrite IH. destruct (streq a k) eqn:F; [|reflexivity].
    apply streq_true in F. subst a. destruct (streq k' k) eqn:G; [|reflexivity].
    apply streq_true in G. subst k'. rewrite streq_refl in E. discriminate E.
Qed.

Lemma keys_mapSet k v m :
  keys (mapSet k v m)
  = if includes k (keys m) then keys m else keys m ++ [k].
Proof.
  unfold keys, includes. induction m as [|[a x] r IH]; simpl; [reflexivity|].
  destruct (streq a k) eqn:E; simpl.
  - apply streq_true in E. subst a. now rewrite streq_refl.
  - rewrite IH. assert (F : streq k a = false).
    { apply streq_false. apply streq_false in E. congruence. }
    rewrite F. simpl. now destruct (existsb (streq k) (map fst r)).
Qed.

Lemma mapGet_None k m : mapGet k m = None <-> ~ In k (keys m).
Proof.
  unfold keys. induction m as [|[a x] r IH]; simpl; [tauto|].
  destruct (streq a k) eqn:E.
  - apply streq_true in E. split; [discriminate|]. intro H. exfalso. auto.
  - apply streq_false in E. rewrite IH. tauto.
Qed.

Lemma In_mapGet k c m :
  NoDup (keys m) -> (In (k, c) m <-> mapGet k m = Some c).
Proof.
  unfold keys. induction m as [|[a x] r IH]; simpl; intro N.
  - split; [intros [] | discriminate].
  - inversion N as [|? ? Ha Nr]; subst. destruct (streq a k) eqn:E.
    + apply streq_true in E. subst a. split.
      * intros [H|H]; [congruence|]. exfalso. apply Ha.
        apply in_map_iff. now exists (k, c).
      * intro H. left. congruence.
    + apply streq_false in E. rewrite <- (IH Nr). split.
      * intros [H|H]; [congruence | exact H].
      * intro H. now right.
Qed.

Lemma tally_countTag m t k :
  tally (countTag m t) k = (tally m k + if streq t k then 1 else 0)%nat.
Proof.
  unfold tally, countTag. rewrite mapGet_mapSet.
  destruct (streq t k) eqn:E; [|lia].
  apply streq_true in E. now subst t.
Qed.

Lemma tally_fold l m k :
  tally (fold_left countTag l m) k
  = (tally m k + count_occ jsstring_dec l k)%nat.
Proof.
  revert m. induction l as [|t r IH]; intro m; simpl; [lia|].
  rewrite IH, tally_countTag. destruct (jsstring_dec t k) as [->|Ne].
  - rewrite streq_refl. lia.
  - apply streq_false in Ne. rewrite Ne. lia.
Qed.

Lemma dedupe_ext seen seen' l :
  (forall x, In x seen <-> In x seen') -> dedupe seen l = dedupe seen' l.
Proof.
  revert seen seen'. induction l as [|x r IH]; intros seen seen' H; simpl;
    [reflexivity|].
  assert (E : includes x seen = includes x seen').
  { destruct (includes x seen) eqn:A; destruct (includes x seen') eqn:B;
      try reflexivity.
    - apply includes_In, H, includes_In in A. congruence.
    - apply includes_In, H, includes_In in B. congruence. }
  rewrite E. destruct (includes x seen'); [now apply IH|].
  f_equal. apply IH. intro y. simpl. rewrite H. tauto.
Qed.

Lemma keys_fold l m :
  keys (fold_left countTag l m) = keys m ++ dedupe (keys m) l.
Proof.
  revert m. induction l as [|t r IH]; intro m; simpl.
  - now rewrite app_nil_r.
  - rewrite IH. unfold countTag at 1 2. rewrite keys_mapSet.
    destruct (includes t (keys m)); [reflexivity|].
    rewrite <- app_assoc. simpl. do 2 f_equal. apply dedupe_ext.
    intro x. rewrite in_app_iff. simpl. tauto.
Qed.

Lemma getTags_liveTags st :
  getTags st = fold_left countTag (liveTags (notes st)) [].
Proof.
  unfold getTags, getNotesFromStorage. generalize (@nil (jsstring * nat)).
  induction (notes st) as [|n r IH]; intro m; simpl; [reflexivity|].
  rewrite IH. destruct (Note.isTrashed n); simpl; [reflexivity|].
  now rewrite fold_left_app.
Qed.

Lemma count_occ_liveTags tag l :
  Forall (fun n => NoDup (Note.tags n)) l ->
  count_occ jsstring_dec (liveTags l) tag
  = length (filter (carriesLive tag) l).
Proof.
  induction 1 as [|n r Hn Hr IH]; simpl; [reflexivity|].
  rewrite count_occ_app, IH. unfold carriesLive at 2.
  destruct (Note.isTrashed n); simpl; [reflexivity|].
  destruct (includes tag (Note.tags n)) eqn:E; simpl.
  - apply includes_In in E.
    pose proof (proj1 (NoDup_count_occ jsstring_dec (Note.tags n)) Hn tag).
    apply (count_occ_In jsstring_dec) in E. lia.
  - assert (F : ~ In tag (Note.tags n)).
    { intro F. apply includes_In in F. congruence. }
    apply (count_occ_not_In jsstring_dec) in F. lia.
Qed.

Lemma tagsDerived_NoDup st :
  allNotes tagsDerived st -> Forall (fun n => NoDup (Note.tags n)) (notes st).
Proof.
  unfold allNotes. apply Forall_impl. intros n ->.
  apply (proj1 (extractTags_spec _)).
Qed.

Lemma reachable_tagsDerived st : reachable st -> allNotes tagsDerived st.
Proof.
  intros [ops <-].
  assert (G : forall s, allNotes tagsDerived s ->
                        allNotes tagsDerived (run ops s)).
  { induction ops as [|op r IH]; simpl; intros s H; [exact H|].
    apply IH. now apply step_tagsDerived. }
  apply G. constructor.
Qed.

Lemma getTags_keys st : keys (getTags st) = fromSet (liveTags (notes st)).
Proof. rewrite getTags_liveTags, keys_fold. reflexivity. Qed.

Lemma getTags_tally st tag :
  allNotes tagsDerived st ->
  tally (getTags st) tag = length (filter (carriesLive tag) (notes st)).
Proof.
  intro D. rewrite getTags_liveTags, tally_fold. simpl.
  apply count_occ_liveTags. now apply tagsDerived_NoDup.
Qed.

Lemma getTags_listed st tag :
  allNotes tagsDerived st ->
  In tag (keys (getTags st)) <->
  (0 < length (filter (carriesLive tag) (notes st)))%nat.
Proof.
  intro D. rewrite getTags_keys. unfold fromSet. rewrite In_dedupe.
  rewrite <- (count_occ_liveTags tag (tagsDerived_NoDup D)).
  rewrite (count_occ_In jsstring_dec). simpl. intuition lia.
Qed.

Lemma getTags_entry st tag c :
  allNotes tagsDerived st ->
  In (tag, c) (getTags st) <->
  c = length (filter (carriesLive tag) (notes st)) /\ (0 < c)%nat.
Proof.
  intro D.
  assert (ND : NoDup (keys (getTags st))).
  { rewrite getTags_keys. apply NoDup_dedupe. }
  pose proof (getTags_tally tag D) as T.
  pose proof (getTags_listed tag D) as L.
  rewrite (@In_mapGet tag c _ ND). unfold tally in T. split.
  - intro H. rewrite H in T. split; [exact T|].
    rewrite T. apply L.
    destruct (in_dec jsstring_dec tag (keys (getTags st))) as [I|I];
      [exact I|].
    apply mapGet_None in I. congruence.
  - intros [-> Hc]. apply L in Hc.
    destruct (mapGet tag (getTags st)) as [c|] eqn:E; [now rewrite T|].
    apply mapGet_None in E. contradiction.
Qed.

Lemma carriesLive_length st tag :
  (0 < length (filter (carriesLive tag) (notes st)))%nat <->
  exists n, In n (notes st) /\ Note.isTrashed n = false
            /\ In tag (Note.tags n).
Proof.
  split.
  - intro H. destruct (filter (carriesLive tag) (notes st)) as [|n r] eqn:E;
      [simpl in H; lia|].
    assert (I : In n (filter (carriesLive tag) (notes st)))
      by (rewrite E; now left).
    apply filter_In in I. destruct I as [I C]. unfold carriesLive in C.
    apply andb_true_iff in C. destruct C as [C1 C2]. exists n.
    split; [assumption|]. split; [now apply negb_true_iff|].
    now apply includes_In.
  - intros [n [I [C1 C2]]].
    assert (J : In n (filter (carriesLive tag) (notes st))).
    { apply filter_In. split; [assumption|]. unfold carriesLive.
      rewrite C1. simpl. now apply includes_In. }
    destruct (filter (carriesLive tag) (notes st)); [destruct J | simpl; lia].
Qed.

(** X1: [getTags] lists every tag of a note outside the trash once, in the
    order in which the tags are first met, and never a tag with the count
    zero. When the tags of each note are those of its content, the count of
    a tag is the number of notes outside the trash that carry it. *)
Theorem getTags_counts_live_carriers st :
  allNotes tagsDerived st ->
  NoDup (map fst (getTags st))
  /\ map fst (getTags st) = fromSet (liveTags (notes st))
  /\ (forall tag c,
        In (tag, c) (getTags st) <->
        c = length (filter (carriesLive tag) (notes st)) /\ (0 < c)%nat)
  /\ (forall tag,
        In tag (map fst (getTags st)) <->
        exists n, In n (notes st) /\ Note.isTrashed n = false
                  /\ In tag (Note.tags n)).
Proof.
  intro D. split; [|split; [|split]].
  - fold (keys (getTags st)). rewrite getTags_keys. apply NoDup_dedupe.
  - apply getTags_keys.
  - intros tag c. now apply getTags_entry.
  - intro tag. fold (keys (getTags st)).
    rewrite (getTags_listed tag D). apply carriesLive_length.
Qed.

Lemma getTags_counts_live_carriers_witness :
  map fst (getTags shelf) = fromSet (liveTags (notes shelf)).
Proof.
  destruct (@getTags_counts_live_carriers shelf) as (_ & H & _).
  - repeat constructor.
  - exact H.
Defined.

(* ================================================================== *)
(** * The life of a note *)

Lemma setPinned_twice n :
  setPinned (negb (Note.isPinned (setPinned (negb (Note.isPinned n)) n)))
    (setPinned (negb (Note.isPinned n)) n) = n.
Proof.
  destruct n as [i c ca ua p t tg f]. simpl. now rewrite negb_involutive.
Qed.

Lemma togglePin_found id st i :
  findIndex (hasId id) (notes st) = Some i ->
  togglePin id st
  = (nth_error
       (updateAt i (fun n => setPinned (negb (Note.isPinned n)) n) (notes st)) i,
     saveNotesToStorage
       (updateAt i (fun n => setPinned (negb (Note.isPinned n)) n) (notes st))
       st).
Proof. intro H. unfold togglePin, getNotesFromStorage. now rewrite H. Qed.

(** X2: pinning twice gives the stored notes back: the second [togglePin]
    of an id undoes the first and returns the note as it was; the folders
    are not touched, and each of the two calls writes the notes once. *)
Theorem togglePin_twice id st :
  let st1 := snd (togglePin id st) in
  let st2 := snd (togglePin id st1) in
  notes st2 = notes st
  /\ folders st2 = folders st
  /\ (forall i n,
        findIndex (hasId id) (notes st) = Some i ->
        nth_error (notes st) i = Some n ->
        fst (togglePin id st) = Some (setPinned (negb (Note.isPinned n)) n)
        /\ fst (togglePin id st1) = Some n
        /\ writes st2 = STORAGE_KEY_NOTES :: STORAGE_KEY_NOTES :: writes st).
Proof.
  intros st1 st2. subst st1 st2.
  destruct (findIndex (hasId id) (notes st)) as [i|] eqn:Hi.
  - set (flip := fun n => setPinned (negb (Note.isPinned n)) n).
    assert (T1 : togglePin id st
                 = (nth_error (updateAt i flip (notes st)) i,
                    saveNotesToStorage (updateAt i flip (notes st)) st))
      by now apply togglePin_found.
    assert (E : updateAt i flip (updateAt i flip (notes st)) = notes st).
    { rewrite updateAt_twice. apply updateAt_id. intros x _.
      apply setPinned_twice. }
    assert (T2 : togglePin id
                   (saveNotesToStorage (updateAt i flip (notes st)) st)
                 = (nth_error (notes st) i,
                    saveNotesToStorage (notes st)
                      (saveNotesToStorage (updateAt i flip (notes st)) st))).
    { rewrite togglePin_found with (i := i).
      - simpl. fold flip. now rewrite E.
      - simpl. now rewrite findIndex_updateAt. }
    rewrite T1. simpl. rewrite T2. simpl.
    split; [reflexivity|]. split; [reflexivity|].
    intros j n Hj Hn. injection Hj as <-.
    rewrite updateAt_same, Hn. now repeat split.
  - assert (E : togglePin id st = (None, st)).
    { unfold togglePin, getNotesFromStorage. now rewrite Hi. }
    rewrite E. simpl. rewrite E. simpl. repeat split; intros; discriminate.
Qed.

Lemma togglePin_twice_witness :
  fst (togglePin (js "a") (snd (togglePin (js "a") shelf)))
  = Some (Note.mk (js "a") (js "first #one") 10 20 true false [js "one"] None).
Proof.
  destruct (togglePin_twice (js "a") shelf) as (_ & _ & H).
  apply (H 0%nat (Note.mk (js "a") (js "first #one") 10 20 true false
                    [js "one"] None)); reflexivity.
Defined.

Lemma restoreFromTrash_found id st i :
  findIndex (hasId id) (notes st) = Some i ->
  restoreFromTrash id st
  = saveNotesToStorage (updateAt i (setTrashed false) (notes st)) st.
Proof.
  intro H. unfold restoreFromTrash, getNotesFromStorage. now rewrite H.
Qed.

Lemma moveToTrash_at id st i :
  findIndex (hasId id) (notes st) = Some i ->
  moveToTrash id st
  = saveNotesToStorage
      (updateAt i (fun n => setPinned false (setTrashed true n)) (notes st)) st.
Proof. intro H. unfold moveToTrash, getNotesFromStorage. now rewrite H. Qed.

(** X3: a note that is moved to the trash and restored is out of the trash
    and not pinned: a pin is lost on the way. The other notes are as before,
    and so is the note itself when it was neither pinned nor trashed. *)
Theorem trash_then_restore id st i n :
  findIndex (hasId id) (notes st) = Some i ->
  nth_error (notes st) i = Some n ->
  let st' := restoreFromTrash id (moveToTrash id st) in
  nth_error (notes st') i = Some (setPinned false (setTrashed false n))
  /\ (forall j, j <> i -> nth_error (notes st') j = nth_error (notes st) j)
  /\ length (notes st') = length (notes st)
  /\ (Note.isPinned n = false -> Note.isTrashed n = false ->
      notes st' = notes st)
  /\ (Note.isPinned n = true -> notes st' <> notes st).
Proof.
  intros Hi Hn st'. subst st'.
  assert (Hi' : findIndex (hasId id) (notes (moveToTrash id st)) = Some i).
  { rewrite (moveToTrash_at _ _ Hi). simpl. now rewrite findIndex_updateAt. }
  rewrite (restoreFromTrash_found _ _ Hi'), (moveToTrash_at _ _ Hi). simpl.
  rewrite updateAt_twice.
  split; [now rewrite updateAt_same, Hn|].
  split; [intros j Hj; apply updateAt_other; congruence|].
  split; [apply updateAt_length|]. split.
  - intros Hp Ht. apply updateAt_id. intros x Hx.
    rewrite Hn in Hx. injection Hx as <-.
    destruct n as [a c ca ua p t tg f]. simpl in *. now subst.
  - intros Hp E.
    assert (F : nth_error
                  (updateAt i
                     (fun x => setTrashed false
                                 (setPinned false (setTrashed true x)))
                     (notes st)) i = nth_error (notes st) i)
      by now rewrite E.
    rewrite updateAt_same, Hn in F. simpl in F. injection F as F.
    apply (f_equal Note.isPinned) in F. simpl in F. congruence.
Qed.

Lemma trash_then_restore_witness :
  nth_error (notes (restoreFromTrash (js "a") (moveToTrash (js "a") shelf))) 0
  = Some (Note.mk (js "a") (js "first #one") 10 20 false false [js "one"] None).
Proof.
  apply (@trash_then_restore (js "a") shelf 0%nat
           (Note.mk (js "a") (js "first #one") 10 20 true false [js "one"] None));
    reflexivity.
Defined.

Lemma filter_filter (A : Type) (p : A -> bool) (l : list A) :
  filter p (filter p l) = filter p l.
Proof.
  induction l as [|x r IH]; simpl; [reflexivity|].
  destruct (p x) eqn:E; simpl; [now rewrite E, IH | exact IH].
Qed.

(** X4: [deletePermanently] removes every note that has the id, trashed or
    not, and keeps the other notes in their order. Afterwards no note has
    the id, so that a second call, and any of [moveToTrash],
    [restoreFromTrash], [togglePin] and [updateNote] with the id, changes
    nothing. *)
Theorem deletePermanently_removes id st :
  let st' := deletePermanently id st in
  notes st' = filter (fun n => negb (hasId id n)) (notes st)
  /\ (forall n, In n (notes st') <-> In n (notes st) /\ Note.id n <> id)
  /\ noteExists id st' = false
  /\ notes (deletePermanently id st') = notes st'
  /\ moveToTrash id st' = st'
  /\ restoreFromTrash id st' = st'
  /\ togglePin id st' = (None, st')
  /\ (forall content arg now, updateNote id content arg now st' = (None, st'))
  /\ folders st' = folders st.
Proof.
  intro st'. subst st'.
  assert (X : noteExists id (deletePermanently id st) = false).
  { unfold noteExists, deletePermanently, getNotesFromStorage. simpl.
    apply existsb_false. intros n Hn. apply filter_In in Hn.
    destruct Hn as [_ Hn]. now apply negb_true_iff in Hn. }
  pose proof (findIndex_absent _ _ X) as F.
  split; [reflexivity|]. split.
  { intro n. unfold deletePermanently, getNotesFromStorage. simpl.
    rewrite filter_In, negb_true_iff. unfold hasId. now rewrite streq_false. }
  split; [exact X|]. split.
  { unfold deletePermanently at 1. unfold getNotesFromStorage. simpl.
    unfold deletePermanently, getNotesFromStorage. simpl.
    apply filter_filter. }
  unfold moveToTrash, restoreFromTrash, togglePin, updateNote,
    getNotesFromStorage. rewrite F. repeat split.
Qed.

(* ================================================================== *)
(** * What a call leaves alone *)

Lemma mapTagged_map (B : Type) (g : Note.t -> B) tag edit now k l :
  (forall t n, g (retagged edit t n) = g n) ->
  map g (mapTagged tag edit now k l) = map g l.
Proof.
  intro H. revert k. induction l as [|n r IH]; intro k; simpl; [reflexivity|].
  destruct (includes tag (Note.tags n)); simpl; now rewrite ?H, IH.
Qed.

Lemma map_filter_key (l : list Note.t) id :
  map noteKey (filter (fun n => negb (hasId id n)) l)
  = filter (fun k => negb (keyHasId id k)) (map noteKey l).
Proof.
  induction l as [|n r IH]; simpl; [reflexivity|].
  unfold keyHasId at 1, hasId at 1. simpl.
  destruct (streq (Note.id n) id); simpl; now rewrite IH.
Qed.

Lemma step_noteKeys op st :
  map noteKey (notes (step op st))
  = match op with
    | CreateNote newId now _ _ => (newId, now 0%nat) :: map noteKey (notes st)
    | DeletePermanently id =>
        filter (fun k => negb (keyHasId id k)) (map noteKey (notes st))
    | _ => map noteKey (notes st)
    end.
Proof.
  destruct op; simpl; try reflexivity;
    unfold updateNote, togglePin, moveToTrash, restoreFromTrash,
      deletePermanently, renameTag, deleteTag, updateFolder, deleteFolder,
      getNotesFromStorage, getFoldersFromStorage.
  - destruct (findIndex (hasId id) (notes st)); simpl; [|reflexivity].
    apply updateAt_map. intro x. now destruct folderId.
  - destruct (findIndex (hasId id) (notes st)); simpl; [|reflexivity].
    now apply updateAt_map.
  - destruct (findIndex (hasId id) (notes st)); simpl; [|reflexivity].
    now apply updateAt_map.
  - destruct (findIndex (hasId id) (notes st)); simpl; [|reflexivity].
    now apply updateAt_map.
  - simpl. apply map_filter_key.
  - destruct (anyTagged oldTag (notes st)); simpl; [|reflexivity].
    now apply mapTagged_map.
  - destruct (anyTagged tag (notes st)); simpl; [|reflexivity].
    now apply mapTagged_map.
  - now destruct (findIndex (folderHasId id) (folders st)).
  - simpl. destruct (existsb _ (notes st)); simpl; [|reflexivity].
    rewrite map_map. apply map_ext. intro n. unfold detachNote.
    now destruct (nullable_streq _ _).
Qed.

Lemma step_folderKeys op st :
  map folderKey (folders (step op st))
  = match op with
    | CreateFolder newId now _ _ =>
        map folderKey (folders st) ++ [(newId, now 0%nat)]
    | DeleteFolder id =>
        filter (fun k => negb (keyHasId id k)) (map folderKey (folders st))
    | _ => map folderKey (folders st)
    end.
Proof.
  destruct op; simpl; try reflexivity;
    unfold updateNote, togglePin, moveToTrash, restoreFromTrash,
      deletePermanently, renameTag, deleteTag, updateFolder,
      getNotesFromStorage, getFoldersFromStorage.
  - now destruct (findIndex (hasId id) (notes st)).
  - now destruct (findIndex (hasId id) (notes st)).
  - now destruct (findIndex (hasId id) (notes st)).
  - now destruct (findIndex (hasId id) (notes st)).
  - now destruct (anyTagged oldTag (notes st)).
  - now destruct (anyTagged tag (notes st)).
  - now rewrite map_app.
  - destruct (findIndex (folderHasId id) (folders st)); simpl; [|reflexivity].
    now apply updateAt_map.
  - unfold deleteFolder, getNotesFromStorage, getFoldersFromStorage. simpl.
    induction (folders st) as [|f r IH]; simpl; [reflexivity|].
    unfold folderHasId at 1, keyHasId at 1. rewrite promoteFolder_id. simpl.
    destruct (streq (Folder.id f) id); simpl; rewrite IH; [reflexivity|].
    f_equal. unfold folderKey, promoteFolder.
    now destruct (nullable_streq _ _).
Qed.

(** X5: no call changes the id or the creation time of a stored note or
    folder, and no call reorders them: [createNote] puts one key in front
    of the notes and [createFolder] one key behind the folders,
    [deletePermanently] and [deleteFolder] take the keys with their id out,
    and every other call leaves both sequences of keys as they are. *)
Theorem record_keys_are_stable op st :
  map noteKey (notes (step op st))
  = match op with
    | CreateNote newId now _ _ => (newId, now 0%nat) :: map noteKey (notes st)
    | DeletePermanently id =>
        filter (fun k => negb (keyHasId id k)) (map noteKey (notes st))
    | _ => map noteKey (notes st)
    end
  /\ map folderKey (folders (step op st))
     = match op with
       | CreateFolder newId now _ _ =>
           map folderKey (folders st) ++ [(newId, now 0%nat)]
       | DeleteFolder id =>
           filter (fun k => negb (keyHasId id k)) (map folderKey (folders st))
       | _ => map folderKey (folders st)
       end.
Proof.
  split.
  - apply step_noteKeys.
  - apply step_folderKeys.
Qed.

Lemma noteCall_folders op st :
  noteCall op = true -> folders (step op st) = folders st.
Proof.
  destruct op; try discriminate; intros _; simpl; try reflexivity;
    unfold updateNote, togglePin, moveToTrash, restoreFromTrash,
      deletePermanently, renameTag, deleteTag, getNotesFromStorage.
  - now destruct (findIndex (hasId id) (notes st)).
  - now destruct (findIndex (hasId id) (notes st)).
  - now destruct (findIndex (hasId id) (notes st)).
  - now destruct (findIndex (hasId id) (notes st)).
  - now destruct (anyTagged oldTag (notes st)).
  - now destruct (anyTagged tag (notes st)).
Qed.

Lemma folderCall_notes op st :
  noteCall op = false -> (forall id, op <> DeleteFolder id) ->
  notes (step op st) = notes st.
Proof.
  destruct op; try discriminate; intros _ H; simpl.
  - reflexivity.
  - unfold updateFolder, getFoldersFromStorage.
    now destruct (findIndex (folderHasId id) (folders st)).
  - exfalso. now apply (H id).
Qed.

(** X6: the calls on notes and tags never touch the folders, and
    [createFolder] and [updateFolder] never touch the notes; [deleteFolder]
    is the only call that works on both collections. *)
Theorem calls_keep_to_their_collection op st :
  (noteCall op = true -> folders (step op st) = folders st)
  /\ (noteCall op = false ->
      (forall id, op <> DeleteFolder id) -> notes (step op st) = notes st).
Proof.
  split.
  - apply noteCall_folders.
  - apply folderCall_notes.
Qed.

Lemma calls_keep_to_their_collection_witness :
  folders (step (DeleteTag (js "one") tick) shelf) = folders shelf.
Proof.
  apply (calls_keep_to_their_collection (DeleteTag (js "one") tick) shelf).
  reflexivity.
Defined.

(* ================================================================== *)
(** * Identifiers *)

Lemma noteExists_ids id st :
  noteExists id st = true <-> In id (map Note.id (notes st)).
Proof.
  unfold noteExists. rewrite existsb_exists, in_map_iff. unfold hasId. split.
  - intros [n [Hn E]]. apply streq_true in E. now exists n.
  - intros [n [E Hn]]. exists n. split; [assumption|]. now apply streq_true.
Qed.

Lemma folderExists_ids id st :
  folderExists id st = true <-> In id (map Folder.id (folders st)).
Proof.
  unfold folderExists. rewrite existsb_exists, in_map_iff. unfold folderHasId.
  split.
  - intros [n [Hn E]]. apply streq_true in E. now exists n.
  - intros [n [E Hn]]. exists n. split; [assumption|]. now apply streq_true.
Qed.

Lemma map_fst_filter_key (l : list (jsstring * Z)) id :
  map fst (filter (fun k => negb (keyHasId id k)) l)
  = filter (fun i => negb (streq i id)) (map fst l).
Proof.
  induction l as [|k r IH]; simpl; [reflexivity|].
  unfold keyHasId at 1. destruct (streq (fst k) id); simpl; now rewrite IH.
Qed.

Lemma note_ids_keys (l : list Note.t) : map Note.id l = map fst (map noteKey l).
Proof. rewrite map_map. reflexivity. Qed.

Lemma folder_ids_keys (l : list Folder.t) :
  map Folder.id l = map fst (map folderKey l).
Proof. rewrite map_map. reflexivity. Qed.

Lemma step_uniqueIds op st :
  freshId op st = true -> uniqueIds st -> uniqueIds (step op st).
Proof.
  unfold uniqueIds. intros F [Hn Hf].
  rewrite (note_ids_keys (notes (step op st))),
    (folder_ids_keys (folders (step op st))), step_noteKeys, step_folderKeys.
  rewrite note_ids_keys in Hn. rewrite folder_ids_keys in Hf.
  destruct op; simpl in *; try (now split).
  - split; [|assumption]. constructor; [|assumption].
    apply negb_true_iff in F. intro I. rewrite <- note_ids_keys in I.
    apply noteExists_ids in I. congruence.
  - split; [|assumption]. rewrite map_fst_filter_key. now apply NoDup_filter.
  - split; [assumption|]. rewrite map_app. simpl.
    apply NoDup_app; [assumption | repeat constructor; intros [] |].
    intros x Hx [<-|[]]. apply negb_true_iff in F.
    rewrite <- folder_ids_keys in Hx. apply folderExists_ids in Hx. congruence.
  - split; [assumption|]. rewrite map_fst_filter_key. now apply NoDup_filter.
Qed.

(** X7: as long as [generateId] hands out identifiers that are not in use,
    no two stored notes share an id and no two stored folders do: each call
    keeps this, and it holds after every run from the empty store. *)
Theorem ids_stay_unique :
  (forall op st,
      freshId op st = true -> uniqueIds st -> uniqueIds (step op st))
  /\ (forall ops,
         freshRun ops emptyStore = true -> uniqueIds (run ops emptyStore)).
Proof.
  split; [apply step_uniqueIds|].
  assert (G : forall ops st, freshRun ops st = true -> uniqueIds st ->
                             uniqueIds (run ops st)).
  { induction ops as [|op r IH]; simpl; intros st F U; [exact U|].
    apply andb_true_iff in F. destruct F as [F1 F2].
    apply IH; [assumption|]. now apply step_uniqueIds. }
  intros ops F. apply G; [assumption|]. split; constructor.
Qed.

Lemma ids_stay_unique_witness :
  uniqueIds
    (run [ CreateNote (js "n1") tick (js "a") None;
           CreateFolder (js "f1") tick (js "work") None;
           CreateNote (js "n2") tick (js "b") (Some (js "f1"));
           DeleteFolder (js "f1") ] emptyStore).
Proof.
  apply (proj2 ids_stay_unique). vm_compute. reflexivity.
Defined.

(* ================================================================== *)
(** * References to folders *)

Lemma folderExists_step op st f :
  folderExists f st = true ->
  (forall id, op = DeleteFolder id -> f <> id) ->
  folderExists f (step op st) = true.
Proof.
  intros E H. apply folderExists_ids. apply folderExists_ids in E.
  rewrite folder_ids_keys, step_folderKeys. rewrite folder_ids_keys in E.
  destruct op; try exact E.
  - rewrite map_app, in_app_iff. now left.
  - rewrite map_fst_filter_key. apply filter_In. split; [assumption|].
    apply negb_true_iff, streq_false. now apply H.
Qed.

Lemma In_updateAt (A : Type) (f : A -> A) i (l : list A) y :
  In y (updateAt i f l) ->
  In y l \/ exists x, nth_error l i = Some x /\ y = f x.
Proof.
  revert i. induction l as [|x r IH]; intros [|i]; simpl; try tauto.
  - intros [<-|H]; [right; now exists x | tauto].
  - intros [<-|H]; [tauto|]. destruct (IH _ H) as [K|K]; tauto.
Qed.

Lemma In_mapTagged tag edit now k l y :
  In y (mapTagged tag edit now k l) ->
  exists n, In n l /\ Note.folderId y = Note.folderId n.
Proof.
  revert k. induction l as [|n r IH]; intro k; simpl; [intros []|].
  destruct (includes tag (Note.tags n)); simpl.
  - intros [<-|H]; [exists n; split; [now left|reflexivity]|].
    destruct (IH _ H) as [m [Hm E]]. exists m. split; [now right|exact E].
  - intros [<-|H]; [exists n; split; [now left|reflexivity]|].
    destruct (IH _ H) as [m [Hm E]]. exists m. split; [now right|exact E].
Qed.

(** Where the folder of a note comes from after a call. *)
Lemma step_note_folder op st n f :
  In n (notes (step op st)) -> Note.folderId n = Some f ->
  (exists m, In m (notes st) /\ Note.folderId m = Some f
             /\ forall id, op = DeleteFolder id -> f <> id)
  \/ (exists a b c, op = CreateNote a b c (Some f))
  \/ (exists a b c, op = UpdateNote a b (Given (Some f)) c).
Proof.
  intros Hn Hf.
  assert (Old : forall m, In m (notes st) -> Note.folderId m = Some f ->
                  (forall id, op <> DeleteFolder id) ->
                  exists m, In m (notes st) /\ Note.folderId m = Some f
                            /\ forall id, op = DeleteFolder id -> f <> id).
  { intros m Hm E Hop. exists m. split; [assumption|]. split; [assumption|].
    intros id Eq. exfalso. now apply (Hop id). }
  destruct op; simpl in Hn;
    unfold updateNote, togglePin, moveToTrash, restoreFromTrash,
      deletePermanently, renameTag, deleteTag, updateFolder,
      getNotesFromStorage, getFoldersFromStorage in Hn.
  - left. apply (Old n); [assumption..|discriminate].
  - simpl in Hn. destruct Hn as [<-|Hn].
    + simpl in Hf. subst folderId. right. left. now exists newId, now, content.
    + left. apply (Old n); [assumption..|discriminate].
  - destruct (findIndex (hasId id) (notes st)); simpl in Hn;
      [|left; apply (Old n); [assumption..|discriminate]].
    apply In_updateAt in Hn. destruct Hn as [Hn|[x [Hx ->]]].
    + left. apply (Old n); [assumption..|discriminate].
    + destruct folderId as [|g]; simpl in Hf.
      * left. apply (Old x); [now apply nth_error_In in Hx|assumption|].
        discriminate.
      * subst g. right. right. now exists id, content, now.
  - destruct (findIndex (hasId id) (notes st)); simpl in Hn;
      [|left; apply (Old n); [assumption..|discriminate]].
    apply In_updateAt in Hn. destruct Hn as [Hn|[x [Hx ->]]].
    + left. apply (Old n); [assumption..|discriminate].
    + left. apply (Old x); [now apply nth_error_In in Hx|assumption|].
      discriminate.
  - destruct (findIndex (hasId id) (notes st)); simpl in Hn;
      [|left; apply (Old n); [assumption..|discriminate]].
    apply In_updateAt in Hn. destruct Hn as [Hn|[x [Hx ->]]].
    + left. apply (Old n); [assumption..|discriminate].
    + left. apply (Old x); [now apply nth_error_In in Hx|assumption|].
      discriminate.
  - destruct (findIndex (hasId id) (notes st)); simpl in Hn;
      [|left; apply (Old n); [assumption..|discriminate]].
    apply In_updateAt in Hn. destruct Hn as [Hn|[x [Hx ->]]].
    + left. apply (Old n); [assumption..|discriminate].
    + left. apply (Old x); [now apply nth_error_In in Hx|assumption|].
      discriminate.
  - simpl in Hn. apply filter_In in Hn. left.
    apply (Old n); [tauto|assumption|discriminate].
  - destruct (anyTagged oldTag (notes st)); simpl in Hn;
      [|left; apply (Old n); [assumption..|discriminate]].
    apply In_mapTagged in Hn. destruct Hn as [m [Hm E]].
    left. apply (Old m); [assumption|congruence|discriminate].
  - destruct (anyTagged tag (notes st)); simpl in Hn;
      [|left; apply (Old n); [assumption..|discriminate]].
    apply In_mapTagged in Hn. destruct Hn as [m [Hm E]].
    left. apply (Old m); [assumption|congruence|discriminate].
  - left. apply (Old n); [assumption..|discriminate].
  - destruct (findIndex (folderHasId id) (folders st)); simpl in Hn;
      left; apply (Old n); try assumption; discriminate.
  - change (In n (notes (deleteFolder id st))) in Hn.
    rewrite deleteFolder_notes in Hn. apply in_map_iff in Hn.
    destruct Hn as [m [<- Hm]]. left. exists m. split; [assumption|].
    pose proof (@detachNote_folderId id m) as D.
    unfold detachNote in *.
    destruct (nullable_streq (Note.folderId m) (Some id)); simpl in Hf;
      [discriminate|].
    split; [assumption|]. intros id' E. injection E as <-. congruence.
Qed.

(** Where the parent of a folder comes from after a call. *)
Lemma step_folder_parent op st g p :
  In g (folders (step op st)) -> Folder.parentId g = Some p ->
  (exists h, In h (folders st) /\ Folder.parentId h = Some p
             /\ forall id, op = DeleteFolder id -> p <> id)
  \/ (exists a b c, op = CreateFolder a b c (Some p)).
Proof.
  intros Hg Hp.
  assert (Old : forall h, In h (folders st) -> Folder.parentId h = Some p ->
                  (forall id, op <> DeleteFolder id) ->
                  exists h, In h (folders st) /\ Folder.parentId h = Some p
                            /\ forall id, op = DeleteFolder id -> p <> id).
  { intros h Hh E Hop. exists h. split; [assumption|]. split; [assumption|].
    intros id Eq. exfalso. now apply (Hop id). }
  destruct (noteCall op) eqn:N.
  - left.
    rewrite noteCall_folders in Hg by exact N.
    apply (Old g); try assumption.
    intros id Eq. subst op. discriminate N.
  - destruct op; try discriminate; simpl in Hg.
    + apply in_app_iff in Hg. destruct Hg as [Hg|[<-|[]]].
      * left. apply (Old g); [assumption..|discriminate].
      * simpl in Hp. subst parentId. right. now exists newId, now, name.
    + unfold updateFolder, getFoldersFromStorage in Hg.
      destruct (findIndex (folderHasId id) (folders st)); simpl in Hg;
        [|left; apply (Old g); [assumption..|discriminate]].
      apply In_updateAt in Hg. destruct Hg as [Hg|[x [Hx ->]]].
      * left. apply (Old g); [assumption..|discriminate].
      * left. apply (Old x); [now apply nth_error_In in Hx|assumption|].
        discriminate.
    + change (In g (folders (deleteFolder id st))) in Hg.
      apply In_deleteFolder_folders in Hg. destruct Hg as [_ [h [Hh ->]]].
      left. exists h. split; [assumption|].
      pose proof (@promoteFolder_parentId id h) as D.
      unfold promoteFolder in *.
      destruct (nullable_streq (Folder.parentId h) (Some id)); simpl in Hp;
        [discriminate|].
      split; [assumption|]. intros id' E. injection E as <-. congruence.
Qed.

Lemma step_noDanglingReference op st :
  namesStoredFolder op st = true ->
  noDanglingReference st -> noDanglingReference (step op st).
Proof.
  intros V [Hn Hf]. split.
  - intros n f In_n E.
    destruct (step_note_folder op st n In_n E)
      as [[m [Hm [Em D]]]|[[a [b [c ->]]]|[a [b [c ->]]]]].
    + apply folderExists_step; [now apply (Hn m)|exact D].
    + apply folderExists_step; [exact V|discriminate].
    + apply folderExists_step; [exact V|discriminate].
  - intros g p In_g E.
    destruct (step_folder_parent op st g In_g E)
      as [[h [Hh [Eh D]]]|[a [b [c ->]]]].
    + apply folderExists_step; [now apply (Hf h)|exact D].
    + apply folderExists_step; [exact V|discriminate].
Qed.

(** X8: when every call names stored folders only (as the folder of a
    note, or as the parent of a new folder), no note and no folder ever
    points to a folder that is not stored: each call keeps this,
    [deleteFolder] by detaching what pointed to the deleted folder, and it
    holds after every such run from the empty store. *)
Theorem references_stay_valid :
  (forall op st,
      namesStoredFolder op st = true ->
      noDanglingReference st -> noDanglingReference (step op st))
  /\ (forall ops,
         namesStoredFolders ops emptyStore = true ->
         noDanglingReference (run ops emptyStore)).
Proof.
  split; [apply step_noDanglingReference|].
  assert (G : forall ops st, namesStoredFolders ops st = true ->
                             noDanglingReference st ->
                             noDanglingReference (run ops st)).
  { induction ops as [|op r IH]; simpl; intros st F U; [exact U|].
    apply andb_true_iff in F. destruct F as [F1 F2].
    apply IH; [assumption|]. now apply step_noDanglingReference. }
  intros ops F. apply G; [assumption|]. split; intros ? ? [].
Qed.

Lemma references_stay_valid_witness :
  noDanglingReference
    (run [ CreateFolder (js "f1") tick (js "work") None;
           CreateFolder (js "f2") tick (js "drafts") (Some (js "f1"));
           CreateNote (js "n1") tick (js "a") (Some (js "f1"));
           DeleteFolder (js "f1") ] emptyStore).
Proof.
  apply (proj2 references_stay_valid). vm_compute. reflexivity.
Defined.

(* ================================================================== *)
(** * The folder tree *)

Lemma parentsFirst_app seen l1 l2 :
  parentsFirst seen (l1 ++ l2)
  = parentsFirst seen l1
    && parentsFirst (rev (map Folder.id l1) ++ seen) l2.
Proof.
  revert seen. induction l1 as [|f r IH]; intro seen; simpl; [reflexivity|].
  rewrite IH, <- app_assoc. simpl. now rewrite andb_assoc.
Qed.

Lemma parentsFirst_links seen l l' :
  map Folder.id l = map Folder.id l' ->
  map Folder.parentId l = map Folder.parentId l' ->
  parentsFirst seen l = parentsFirst seen l'.
Proof.
  revert seen l'. induction l as [|f r IH]; intros seen [|f' r'] Hi Hp;
    try discriminate; [reflexivity|].
  simpl in *. injection Hi as Ei Hi. injection Hp as Ep Hp.
  now rewrite Ei, Ep, (IH _ r').
Qed.

Lemma parentsFirst_delete id seen l :
  parentsFirst seen l = true ->
  parentsFirst (filter (fun i => negb (streq i id)) seen)
    (filter (fun f => negb (folderHasId id f)) (map (promoteFolder id) l))
  = true.
Proof.
  revert seen. induction l as [|f r IH]; intro seen; simpl; [reflexivity|].
  intro H. apply andb_true_iff in H. destruct H as [Hf Hr].
  apply IH in Hr. simpl in Hr. unfold folderHasId at 1.
  rewrite promoteFolder_id.
  destruct (streq (Folder.id f) id) eqn:E; simpl in *; [exact Hr|].
  rewrite promoteFolder_id, Hr, andb_true_r.
  unfold promoteFolder.
  destruct (nullable_streq (Folder.parentId f) (Some id)) eqn:N; simpl;
    [reflexivity|].
  destruct (Folder.parentId f) as [p|]; [|reflexivity].
  simpl in N. apply includes_In. apply filter_In.
  split; [now apply includes_In|]. now rewrite N.
Qed.

Lemma step_parentsFirst op st :
  namesStoredFolder op st = true ->
  parentsFirst [] (folders st) = true ->
  parentsFirst [] (folders (step op st)) = true.
Proof.
  intros V P. destruct (noteCall op) eqn:N.
  - now rewrite noteCall_folders.
  - destruct op; try discriminate; simpl.
    + unfold createFolder, getFoldersFromStorage. simpl.
      rewrite parentsFirst_app, P. simpl. rewrite andb_true_r.
      destruct parentId as [p|]; [|reflexivity]. simpl in V.
      apply includes_In. rewrite app_nil_r, <- in_rev.
      now apply folderExists_ids.
    + unfold updateFolder, getFoldersFromStorage.
      destruct (findIndex (folderHasId id) (folders st)); simpl;
        [|exact P].
      rewrite <- P. apply parentsFirst_links; now apply updateAt_map.
    + change (parentsFirst [] (folders (deleteFolder id st)) = true).
      rewrite deleteFolder_folders.
      now apply (@parentsFirst_delete id []).
Qed.

Lemma parentsFirst_rooted (L : list Folder.t) seen l :
  parentsFirst seen l = true ->
  (forall p, In p seen -> exists g, In g L /\ Folder.id g = p /\ rooted L g) ->
  (forall f, In f l -> In f L) ->
  forall f, In f l -> rooted L f.
Proof.
  revert seen. induction l as [|x r IH]; intros seen P S Sub f Hf;
    [destruct Hf|].
  simpl in P. apply andb_true_iff in P. destruct P as [Px Pr].
  assert (Rx : rooted L x).
  { destruct (Folder.parentId x) as [p|] eqn:E; [|now apply rooted_top].
    apply includes_In in Px. destruct (S p Px) as [g [Hg [Eg Rg]]].
    apply rooted_child with (g := g); [congruence|assumption..]. }
  destruct Hf as [<-|Hf]; [exact Rx|].
  apply (IH (Folder.id x :: seen)); try assumption.
  - intros p [<-|Hp]; [|now apply S].
    exists x. split; [apply Sub; now left|]. now split.
  - intros g Hg. apply Sub. now right.
Qed.

(** X9: a folder is created under a stored folder or under none, is never
    moved, and loses its parent when that one is deleted. So, when every
    call names stored folders only, every folder with a parent is stored
    behind a folder with the id of that parent; a call keeps this, and it
    makes every stored folder hang from a folder without a parent, which is
    what lets the sidebar reach it from the top of the tree. *)
Theorem folders_hang_from_a_root :
  (forall op st,
      namesStoredFolder op st = true ->
      parentsFirst [] (folders st) = true ->
      parentsFirst [] (folders (step op st)) = true)
  /\ (forall st,
         parentsFirst [] (folders st) = true ->
         forall f, In f (folders st) -> rooted (folders st) f)
  /\ (forall ops,
         namesStoredFolders ops emptyStore = true ->
         forall f, In f (folders (run ops emptyStore)) ->
                   rooted (folders (run ops emptyStore)) f).
Proof.
  assert (R : forall st, parentsFirst [] (folders st) = true ->
                forall f, In f (folders st) -> rooted (folders st) f).
  { intros st P. apply (@parentsFirst_rooted (folders st) [] (folders st) P).
    - intros p [].
    - auto. }
  split; [apply step_parentsFirst|]. split; [exact R|].
  assert (G : forall ops st, namesStoredFolders ops st = true ->
                parentsFirst [] (folders st) = true ->
                parentsFirst [] (folders (run ops st)) = true).
  { induction ops as [|op r IH]; simpl; intros st F U; [exact U|].
    apply andb_true_iff in F. destruct F as [F1 F2].
    apply IH; [assumption|]. now apply step_parentsFirst. }
  intros ops F. apply R. now apply G.
Qed.

Lemma folders_hang_from_a_root_witness :
  rooted (folders
            (run [ CreateFolder (js "f1") tick (js "work") None;
                   CreateFolder (js "f2") tick (js "drafts") (Some (js "f1"));
                   CreateFolder (js "f3") tick (js "old") (Some (js "f2")) ]
               emptyStore))
    (Folder.mk (js "f3") (js "old") (Some (js "f2")) (tick 0%nat)).
Proof.
  apply (proj2 (proj2 folders_hang_from_a_root)).
  - vm_compute. reflexivity.
  - right. right. left. reflexivity.
Defined.

(* ================================================================== *)
(** * Creating and deleting *)





(* ================================================================== *)
(** * Renaming a folder *)

Lemma updateFolder_found id name st i :
  findIndex (folderHasId id) (folders st) = Some i ->
  folders (updateFolder id name st) = updateAt i (setName name) (folders st).
Proof.
  intro E. unfold updateFolder, getFoldersFromStorage. now rewrite E.
Qed.

Lemma updateFolder_findIndex id id' name st :
  findIndex (folderHasId id') (folders (updateFolder id name st))
  = findIndex (folderHasId id') (folders st).
Proof.
  unfold updateFolder, getFoldersFromStorage.
  destruct (findIndex (folderHasId id) (folders st)); [|reflexivity].
  simpl. now apply findIndex_updateAt.
Qed.

(** X12: of two renamings of the same folder the second decides, and
    renaming a folder back to the name it had gives back the folders
    there were. *)
Theorem updateFolder_last_name_wins id a b st :
  folders (updateFolder id b (updateFolder id a st))
  = folders (updateFolder id b st)
  /\ (forall i f,
         findIndex (folderHasId id) (folders st) = Some i ->
         nth_error (folders st) i = Some f ->
         folders (updateFolder id (Folder.name f) (updateFolder id a st))
         = folders st).
Proof.
  assert (T : forall c i,
             findIndex (folderHasId id) (folders st) = Some i ->
             folders (updateFolder id c (updateFolder id a st))
             = updateAt i (setName c) (folders st)).
  { intros c i E.
    rewrite (@updateFolder_found id c (updateFolder id a st) i)
      by (now rewrite updateFolder_findIndex).
    rewrite (@updateFolder_found id a st i E), updateAt_twice.
    reflexivity. }
  split.
  - destruct (findIndex (folderHasId id) (folders st)) as [i|] eqn:E.
    + now rewrite (T b i eq_refl), (@updateFolder_found id b st i E).
    + assert (U : forall c, updateFolder id c st = st).
      { intro c. unfold updateFolder, getFoldersFromStorage. now rewrite E. }
      now rewrite !U.
  - intros i f E Hf. rewrite (T _ i E).
    clear T E. revert i Hf.
    induction (folders st) as [|x r IH]; intros [|i] Hf; simpl in *;
      try discriminate.
    + injection Hf as ->. now destruct f.
    + f_equal. now apply IH.
Qed.

Lemma updateFolder_last_name_wins_witness :
  folders (updateFolder (js "f1") (js "work")
             (updateFolder (js "f1") (js "other")
                (snd (createFolder (js "f1") tick (js "work") None
                        emptyStore))))
  = folders (snd (createFolder (js "f1") tick (js "work") None emptyStore)).
Proof.
  apply (proj2 (@updateFolder_last_name_wins (js "f1") (js "other")
                  (js "x")
                  (snd (createFolder (js "f1") tick (js "work") None
                          emptyStore)))
           0%nat (Folder.mk (js "f1") (js "work") None (tick 0%nat)));
    reflexivity.
Defined.

(* ================================================================== *)
(** * Listing the folders *)

Section SortAny.
Variable A : Type.
Variable cmp : A -> A -> Z.

Lemma insertSorted_Permutation x (l : list A) :
  Permutation (insertSorted cmp x l) (x :: l).
Proof.
  induction l as [|y r IH]; simpl; [reflexivity|].
  destruct (cmp x y <=? 0)%Z; [reflexivity|].
  rewrite IH. apply perm_swap.
Qed.

Lemma sort_Permutation (l : list A) : Permutation (sort cmp l) l.
Proof.
  induction l as [|x r IH]; simpl; [reflexivity|].
  rewrite insertSorted_Permutation. now constructor.
Qed.

Hypothesis total : forall a b, (cmp a b <= 0)%Z \/ (cmp b a <= 0)%Z.
Hypothesis trans :
  forall a b c, (cmp a b <= 0)%Z -> (cmp b c <= 0)%Z -> (cmp a c <= 0)%Z.

Lemma insertSorted_StronglySorted x (l : list A) :
  StronglySorted (fun a b => (cmp a b <= 0)%Z) l ->
  StronglySorted (fun a b => (cmp a b <= 0)%Z) (insertSorted cmp x l).
Proof.
  induction 1 as [|y r Hr IH Hy]; simpl.
  - repeat constructor.
  - destruct (cmp x y <=? 0)%Z eqn:E.
    + apply Z.leb_le in E. constructor; [now constructor|].
      constructor; [exact E|].
      eapply Forall_impl; [|exact Hy]. intros z Hz. now apply trans with y.
    + apply Z.leb_gt in E. constructor; [exact IH|].
      apply (Permutation_Forall
               (Permutation_sym (insertSorted_Permutation x r))).
      constructor; [|exact Hy]. destruct (total x y); [lia|assumption].
Qed.

Lemma sort_StronglySorted (l : list A) :
  StronglySorted (fun a b => (cmp a b <= 0)%Z) (sort cmp l).
Proof.
  induction l as [|x r IH]; simpl; [constructor|].
  now apply insertSorted_StronglySorted.
Qed.

(** Elements of one class, where an element is not behind the elements of
    its class, keep their order. *)
Variable class : A -> bool.
Hypothesis class_together :
  forall a b, class a = true -> class b = true -> (cmp a b <= 0)%Z.

Lemma insertSorted_class x (l : list A) :
  filter class (insertSorted cmp x l) = filter class (x :: l).
Proof.
  induction l as [|y r IH]; [reflexivity|].
  simpl insertSorted. destruct (cmp x y <=? 0)%Z eqn:E; [reflexivity|].
  apply Z.leb_gt in E.
  change (filter class (y :: insertSorted cmp x r))
    with (if class y then y :: filter class (insertSorted cmp x r)
          else filter class (insertSorted cmp x r)).
  rewrite IH. simpl.
  destruct (class x) eqn:Ex; destruct (class y) eqn:Ey; try reflexivity.
  pose proof (class_together Ex Ey). lia.
Qed.

Lemma sort_class (l : list A) : filter class (sort cmp l) = filter class l.
Proof.
  induction l as [|x r IH]; [reflexivity|].
  change (sort cmp (x :: r)) with (insertSorted cmp x (sort cmp r)).
  rewrite insertSorted_class. simpl. now rewrite IH.
Qed.
End SortAny.

Lemma byLength_ordersNames : ordersNames byLength.
Proof. unfold ordersNames, byLength. split; intros; lia. Qed.

(** X13: for every comparator of names, [getAllFolders] returns the stored
    folders, each as often as it is stored. When the comparator orders the
    names, as [localeCompare] does, no folder of the result has to follow
    a later one, and the folders of one name are in the order in which they
    are stored. *)
Theorem getAllFolders_sorts_by_name localeCompare st :
  Permutation (getAllFolders localeCompare st) (folders st)
  /\ (ordersNames localeCompare ->
      StronglySorted (nameOrder localeCompare) (getAllFolders localeCompare st)
      /\ forall name,
           filter (named name) (getAllFolders localeCompare st)
           = filter (named name) (folders st)).
Proof.
  split; [apply sort_Permutation|]. intros [total trans]. split.
  - apply (@sort_StronglySorted Folder.t (byName localeCompare)).
    + intros a b. apply total.
    + intros a b c. apply trans.
  - intro name. apply sort_class. intros a b Ha Hb. unfold named in *.
    apply streq_true in Ha, Hb. unfold byName. rewrite Ha, Hb.
    destruct (total name name); assumption.
Qed.

Lemma getAllFolders_sorts_by_name_witness :
  StronglySorted (nameOrder byLength) (getAllFolders byLength tree).
Proof.
  apply (proj2 (getAllFolders_sorts_by_name byLength tree)).
  apply byLength_ordersNames.
Defined.

(* ================================================================== *)
(** * Tags after a renaming and after a deletion *)

Lemma TagIn_nil t : ~ TagIn t [].
Proof. intros [pre [post [E _]]]. destruct pre; discriminate E. Qed.

Lemma TagIn_cons t c s :
  TagIn t (c :: s) <-> (tagName t /\ TokenAt t (c :: s)) \/ TagIn t s.
Proof.
  split.
  - intros [pre [post [E [H1 [H2 H3]]]]]. destruct pre as [|d pre]; simpl in E.
    + left. split; [now split|]. exists post. now split.
    + injection E as -> ->. right. exists pre, post. auto.
  - intros [[[H1 H2] [post [E H3]]]|[pre [post [E H]]]].
    + exists [], post. simpl. auto.
    + exists (c :: pre), post. simpl. rewrite E. auto.
Qed.

Lemma TokenAt_hash t c s : TokenAt t (c :: s) -> c = HASH.
Proof. intros [rest [E _]]. now injection E. Qed.

Lemma TagIn_skip t c s : c <> HASH -> (TagIn t (c :: s) <-> TagIn t s).
Proof.
  intro H. rewrite TagIn_cons. split; [|tauto].
  intros [[_ T]|T]; [|exact T]. apply TokenAt_hash in T. contradiction.
Qed.

Lemma tagChar_not_hash c : isTagChar c = true -> c <> HASH.
Proof. intros H ->. discriminate H. Qed.

Lemma space_not_hash c : isSpace c = true -> c <> HASH.
Proof. intros H ->. discriminate H. Qed.

Lemma TagIn_run t w s :
  Forall (fun c => isTagChar c = true) w -> (TagIn t (w ++ s) <-> TagIn t s).
Proof.
  induction 1 as [|d w Hd Hw IH]; simpl; [tauto|].
  rewrite TagIn_skip by now apply tagChar_not_hash. exact IH.
Qed.

Lemma TagIn_spaces t w s :
  Forall (fun c => isSpace c = true) w -> (TagIn t (w ++ s) <-> TagIn t s).
Proof.
  induction 1 as [|d w Hd Hw IH]; simpl; [tauto|].
  rewrite TagIn_skip by now apply space_not_hash. exact IH.
Qed.

(** Behind a hash sign stands one token at most: the longest run. *)
Lemma token_of_run t w post :
  Forall (fun c => isTagChar c = true) t ->
  Forall (fun c => isTagChar c = true) w ->
  headIs isTagChar post = false ->
  (TokenAt t (HASH :: w ++ post) <-> t = w).
Proof.
  intros Ht Hw Hp. split.
  - intros [rest [E Hr]]. injection E as E.
    destruct (takeWhile_run isTagChar post Hw Hp) as [T _].
    destruct (takeWhile_run isTagChar rest Ht Hr) as [T' _].
    rewrite E in T. congruence.
  - intros ->. now exists post.
Qed.

Lemma tagName_dollarFree t : tagName t -> dollarFree (HASH :: t).
Proof.
  intros [_ H]. apply dollarFree_hash. intro I.
  rewrite Forall_forall in H. apply H in I. discriminate I.
Qed.

(** ** The content after a renaming *)

Section Renamed.
Variables old new : jsstring.
Hypothesis old_name : tagName old.
Hypothesis new_name : tagName new.
Local Abbreviation Renamed := (Rewritten old (HASH :: new)).

Lemma Renamed_head s out :
  Renamed s out -> headIs isTagChar out = headIs isTagChar s.
Proof. destruct 1; reflexivity. Qed.

Lemma Renamed_run w :
  Forall (fun c => isTagChar c = true) w ->
  forall s out,
    Renamed s out ->
    (forall post, s = w ++ post ->
                  exists post', out = w ++ post' /\ Renamed post post')
    /\ (forall post', out = w ++ post' ->
                      exists post, s = w ++ post /\ Renamed post post').
Proof.
  induction 1 as [|d w Hd Hw IH]; intros s out R.
  - split; intros p ->; eexists; (split; [reflexivity | exact R]).
  - apply tagChar_not_hash in Hd. split.
    + intros post E. subst s. simpl in R.
      inversion R as [|rest out' Hrest R' E1 E2|c rest out' Hc R' E1 E2];
        subst; [congruence|].
      destruct (proj1 (IH _ _ R') post eq_refl) as [post' [-> R2]].
      now exists post'.
    + intros post' E. subst out. simpl in R.
      inversion R as [|rest out' Hrest R' E1|c rest out' Hc R' E1];
        subst; [congruence|].
      destruct (proj2 (IH _ _ R') post' eq_refl) as [post [-> R2]].
      now exists post.
Qed.

Lemma Renamed_token t c s out :
  tagName t -> Renamed s out ->
  (TokenAt t (c :: out) <-> TokenAt t (c :: s)).
Proof.
  intros [_ Ht] R. split.
  - intros [post' [E Hp]]. injection E as -> E.
    destruct (proj2 (Renamed_run Ht R) post' E) as [post [-> R2]].
    exists post. split; [reflexivity|]. now rewrite <- (Renamed_head R2).
  - intros [post [E Hp]]. injection E as -> E.
    destruct (proj1 (Renamed_run Ht R) post E) as [post' [-> R2]].
    exists post'. split; [reflexivity|]. now rewrite (Renamed_head R2).
Qed.

(** The tags of a content after the renaming: the new name where the old
    one was, and the others. *)
Lemma Renamed_tags s out :
  Renamed s out ->
  forall t, TagIn t out <-> (t = new /\ TagIn old s) \/ (t <> old /\ TagIn t s).
Proof.
  intros R t. induction R as [|rest out Hrest R IH|c rest out Hc R IH].
  - split; [intro H; now apply TagIn_nil in H|].
    intros [[_ H]|[_ H]]; now apply TagIn_nil in H.
  - assert (Hout : headIs isTagChar out = false)
      by (now rewrite (Renamed_head R)).
    change ((HASH :: new) ++ out) with (HASH :: new ++ out).
    rewrite !TagIn_cons.
    rewrite (TagIn_run t out (proj2 new_name)).
    rewrite (TagIn_run t rest (proj2 old_name)).
    rewrite (TagIn_run old rest (proj2 old_name)).
    assert (A1 : tagName t /\ TokenAt t (HASH :: new ++ out) <-> t = new).
    { split.
      - intros [[_ Ht] T].
        now apply (token_of_run out Ht (proj2 new_name) Hout).
      - intros ->. split; [exact new_name | now exists out]. }
    assert (A2 : tagName t /\ TokenAt t (HASH :: old ++ rest) <-> t = old).
    { split.
      - intros [[_ Ht] T].
        now apply (token_of_run rest Ht (proj2 old_name) Hrest).
      - intros ->. split; [exact old_name | now exists rest]. }
    assert (A3 : tagName old /\ TokenAt old (HASH :: old ++ rest)).
    { split; [exact old_name | now exists rest]. }
    destruct (jsstring_dec t old); tauto.
  - rewrite !TagIn_cons.
    assert (A : tagName t /\ TokenAt t (c :: out)
                <-> tagName t /\ TokenAt t (c :: rest)).
    { split; intros [N T]; (split; [exact N|]);
        now apply (Renamed_token c N R). }
    assert (B : TokenAt t (c :: rest) -> t <> old) by (intros T ->; auto).
    tauto.
Qed.

End Renamed.

(** Renaming a tag to its own name changes nothing in a content. *)
Lemma Renamed_same tag s out : Rewritten tag (HASH :: tag) s out -> out = s.
Proof.
  induction 1 as [|rest out Hrest R IH|c rest out Hc R IH]; simpl; congruence.
Qed.

(** ** The content after a deletion *)

Section Removed.
Variable tag : jsstring.
Hypothesis tag_name : tagName tag.
Local Abbreviation Removed := (Rewritten tag []).

Lemma Removed_run w :
  Forall (fun c => isTagChar c = true) w ->
  forall s out post,
    Removed s out -> s = w ++ post ->
    exists post', out = w ++ post' /\ Removed post post'.
Proof.
  induction 1 as [|d w Hd Hw IH]; intros s out post R E.
  - subst s. now exists out.
  - apply tagChar_not_hash in Hd. subst s. simpl in R.
    inversion R as [|rest out' Hrest R' E1 E2|c rest out' Hc R' E1 E2];
      subst; [congruence|].
    destruct (IH _ _ post R' eq_refl) as [post' [-> R2]]. now exists post'.
Qed.

Lemma Removed_token t c s out :
  tagName t -> Removed s out -> ~ TokenAt tag (c :: s) ->
  (TokenAt t (c :: out) <-> TokenAt t (c :: s)).
Proof.
  intros [_ Ht] R Hc. split.
  - intros [post' [E Hp]]. injection E as -> E. subst out.
    destruct (Removed_prefix Ht _ R) as [post [-> R2]].
    exists post. split; [reflexivity|]. now apply (Removed_head_back R2).
  - intros [post [E Hp]]. injection E as -> E.
    destruct (Removed_run Ht post R E) as [post' [-> R2]].
    exists post'. split; [reflexivity|]. now apply (Removed_head R2).
Qed.

Lemma Removed_tags s out :
  Removed s out ->
  forall t, TagIn t out <-> t <> tag /\ TagIn t s.
Proof.
  intros R t. induction R as [|rest out Hrest R IH|c rest out Hc R IH].
  - split; [intro H; now apply TagIn_nil in H|].
    intros [_ H]; now apply TagIn_nil in H.
  - simpl. rewrite TagIn_cons, (TagIn_run t rest (proj2 tag_name)).
    assert (A2 : tagName t /\ TokenAt t (HASH :: tag ++ rest) -> t = tag).
    { intros [[_ Ht] T].
      now apply (token_of_run rest Ht (proj2 tag_name) Hrest). }
    tauto.
  - rewrite !TagIn_cons.
    assert (A : tagName t /\ TokenAt t (c :: out)
                <-> tagName t /\ TokenAt t (c :: rest)).
    { split; intros [N T]; (split; [exact N|]);
        now apply (Removed_token N R Hc). }
    assert (B : TokenAt t (c :: rest) -> t <> tag) by (intros T ->; auto).
    tauto.
Qed.
End Removed.

(** ** The content after the collapse of white space *)

Lemma Collapsed_tagChar_head s out :
  Collapsed s out -> headIs isTagChar out = headIs isTagChar s.
Proof.
  destruct 1 as [|ws rest out Hlen Hws Hrest H|c rest out Hc H];
    simpl; try reflexivity.
  destruct Hws as [|d ws Hd Hws]; simpl in *; [lia|].
  symmetry. now apply isSpace_not_tagChar.
Qed.

Lemma Collapsed_run w :
  Forall (fun c => isTagChar c = true) w ->
  forall s out post,
    Collapsed s out -> s = w ++ post ->
    exists post', out = w ++ post' /\ Collapsed post post'.
Proof.
  induction 1 as [|d w Hd Hw IH]; intros s out post C E.
  - subst s. now exists out.
  - subst s. simpl in C.
    inversion C as [|ws rest out' Hlen Hws Hrest C' E1 E2
                    |c rest out' Hc C' E1 E2]; subst.
    + exfalso. destruct Hws as [|e ws He Hws]; simpl in *; [lia|].
      injection E1 as -> _. apply isTagChar_not_space in Hd. congruence.
    + destruct (IH _ _ post C' eq_refl) as [post' [-> C2]]. now exists post'.
Qed.

Lemma Collapsed_tags s out :
  Collapsed s out -> forall t, TagIn t out <-> TagIn t s.
Proof.
  intros C t.
  induction C as [|ws rest out Hlen Hws Hrest C IH|c rest out Hc C IH].
  - tauto.
  - rewrite (TagIn_spaces t rest Hws).
    rewrite TagIn_skip by (now apply space_not_hash). exact IH.
  - rewrite !TagIn_cons.
    assert (A : tagName t /\ TokenAt t (c :: out)
                <-> tagName t /\ TokenAt t (c :: rest)).
    { split; intros [[N Ht] T]; (split; [now split|]).
      - destruct T as [post' [E Hp]]. injection E as -> E. subst out.
        assert (Hns : Forall (fun c => isSpace c = false) t).
        { eapply Forall_impl; [|exact Ht]. apply isTagChar_not_space. }
        destruct (Collapsed_prefix Hns _ C) as [post [-> C2]].
        exists post. split; [reflexivity|].
        now rewrite <- (Collapsed_tagChar_head C2).
      - destruct T as [post [E Hp]]. injection E as -> E.
        destruct (Collapsed_run Ht post C E) as [post' [-> C2]].
        exists post'. split; [reflexivity|].
        now rewrite (Collapsed_tagChar_head C2). }
    tauto.
Qed.

Lemma deleteContent_tags tag content t :
  tagName tag ->
  TagIn t (deleteContent tag content) <-> t <> tag /\ TagIn t content.
Proof.
  intro N. destruct (deleteContent_steps tag content) as [mid [R [C _]]].
  rewrite (Collapsed_tags C), (Removed_tags N R). tauto.
Qed.

Lemma renameContent_tags old new content t :
  tagName old -> tagName new ->
  TagIn t (renameContent old new content)
  <-> (t = new /\ TagIn old content) \/ (t <> old /\ TagIn t content).
Proof.
  intros No Nn. apply Renamed_tags; try assumption.
  apply replaceWith_Rewritten. now apply tagName_dollarFree.
Qed.

Lemma renameContent_same tag content :
  tagName tag -> renameContent tag tag content = content.
Proof.
  intro N. apply (@Renamed_same tag content).
  apply replaceWith_Rewritten. now apply tagName_dollarFree.
Qed.

(** ** The notes after a renaming and after a deletion *)

Lemma carried_tagName n tag :
  tagsDerived n -> In tag (Note.tags n) -> tagName tag.
Proof.
  intros D H. destruct (@carried_tag_is_plain n tag D H) as [_ K]. exact K.
Qed.

Lemma tagsDerived_TagIn n t :
  tagsDerived n -> (In t (Note.tags n) <-> TagIn t (Note.content n)).
Proof. intros ->. apply (proj2 (extractTags_spec _)). Qed.

(** What [mapTagged] does to the tags of the notes, given what the edit
    does to the tags of a content. *)
Lemma mapTagged_tags tag edit now (keep : jsstring -> Prop) :
  (forall n t, tagsDerived n -> In tag (Note.tags n) ->
               (TagIn t (edit (Note.content n))
                <-> keep t \/ (t <> tag /\ TagIn t (Note.content n)))) ->
  forall l k i n,
    Forall tagsDerived l ->
    nth_error l i = Some n ->
    exists n',
      nth_error (mapTagged tag edit now k l) i = Some n'
      /\ Note.isTrashed n' = Note.isTrashed n
      /\ (forall t, In t (Note.tags n') <->
                    (keep t /\ In tag (Note.tags n))
                    \/ (t <> tag /\ In t (Note.tags n))).
Proof.
  intros Hedit l k i n D Hn.
  rewrite (@mapTagged_nth tag edit now k l i n Hn).
  assert (Dn : tagsDerived n).
  { rewrite Forall_forall in D. apply D. now apply nth_error_In in Hn. }
  destruct (includes tag (Note.tags n)) eqn:E.
  - apply includes_In in E. eexists. split; [reflexivity|].
    split; [reflexivity|]. intro t. simpl.
    rewrite (proj2 (extractTags_spec _)), (Hedit n t Dn E).
    rewrite (tagsDerived_TagIn t Dn). tauto.
  - assert (Ne : ~ In tag (Note.tags n)).
    { intro I. apply includes_In in I. congruence. }
    exists n. split; [reflexivity|]. split; [reflexivity|]. intro t.
    split; [|tauto]. intro I. right. split; [|exact I]. now intros ->.
Qed.

Lemma retag_notes tag edit now st :
  notes (if anyTagged tag (notes st)
         then saveNotesToStorage (mapTagged tag edit now 0 (notes st)) st
         else st)
  = mapTagged tag edit now 0 (notes st).
Proof.
  destruct (anyTagged tag (notes st)) eqn:E; [reflexivity|].
  now rewrite mapTagged_untagged.
Qed.

Lemma renameTag_notes oldTag newTag now st :
  notes (renameTag oldTag newTag now st)
  = mapTagged oldTag (renameContent oldTag newTag) now 0 (notes st).
Proof. apply retag_notes. Qed.

Lemma deleteTag_notes tag now st :
  notes (deleteTag tag now st)
  = mapTagged tag (deleteContent tag) now 0 (notes st).
Proof. apply retag_notes. Qed.

Lemma renameTag_note_tags st oldTag newTag now i n :
  tagName newTag -> allNotes tagsDerived st ->
  nth_error (notes st) i = Some n ->
  exists n',
    nth_error (notes (renameTag oldTag newTag now st)) i = Some n'
    /\ Note.isTrashed n' = Note.isTrashed n
    /\ (forall t, In t (Note.tags n') <->
                  (t = newTag /\ In oldTag (Note.tags n))
                  \/ (t <> oldTag /\ In t (Note.tags n))).
Proof.
  intros N D Hn. rewrite renameTag_notes.
  apply (@mapTagged_tags oldTag (renameContent oldTag newTag) now
           (fun t => t = newTag)); try assumption.
  intros m t Dm Im. rewrite renameContent_tags;
    [|exact (@carried_tagName m oldTag Dm Im)|assumption].
  apply (tagsDerived_TagIn oldTag Dm) in Im. tauto.
Qed.

Lemma deleteTag_note_tags st tag now i n :
  allNotes tagsDerived st ->
  nth_error (notes st) i = Some n ->
  exists n',
    nth_error (notes (deleteTag tag now st)) i = Some n'
    /\ Note.isTrashed n' = Note.isTrashed n
    /\ (forall t, In t (Note.tags n') <-> t <> tag /\ In t (Note.tags n)).
Proof.
  intros D Hn. rewrite deleteTag_notes.
  destruct (@mapTagged_tags tag (deleteContent tag) now (fun _ => False))
    with (l := notes st) (k := 0%nat) (i := i) (n := n)
    as [n' [H1 [H2 H3]]]; try assumption.
  - intros m t Dm Im. rewrite deleteContent_tags;
      [tauto | exact (@carried_tagName m tag Dm Im)].
  - exists n'. split; [exact H1|]. split; [exact H2|]. intro t.
    rewrite H3. tauto.
Qed.

(** Notes that correspond, position by position. *)
Lemma In_both_nth (l l' : list Note.t) n' :
  length l' = length l -> In n' l' ->
  exists i n, nth_error l i = Some n /\ nth_error l' i = Some n'.
Proof.
  intros L I. apply In_nth_error in I. destruct I as [i Hi].
  assert (B : (i < length l)%nat).
  { rewrite <- L. apply nth_error_Some. congruence. }
  apply nth_error_Some in B.
  destruct (nth_error l i) as [n|] eqn:E; [|congruence]. now exists i, n.
Qed.

Lemma carriesLive_agree (l l' : list Note.t) t :
  length l' = length l ->
  (forall i n, nth_error l i = Some n ->
               exists n', nth_error l' i = Some n'
                          /\ carriesLive t n' = carriesLive t n) ->
  length (filter (carriesLive t) l') = length (filter (carriesLive t) l).
Proof.
  revert l'. induction l as [|n r IH]; intros [|n' r'] L H;
    try discriminate; [reflexivity|].
  destruct (H 0%nat n eq_refl) as [m [E C]]. injection E as ->.
  simpl. rewrite C.
  assert (R : length (filter (carriesLive t) r')
              = length (filter (carriesLive t) r)).
  { apply IH; [simpl in L; lia|]. intros i x Hx. apply (H (S i) x Hx). }
  destruct (carriesLive t n); simpl; now rewrite R.
Qed.

Lemma carriesLive_same_tags t n n' :
  Note.isTrashed n' = Note.isTrashed n ->
  (In t (Note.tags n') <-> In t (Note.tags n)) ->
  carriesLive t n' = carriesLive t n.
Proof.
  intros E H. unfold carriesLive. rewrite E. f_equal.
  destruct (includes t (Note.tags n)) eqn:A.
  - apply includes_In. apply H. now apply includes_In.
  - destruct (includes t (Note.tags n')) eqn:B; [|reflexivity].
    apply includes_In, H, includes_In in B. congruence.
Qed.

(** X14: [renameTag] with a new name of tag characters moves the tag: a
    note then carries the new name if it carried the old one, and apart
    from that the tags it carried, without the old one. So, when the names
    differ, no note carries the old name any more and the tag list does
    not show it; the new name is in the tag list when a note outside the
    trash carried the old one; and every third tag keeps its count. *)
Theorem renameTag_moves_the_tag st oldTag newTag now :
  tagName newTag ->
  allNotes tagsDerived st ->
  let st' := renameTag oldTag newTag now st in
  (forall i n,
      nth_error (notes st) i = Some n ->
      exists n',
        nth_error (notes st') i = Some n'
        /\ (forall t, In t (Note.tags n') <->
                      (t = newTag /\ In oldTag (Note.tags n))
                      \/ (t <> oldTag /\ In t (Note.tags n))))
  /\ (newTag <> oldTag ->
      (forall n', In n' (notes st') -> ~ In oldTag (Note.tags n'))
      /\ ~ In oldTag (map fst (getTags st')))
  /\ ((exists n, In n (notes st) /\ Note.isTrashed n = false
                 /\ In oldTag (Note.tags n)) ->
      In newTag (map fst (getTags st')))
  /\ (forall t c, t <> oldTag -> t <> newTag ->
                  (In (t, c) (getTags st') <-> In (t, c) (getTags st))).
Proof.
  intros N D st'.
  assert (D' : allNotes tagsDerived st').
  { apply (step_tagsDerived (RenameTag oldTag newTag now) D). }
  assert (L : length (notes st') = length (notes st)).
  { unfold st'. rewrite renameTag_notes. apply mapTagged_length. }
  assert (Gone : newTag <> oldTag ->
                 forall n', In n' (notes st') -> ~ In oldTag (Note.tags n')).
  { intros Ne n' I' C.
    destruct (@In_both_nth (notes st) (notes st') n' L I')
      as [i [n [Hn Hn']]].
    destruct (@renameTag_note_tags st oldTag newTag now i n N D Hn)
      as [m [Hm [_ T]]].
    fold st' in Hm. rewrite Hn' in Hm. injection Hm as <-.
    apply T in C. destruct C as [[C _]|[C _]]; congruence. }
  split; [|split; [|split]].
  - intros i n Hn.
    destruct (@renameTag_note_tags st oldTag newTag now i n N D Hn)
      as [n' [H1 [_ H2]]].
    now exists n'.
  - intro Ne. split; [now apply Gone|]. fold (keys (getTags st')).
    rewrite (getTags_listed oldTag D'), carriesLive_length.
    intros [n' [I' [_ C]]]. exact (Gone Ne n' I' C).
  - intros [n [I [Tr C]]]. fold (keys (getTags st')).
    rewrite (getTags_listed newTag D'), carriesLive_length.
    apply In_nth_error in I. destruct I as [i Hn].
    destruct (@renameTag_note_tags st oldTag newTag now i n N D Hn)
      as [n' [H1 [H2 H3]]].
    exists n'. split; [now apply nth_error_In in H1|].
    split; [congruence|]. apply H3. now left.
  - intros t c Ho Hn.
    rewrite (@getTags_entry st' t c D'), (@getTags_entry st t c D).
    assert (E : length (filter (carriesLive t) (notes st'))
                = length (filter (carriesLive t) (notes st))).
    { apply carriesLive_agree; [exact L|]. intros i n Hi.
      destruct (@renameTag_note_tags st oldTag newTag now i n N D Hi)
        as [n' [H1 [H2 H3]]].
      exists n'. split; [exact H1|].
      apply carriesLive_same_tags; [exact H2|]. rewrite H3. tauto. }
    now rewrite E.
Qed.

Lemma renameTag_moves_the_tag_witness :
  ~ In (js "idea") (map fst (getTags (renameTag (js "idea") (js "plan") tick
                                        ideaStore))).
Proof.
  destruct (@renameTag_moves_the_tag ideaStore (js "idea") (js "plan") tick)
    as (_ & H & _).
  - split; [discriminate | repeat constructor].
  - repeat constructor.
  - apply H. discriminate.
Defined.

Lemma mapTagged_withoutUpdatedAt tag edit now k l :
  (forall n, In n l -> In tag (Note.tags n) ->
             edit (Note.content n) = Note.content n
             /\ extractTags (Note.content n) = Note.tags n) ->
  map withoutUpdatedAt (mapTagged tag edit now k l) = map withoutUpdatedAt l.
Proof.
  revert k. induction l as [|n r IH]; intros k H; simpl; [reflexivity|].
  assert (Hr : forall m, In m r -> In tag (Note.tags m) ->
                         edit (Note.content m) = Note.content m
                         /\ extractTags (Note.content m) = Note.tags m).
  { intros m Hm. apply H. now right. }
  destruct (includes tag (Note.tags n)) eqn:E; simpl; rewrite (IH _ Hr);
    [|reflexivity].
  apply includes_In in E. destruct (H n (or_introl eq_refl) E) as [E1 E2].
  f_equal. unfold withoutUpdatedAt, retagged. simpl. now rewrite E1, E2.
Qed.

(** X15: renaming a tag to its own name rewrites no content and changes
    no tag, but it is not without effect: every note that carries the tag
    is written back with [updatedAt] read from the clock. *)
Theorem renameTag_to_itself st tag now :
  allNotes tagsDerived st ->
  let st' := renameTag tag tag now st in
  map withoutUpdatedAt (notes st') = map withoutUpdatedAt (notes st)
  /\ folders st' = folders st
  /\ (forall i n,
        nth_error (notes st) i = Some n ->
        In tag (Note.tags n) ->
        exists n',
          nth_error (notes st') i = Some n'
          /\ Note.updatedAt n'
             = now (taggedBefore tag i (notes st))).
Proof.
  intros D st'. unfold st'. rewrite renameTag_notes.
  split; [|split].
  - apply mapTagged_withoutUpdatedAt. intros n I C.
    assert (Dn : tagsDerived n).
    { unfold allNotes in D. rewrite Forall_forall in D. now apply D. }
    split; [|now rewrite Dn].
    apply renameContent_same. exact (@carried_tagName n tag Dn C).
  - apply (noteCall_folders (RenameTag tag tag now) st eq_refl).
  - intros i n Hn C. rewrite (@mapTagged_nth tag _ now 0%nat _ i n Hn).
    apply includes_In in C. rewrite C. eexists. split; reflexivity.
Qed.

Lemma renameTag_to_itself_witness :
  map withoutUpdatedAt (notes (renameTag (js "idea") (js "idea") tick
                                 ideaStore))
  = map withoutUpdatedAt (notes ideaStore).
Proof.
  destruct (@renameTag_to_itself ideaStore (js "idea") tick) as (H & _).
  - repeat constructor.
  - exact H.
Defined.

(** X16: [deleteTag] takes the tag from the notes and nothing else: a note
    afterwards carries the tags it carried, without the deleted one. So the
    tag list does not show the tag any more, and every other tag is listed
    with the count it had. *)
Theorem deleteTag_takes_only_the_tag st tag now :
  allNotes tagsDerived st ->
  let st' := deleteTag tag now st in
  (forall i n,
      nth_error (notes st) i = Some n ->
      exists n',
        nth_error (notes st') i = Some n'
        /\ (forall t, In t (Note.tags n') <-> t <> tag /\ In t (Note.tags n)))
  /\ ~ In tag (map fst (getTags st'))
  /\ (forall t c, t <> tag ->
                  (In (t, c) (getTags st') <-> In (t, c) (getTags st))).
Proof.
  intros D st'.
  assert (D' : allNotes tagsDerived st').
  { apply (step_tagsDerived (DeleteTag tag now) D). }
  assert (L : length (notes st') = length (notes st)).
  { unfold st'. rewrite deleteTag_notes. apply mapTagged_length. }
  split; [|split].
  - intros i n Hn.
    destruct (@deleteTag_note_tags st tag now i n D Hn) as [n' [H1 [_ H2]]].
    now exists n'.
  - fold (keys (getTags st')).
    rewrite (getTags_listed tag D'), carriesLive_length.
    intros [n' [I' [_ C]]].
    destruct (@In_both_nth (notes st) (notes st') n' L I')
      as [i [n [Hn Hn']]].
    destruct (@deleteTag_note_tags st tag now i n D Hn) as [m [Hm [_ T]]].
    fold st' in Hm. rewrite Hn' in Hm. injection Hm as <-.
    apply T in C. now destruct C.
  - intros t c Ne.
    rewrite (@getTags_entry st' t c D'), (@getTags_entry st t c D).
    assert (E : length (filter (carriesLive t) (notes st'))
                = length (filter (carriesLive t) (notes st))).
    { apply carriesLive_agree; [exact L|]. intros i n Hi.
      destruct (@deleteTag_note_tags st tag now i n D Hi) as [n' [H1 [H2 H3]]].
      exists n'. split; [exact H1|].
      apply carriesLive_same_tags; [exact H2|]. rewrite H3. tauto. }
    now rewrite E.
Qed.

Lemma deleteTag_takes_only_the_tag_witness :
  ~ In (js "idea") (map fst (getTags (deleteTag (js "idea") tick checkStore))).
Proof.
  destruct (@deleteTag_takes_only_the_tag checkStore (js "idea") tick)
    as (_ & H & _).
  - repeat constructor.
  - exact H.
Defined.

(* ================================================================== *)
(** * The list of notes *)

Lemma filter_Permutation (A : Type) (p : A -> bool) (l l' : list A) :
  Permutation l l' -> Permutation (filter p l) (filter p l').
Proof.
  induction 1 as [|x l l' H IH|x y l|l l' l'' H1 IH1 H2 IH2]; simpl.
  - constructor.
  - destruct (p x); [now constructor | exact IH].
  - destruct (p x), (p y); try reflexivity. apply perm_swap.
  - now transitivity (filter p l').
Qed.

Lemma filter_split_length (A : Type) (p : A -> bool) (l : list A) :
  (length (filter p l) + length (filter (fun x => negb (p x)) l))%nat
  = length l.
Proof.
  induction l as [|x r IH]; simpl; [reflexivity|].
  destruct (p x); simpl; lia.
Qed.

Lemma inView_all toLowerCase n :
  inView toLowerCase [] (viewOf ALL) n = negb (Note.isTrashed n).
Proof. unfold inView. simpl. now destruct (Note.isTrashed n). Qed.

Lemma inView_trash toLowerCase n :
  inView toLowerCase [] (viewOf TRASH) n = Note.isTrashed n.
Proof. reflexivity. Qed.

(** X17: the list never mixes the trash with the rest. The trash view
    shows notes of the trash only, every other view shows none of them,
    whatever is searched for; without a search text the trash view and the
    view of all notes share out the notes between them; a search text only
    takes notes away; and a tag view or a folder view whose tag or folder
    is left out or empty shows what the view of all notes shows. *)
Theorem views_keep_the_trash_apart toLowerCase q f notes :
  (forall n, In n (filteredNotes toLowerCase q f notes) ->
             Note.isTrashed n = isTRASH (NoteFilter.type f))
  /\ (forall n, In n (filteredNotes toLowerCase q f notes) ->
                In n (filteredNotes toLowerCase [] f notes))
  /\ (length (filteredNotes toLowerCase [] (viewOf ALL) notes)
      + length (filteredNotes toLowerCase [] (viewOf TRASH) notes))%nat
     = length notes
  /\ (forall n, In n notes ->
                (In n (filteredNotes toLowerCase [] (viewOf ALL) notes)
                 <-> ~ In n (filteredNotes toLowerCase [] (viewOf TRASH)
                               notes)))
  /\ (given (NoteFilter.tag f) = false ->
      filteredNotes toLowerCase q (NoteFilter.mk TAG (NoteFilter.tag f) None)
        notes
      = filteredNotes toLowerCase q (viewOf ALL) notes)
  /\ (given (NoteFilter.folderId f) = false ->
      filteredNotes toLowerCase q
        (NoteFilter.mk FOLDER None (NoteFilter.folderId f)) notes
      = filteredNotes toLowerCase q (viewOf ALL) notes).
Proof.
  unfold filteredNotes. split; [|split; [|split; [|split; [|split]]]].
  - intros n I. apply filter_In in I. destruct I as [_ V].
    unfold inView in V.
    destruct (match q with [] => false | _ => _ end); [discriminate V|].
    destruct (NoteFilter.type f); simpl;
      try exact V; destruct (Note.isTrashed n); congruence.
  - intros n I. apply filter_In in I. destruct I as [I V].
    apply filter_In. split; [exact I|]. unfold inView in *.
    destruct (match q with [] => false | _ => _ end); [discriminate V|].
    exact V.
  - assert (A : filter (inView toLowerCase [] (viewOf ALL)) notes
                = filter (fun n => negb (Note.isTrashed n)) notes).
    { apply filter_ext. intro n. apply inView_all. }
    assert (B : filter (inView toLowerCase [] (viewOf TRASH)) notes
                = filter Note.isTrashed notes).
    { apply filter_ext. intro n. reflexivity. }
    rewrite A, B, Nat.add_comm. apply filter_split_length.
  - intros n I. rewrite !filter_In, inView_all, inView_trash.
    destruct (Note.isTrashed n); simpl; intuition congruence.
  - intro G. apply filter_ext. intro n. unfold inView. simpl.
    destruct (NoteFilter.tag f) as [[|c r]|]; try discriminate G; reflexivity.
  - intro G. apply filter_ext. intro n. unfold inView. simpl.
    destruct (NoteFilter.folderId f) as [[|c r]|]; try discriminate G;
      reflexivity.
Qed.

Lemma views_keep_the_trash_apart_witness :
  filteredNotes lowerAscii (js "x") (NoteFilter.mk TAG (Some []) None)
    (notes shelf)
  = filteredNotes lowerAscii (js "x") (viewOf ALL) (notes shelf).
Proof.
  destruct (views_keep_the_trash_apart lowerAscii (js "x")
              (NoteFilter.mk TAG (Some []) None) (notes shelf))
    as (_ & _ & _ & _ & H & _).
  apply H. reflexivity.
Defined.

Lemma inView_tag toLowerCase tag n :
  tag <> [] -> inView toLowerCase [] (tagView tag) n = carriesLive tag n.
Proof.
  intro H. unfold inView, carriesLive. simpl.
  destruct tag as [|c r]; [contradiction|].
  now destruct (Note.isTrashed n).
Qed.

(** X18: the number that the sidebar shows beside a tag is the number of
    notes that the list shows when the tag is chosen and nothing is
    searched for: the entries of [getTags] count the notes of the tag view
    of [getAllNotes]. *)
Theorem tag_count_is_length_of_tag_view toLowerCase st tag c :
  allNotes tagsDerived st ->
  In (tag, c) (getTags st) ->
  length (filteredNotes toLowerCase [] (tagView tag) (getAllNotes st)) = c.
Proof.
  intros D I. apply (@getTags_entry st tag c D) in I. destruct I as [-> Pos].
  assert (T : tag <> []).
  { apply carriesLive_length in Pos. destruct Pos as [n [In_n [_ C]]].
    assert (Dn : tagsDerived n).
    { unfold allNotes in D. rewrite Forall_forall in D. now apply D. }
    apply (@carried_tagName n tag Dn C). }
  unfold filteredNotes.
  rewrite (filter_ext _ _ (fun n => @inView_tag toLowerCase tag n T)).
  apply Permutation_length, filter_Permutation.
  unfold getAllNotes, getNotesFromStorage. apply sort_Permutation.
Qed.

Lemma tag_count_is_length_of_tag_view_witness :
  length (filteredNotes lowerAscii [] (tagView (js "one")) (getAllNotes shelf))
  = 1%nat.
Proof.
  apply (@tag_count_is_length_of_tag_view lowerAscii shelf (js "one") 1%nat).
  - repeat constructor.
  - left. reflexivity.
Defined.

(** ** Title and preview *)

Lemma split_nonempty sep s : split sep s <> [].
Proof.
  destruct s as [|c r]; simpl; [discriminate|].
  destruct (c =? sep)%N; [discriminate|].
  destruct (split sep r); discriminate.
Qed.

Lemma split_free sep s :
  Forall (fun line => ~ In sep line) (split sep s).
Proof.
  induction s as [|c r IH]; simpl.
  - repeat constructor. intros [].
  - destruct (c =? sep)%N eqn:E.
    + constructor; [intros [] | exact IH].
    + apply N.eqb_neq in E. destruct (split sep r) as [|h t].
      * repeat constructor. intros [H|[]]. congruence.
      * inversion IH as [|? ? Hh Ht]; subst. constructor; [|exact Ht].
        intros [H|H]; [congruence | contradiction].
Qed.

Lemma dropWhile_suffix p s : exists pre, s = pre ++ dropWhile p s.
Proof.
  induction s as [|c r [pre IH]]; simpl; [now exists []|].
  destruct (p c); [|now exists []]. exists (c :: pre). simpl. now f_equal.
Qed.

Lemma dropHeadingMark_suffix s : exists pre, s = pre ++ dropHeadingMark s.
Proof.
  unfold dropHeadingMark. destruct s as [|c r]; [now exists []|].
  destruct (c =? HASH)%N; [|now exists []].
  destruct (dropWhile_suffix (fun d => (d =? HASH)%N) (c :: r)) as [pre E].
  destruct (dropWhile (fun d => (d =? HASH)%N) (c :: r)) as [|d t];
    [now exists []|].
  destruct (isSpace d); [|now exists []].
  exists (pre ++ [d]). now rewrite <- app_assoc.
Qed.

Lemma join_free (c : N) sep l :
  ~ In c sep -> Forall (fun line => ~ In c line) l -> ~ In c (join sep l).
Proof.
  intros Hs. induction 1 as [|x r Hx Hr IH]; simpl; [tauto|].
  destruct r as [|y r]; [exact Hx|].
  rewrite !in_app_iff. tauto.
Qed.

Lemma firstn_subset (A : Type) n (l : list A) x :
  In x (firstn n l) -> In x l.
Proof.
  revert l. induction n as [|n IH]; intros [|y r]; simpl; try tauto.
  intros [H|H]; [now left | right; now apply IH].
Qed.

Lemma orElse_nonempty a b : b <> [] -> orElse a b <> [].
Proof. intro H. destruct a; simpl; [exact H | discriminate]. Qed.

Lemma orElse_cases a b : orElse a b = a \/ (a = [] /\ orElse a b = b).
Proof. destruct a; simpl; auto. Qed.

(** X19: whatever the content of a note is, its title and its preview in
    the list are not empty and have no line feed in them, the preview has
    120 characters at most, and the title is an end piece of the first
    line of the content without the white space around it, or the
    words that stand for a missing title. *)
Theorem title_and_preview_are_presentable content :
  let title := fst (getTitleAndPreview content) in
  let preview := snd (getTitleAndPreview content) in
  title <> [] /\ preview <> []
  /\ ~ In LF title /\ ~ In LF preview
  /\ (length preview <= 120)%nat
  /\ (title = js "Untitled Note"
      \/ exists pre, hd [] (split LF (trim content)) = pre ++ title).
Proof.
  unfold getTitleAndPreview. cbv beta zeta iota delta [fst snd].
  pose proof (split_free LF (trim content)) as F.
  pose proof (split_nonempty LF (trim content)) as NE.
  destruct (split LF (trim content)) as [|first rest]; [contradiction|].
  inversion F as [|? ? Hfirst Hrest]; subst.
  change (hd [] (first :: rest)) with first.
  change (tl (first :: rest)) with rest.
  destruct (dropHeadingMark_suffix first) as [pre E].
  split; [apply orElse_nonempty; discriminate|].
  split; [apply orElse_nonempty; discriminate|].
  split; [|split; [|split]].
  - destruct (orElse_cases (dropHeadingMark first) (js "Untitled Note"))
      as [->|[_ ->]].
    + intro I. apply Hfirst. rewrite E. apply in_or_app. now right.
    + vm_compute. intuition discriminate.
  - destruct (orElse_cases (firstn 120 (join [SPACE] rest))
                (js "No additional text")) as [->|[_ ->]].
    + intro I. apply firstn_subset in I. revert I.
      apply join_free; [|exact Hrest]. intros [H|[]]. discriminate H.
    + vm_compute. intuition discriminate.
  - destruct (orElse_cases (firstn 120 (join [SPACE] rest))
                (js "No additional text")) as [->|[_ ->]].
    + apply firstn_le_length.
    + vm_compute. lia.
  - destruct (orElse_cases (dropHeadingMark first) (js "Untitled Note"))
      as [->|[_ ->]]; [right; now exists pre | now left].
Qed.

(* ================================================================== *)
(** * The editor *)

Lemma substring_inside (s : jsstring) a b :
  (a <= b)%nat -> (b <= length s)%nat ->
  substring s a b = firstn (b - a) (skipn a s).
Proof.
  intros H1 H2. unfold substring.
  rewrite (Nat.min_l a) by lia. rewrite (Nat.min_l b) by lia.
  rewrite Nat.max_r, Nat.min_l by lia. reflexivity.
Qed.

Lemma substring_prefix (s : jsstring) a : substring s 0 a = firstn a s.
Proof.
  unfold substring. simpl. rewrite Nat.sub_0_r.
  destruct (Nat.le_ge_cases a (length s)) as [H|H].
  - now rewrite Nat.min_l.
  - rewrite Nat.min_r by exact H. rewrite !firstn_all2; [reflexivity|lia|lia].
Qed.

Lemma selection_parts (s : jsstring) a b :
  (a <= b)%nat -> (b <= length s)%nat ->
  s = firstn a s ++ substring s a b ++ skipn b s
  /\ length (firstn a s) = a
  /\ length (substring s a b) = (b - a)%nat.
Proof.
  intros H1 H2. rewrite substring_inside by assumption.
  split; [|split].
  - rewrite <- (firstn_skipn a s) at 1. f_equal.
    rewrite <- (firstn_skipn (b - a) (skipn a s)) at 1. f_equal.
    rewrite skipn_skipn. f_equal. lia.
  - apply firstn_length_le. lia.
  - rewrite firstn_length_le; [reflexivity|]. rewrite length_skipn. lia.
Qed.

Lemma substring_middle (pre mid post : jsstring) :
  substring (pre ++ mid ++ post) (length pre) (length pre + length mid) = mid.
Proof.
  rewrite substring_inside by (rewrite ?length_app; lia).
  rewrite skipn_app, skipn_all, Nat.sub_diag. simpl.
  replace (length pre + length mid - length pre)%nat with (length mid) by lia.
  rewrite firstn_app, firstn_all, Nat.sub_diag. simpl. apply app_nil_r.
Qed.

(** X20: [insertText] loses nothing: with the selection from [start] to
    [end] inside the content, the new content is the old one with [before]
    put in front of the selected text and [after] behind it, and the
    selection that is set afterwards holds the text that was selected. With
    the tag button, a selected name that no tag character follows becomes a
    tag of the note once the new content is stored by [updateNote]. *)
Theorem insertText_wraps_the_selection before after start end_ content :
  (start <= end_)%nat -> (end_ <= length content)%nat ->
  let pre := firstn start content in
  let selected := substring content start end_ in
  let post := skipn end_ content in
  let newText := fst (insertText before after start end_ content) in
  let range := snd (insertText before after start end_ content) in
  content = pre ++ selected ++ post
  /\ newText = pre ++ before ++ selected ++ after ++ post
  /\ substring newText (fst range) (snd range) = selected
  /\ (before = [HASH] -> after = [] -> tagName selected ->
      headIs isTagChar post = false ->
      In selected (extractTags newText)
      /\ forall id now st i,
           findIndex (hasId id) (notes st) = Some i ->
           exists n,
             nth_error (notes (snd (updateNote id newText Omitted now st))) i
             = Some n
             /\ Note.content n = newText /\ In selected (Note.tags n)).
Proof.
  intros H1 H2 pre selected post newText range.
  destruct (selection_parts content H1 H2) as [P [Lpre Lsel]].
  fold pre selected post in P, Lpre, Lsel.
  assert (N : newText = pre ++ before ++ selected ++ after ++ post).
  { unfold newText, insertText. simpl. now rewrite substring_prefix. }
  split; [exact P|]. split; [exact N|]. split.
  - unfold range, insertText. simpl. rewrite N.
    replace (pre ++ before ++ selected ++ after ++ post)
      with ((pre ++ before) ++ selected ++ (after ++ post))
      by (now rewrite <- !app_assoc).
    replace (start + length before)%nat with (length (pre ++ before))
      by (rewrite length_app; lia).
    replace (end_ + length before)%nat
      with (length (pre ++ before) + length selected)%nat
      by (rewrite length_app; lia).
    apply substring_middle.
  - intros -> -> [T1 T2] Hpost.
    assert (I : In selected (extractTags newText)).
    { apply (proj2 (extractTags_spec _)). exists pre, post.
      rewrite N. simpl. repeat split; assumption. }
    split; [exact I|]. intros id now st i F.
    destruct (findIndex_Some _ _ F) as [old [Hold _]].
    unfold updateNote, getNotesFromStorage. rewrite F. simpl.
    rewrite updateAt_same, Hold. simpl. eexists. split; [reflexivity|].
    split; [reflexivity | exact I].
Qed.

Lemma insertText_wraps_the_selection_witness :
  fst (insertText (js "**") (js "**") 4 8 (js "buy milk now"))
  = js "buy " ++ js "**" ++ js "milk" ++ js "**" ++ js " now".
Proof.
  destruct (@insertText_wraps_the_selection (js "**") (js "**") 4 8
              (js "buy milk now")) as (_ & H & _).
  - lia.
  - vm_compute. lia.
  - exact H.
Defined.

(** X21: what [handleAIAction] does with a result. A result that is empty
    or begins with the word Error changes nothing. Continuing and
    summarizing keep the content and add to its end, and so does improving
    when six characters or more are not selected. Improving a selection of
    six characters or more that does not begin at the first character puts
    the result in its place. But a selection that begins at the first
    character is not seen as it is: its beginning is taken for the end of
    the content, and when more than five characters stand behind the
    selection, the result is added to the end of the content and is
    followed by a second copy of those characters. *)
Theorem handleAIAction_cases content result :
  (forall mode textarea,
      result = [] \/ startsWith (js "Error") result = true ->
      handleAIAction mode textarea content result = None)
  /\ (result <> [] -> startsWith (js "Error") result = false ->
      (forall textarea,
          exists added,
            handleAIAction Continue textarea content result
            = Some (content ++ added ++ result)
            /\ (added = [] \/ added = [SPACE]))
      /\ (forall textarea,
             handleAIAction Summarize textarea content result
             = Some (content ++ [LF; LF] ++ js "**AI Summary:**" ++ [LF]
                       ++ result))
      /\ (forall start end_,
             (0 < start)%nat -> (start + 5 < end_)%nat ->
             (end_ <= length content)%nat ->
             handleAIAction Improve (Some (start, end_)) content result
             = Some (firstn start content ++ result ++ skipn end_ content))
      /\ (forall end_,
             (0 < end_)%nat -> (end_ + 5 < length content)%nat ->
             handleAIAction Improve (Some (0%nat, end_)) content result
             = Some (content ++ result ++ skipn end_ content))).
Proof.
  split.
  - intros mode textarea [->|E]; [reflexivity|].
    unfold handleAIAction. destruct result; [reflexivity|]. now rewrite E.
  - intros NE E. unfold handleAIAction.
    destruct result as [|r0 result']; [contradiction|]. rewrite E.
    split; [|split; [|split]].
    + intro textarea. eexists. split; [reflexivity|].
      destruct (endsWith [SPACE] content); auto.
    + reflexivity.
    + intros start end_ H1 H2 H3.
      destruct start as [|s]; [lia|]. destruct end_ as [|e]; [lia|].
      simpl orElseNat.
      destruct (selection_parts content (a := S s) (b := S e))
        as [_ [_ L]]; [lia|lia|].
      rewrite L. replace (5 <? S e - S s)%nat with true
        by (symmetry; apply Nat.ltb_lt; lia).
      now rewrite substring_prefix.
    + intros end_ H1 H2. destruct end_ as [|e]; [lia|]. simpl orElseNat.
      assert (L : length (substring content (length content) (S e))
                  = (length content - S e)%nat).
      { unfold substring. rewrite Nat.min_id, (Nat.min_l (S e)) by lia.
        rewrite Nat.max_l, Nat.min_r by lia.
        rewrite firstn_length_le; [reflexivity|]. rewrite length_skipn. lia. }
      rewrite L. replace (5 <? length content - S e)%nat with true
        by (symmetry; apply Nat.ltb_lt; lia).
      rewrite substring_prefix, firstn_all. reflexivity.
Qed.

Lemma handleAIAction_cases_witness :
  handleAIAction Improve (Some (0%nat, 3%nat)) (js "Teh quick brown fox")
    (js "The")
  = Some (js "Teh quick brown fox" ++ js "The"
            ++ skipn 3 (js "Teh quick brown fox")).
Proof.
  destruct (handleAIAction_cases (js "Teh quick brown fox") (js "The"))
    as (_ & H).
  destruct H as (_ & _ & _ & H); [discriminate | reflexivity |].
  apply (H 3%nat); vm_compute; lia.
Defined.

(* ================================================================== *)
(** * The sidebar *)

Lemma dropWhile_last p s c :
  p c = false -> dropWhile p (s ++ [c]) = dropWhile p s ++ [c].
Proof.
  intro H. induction s as [|d r IH]; simpl; [now rewrite H|].
  destruct (p d); [exact IH | reflexivity].
Qed.

Lemma trim_trimmed s : trim s <> [] -> trimmed (trim s).
Proof.
  intro NE. split; [exact NE|]. unfold trim in *.
  pose proof (dropWhile_head isSpace s) as H.
  destruct (dropWhile isSpace s) as [|c r]; [contradiction NE; reflexivity|].
  simpl in H. split.
  - simpl rev. rewrite (@dropWhile_last isSpace (rev r) c H), rev_app_distr.
    simpl. exact H.
  - rewrite rev_involutive. apply dropWhile_head.
Qed.

Lemma dropWhile_all p s :
  Forall (fun c => p c = true) s -> dropWhile p s = [].
Proof.
  induction 1 as [|c r Hc Hr IH]; simpl; [reflexivity | now rewrite Hc].
Qed.

Lemma dropWhile_none p s : headIs p s = false -> dropWhile p s = s.
Proof. destruct s as [|c r]; simpl; [reflexivity | now intros ->]. Qed.

Lemma dropWhile_app_all p w s :
  Forall (fun c => p c = true) w -> dropWhile p (w ++ s) = dropWhile p s.
Proof.
  induction 1 as [|c r Hc Hr IH]; simpl; [reflexivity | now rewrite Hc].
Qed.

Lemma trim_blanks_behind s ws :
  trimmed s -> Forall (fun c => isSpace c = true) ws -> trim (s ++ ws) = s.
Proof.
  intros [NE [H1 H2]] W. unfold trim.
  destruct s as [|c r]; [contradiction NE; reflexivity|].
  rewrite (@dropWhile_none isSpace ((c :: r) ++ ws)) by exact H1.
  rewrite rev_app_distr, dropWhile_app_all by (now apply Forall_rev).
  rewrite (@dropWhile_none isSpace _ H2). apply rev_involutive.
Qed.

Lemma submitted_name typed name :
  match trim typed with
  | [] => None
  | n => Some n
  end = Some name ->
  name = trim typed /\ trimmed name.
Proof.
  intro H. assert (E : name = trim typed).
  { destruct (trim typed); [discriminate H | now injection H]. }
  split; [exact E|]. subst name. apply trim_trimmed. intro T.
  rewrite T in H. discriminate H.
Qed.

Lemma submitNewFolder_Some typed name parentId :
  submitNewFolder typed = Some (name, parentId) ->
  parentId = None /\ name = trim typed /\ trimmed name.
Proof.
  unfold submitNewFolder. intro H.
  assert (K : match trim typed with [] => None | n => Some n end = Some name
              /\ parentId = None).
  { destruct (trim typed); [discriminate H|]. injection H as <- <-.
    now split. }
  destruct K as [K ->]. split; [reflexivity|]. now apply submitted_name.
Qed.

Lemma submitRename_Some id typed id' name :
  submitRename id typed = Some (id', name) ->
  id' = id /\ name = trim typed /\ trimmed name.
Proof.
  unfold submitRename. intro H.
  assert (K : match trim typed with [] => None | n => Some n end = Some name
              /\ id' = id).
  { destruct (trim typed); [discriminate H|]. injection H as <- <-.
    now split. }
  destruct K as [K ->]. split; [reflexivity|]. now apply submitted_name.
Qed.

Lemma step_topLevelNamed op st :
  viaSidebar op ->
  Forall topLevelNamed (folders st) ->
  Forall topLevelNamed (folders (step op st)).
Proof.
  intros V F. destruct (noteCall op) eqn:N.
  - now rewrite noteCall_folders.
  - destruct op; try discriminate; simpl in V.
    + destruct V as [typed V]. apply submitNewFolder_Some in V.
      destruct V as [-> [_ T]].
      unfold step, createFolder, getFoldersFromStorage. simpl.
      apply Forall_app. split; [exact F|]. constructor; [|constructor].
      split; [reflexivity | exact T].
    + destruct V as [typed V]. apply submitRename_Some in V.
      destruct V as [_ [_ T]].
      unfold step, updateFolder, getFoldersFromStorage.
      destruct (findIndex (folderHasId id) (folders st)); [|exact F].
      simpl. apply updateAt_Forall; [exact F|].
      intros f _ [P _]. split; [exact P | exact T].
    + change (Forall topLevelNamed (folders (deleteFolder id st))).
      rewrite deleteFolder_folders. apply Forall_forall. intros g Hg.
      apply filter_In in Hg. destruct Hg as [Hg _].
      apply in_map_iff in Hg. destruct Hg as [f [<- Hf]].
      rewrite Forall_forall in F. destruct (F f Hf) as [P T].
      unfold promoteFolder.
      destruct (nullable_streq (Folder.parentId f) (Some id));
        split; simpl; assumption || reflexivity.
Qed.

(** X22: the form for a new folder passes no parent on, and the forms for
    a new folder and for a new name pass on what was typed without the
    white space around it, or nothing when nothing else was typed. So,
    when the calls on the folders are those that the sidebar makes, every
    stored folder is at the top level and has a name that is not empty and
    has no white space at either end. *)
Theorem sidebar_folders_are_top_level :
  (forall typed name parentId,
      submitNewFolder typed = Some (name, parentId) ->
      parentId = None /\ name = trim typed /\ trimmed name)
  /\ (forall id typed id' name,
         submitRename id typed = Some (id', name) ->
         id' = id /\ name = trim typed /\ trimmed name)
  /\ (forall ops,
         Forall viaSidebar ops ->
         Forall topLevelNamed (folders (run ops emptyStore))).
Proof.
  split; [apply submitNewFolder_Some|]. split; [apply submitRename_Some|].
  assert (G : forall ops st, Forall viaSidebar ops ->
                Forall topLevelNamed (folders st) ->
                Forall topLevelNamed (folders (run ops st))).
  { induction ops as [|op r IH]; simpl; intros st V F; [exact F|].
    inversion V as [|? ? Vop Vr]; subst.
    apply IH; [exact Vr|]. now apply step_topLevelNamed. }
  intros ops V. apply G; [exact V | constructor].
Qed.

Lemma sidebar_folders_are_top_level_witness :
  Forall topLevelNamed
    (folders (run [ CreateFolder (js "f1") tick (js "work") None;
                    UpdateFolder (js "f1") (js "home");
                    DeleteFolder (js "f2") ] emptyStore)).
Proof.
  apply (proj2 (proj2 sidebar_folders_are_top_level)).
  repeat constructor.
  - exists (js "  work "). reflexivity.
  - exists (js "home  "). reflexivity.
Defined.

(** X23: the form for the name of a tag passes on a name without the white
    space around it, and only when the name as typed is not the old one.
    The comparison is made before the white space is taken away: the old
    name with white space behind it is let through, and the tag is
    renamed to itself. *)
Theorem tag_rename_guard_compares_untrimmed :
  (forall tagRename old new,
      submitTagRename tagRename = Some (old, new) ->
      trimmed new
      /\ exists typed,
           tagRename = Some (old, typed) /\ typed <> old /\ new = trim typed)
  /\ (forall old blanks,
         trimmed old -> blanks <> [] ->
         Forall (fun c => isSpace c = true) blanks ->
         submitTagRename (Some (old, old ++ blanks)) = Some (old, old)).
Proof.
  split.
  - intros [[o typed]|] old new H; [|discriminate H].
    unfold submitTagRename in H.
    assert (K : match trim typed with [] => None | n => Some n end = Some new
                /\ o = old /\ streq typed o = false).
    { destruct (trim typed); [discriminate H|].
      destruct (streq typed o); [discriminate H|]. injection H as <- <-.
      now repeat split. }
    destruct K as [K [-> Ne]]. apply submitted_name in K.
    destruct K as [E T]. split; [exact T|]. exists typed.
    split; [reflexivity|]. split; [now apply streq_false | exact E].
  - intros old blanks T NE W. unfold submitTagRename.
    rewrite (trim_blanks_behind T W).
    assert (D : streq (old ++ blanks) old = false).
    { apply streq_false. intro E. apply NE.
      apply (app_inv_head old). now rewrite app_nil_r. }
    rewrite D. destruct T as [T _]. destruct old; [contradiction|reflexivity].
Qed.

Lemma tag_rename_guard_compares_untrimmed_witness :
  submitTagRename (Some (js "idea", js "idea" ++ js " "))
  = Some (js "idea", js "idea").
Proof.
  apply (proj2 tag_rename_guard_compares_untrimmed).
  - split; [discriminate|]. split; reflexivity.
  - discriminate.
  - repeat constructor.
Defined.

(* ================================================================== *)
(** * Writing a collection and reading it back *)

Module BlobFacts.
Import Blob.

Lemma option_map_app_nil (A : Type) (o : option (list A)) :
  option_map (app []) o = o.
Proof. now destruct o. Qed.

Lemma option_map_app (A : Type) (a b : list A) (o : option (list A)) :
  option_map (app a) (option_map (app b) o) = option_map (app (a ++ b)) o.
Proof. destruct o; simpl; [now rewrite app_assoc | reflexivity]. Qed.

Lemma lex_cons q c r :
  lex q (c :: r)
  = match lexStep q c with
    | None => None
    | Some (q', t) => option_map (app t) (lex q' r)
    end.
Proof. reflexivity. Qed.

Lemma lex_punct c t r :
  lexIdle c = Some (LIdle, [t]) ->
  lex LIdle (c :: r) = option_map (app [t]) (lex LIdle r).
Proof. intro H. rewrite lex_cons. simpl lexStep. now rewrite H. Qed.

Lemma isDelimiter_cases c :
  isDelimiter c = true -> c = 44%N \/ c = 93%N \/ c = 125%N.
Proof.
  unfold isDelimiter. rewrite !orb_true_iff, !N.eqb_eq. tauto.
Qed.

Lemma lexIdle_delimiter c :
  isDelimiter c = true ->
  exists t, lexIdle c = Some (LIdle, [t])
            /\ isNumberChar c = false /\ isLower c = false.
Proof.
  intro H. destruct (isDelimiter_cases c H) as [-> | [-> | ->]];
    eexists; repeat split; reflexivity.
Qed.

(** ** Numbers *)

Lemma lex_close_number seen rest :
  delimited rest = true -> validNumber (rev seen) = true ->
  lex (LNumber seen) rest
  = option_map (app [TNumber (rev seen)]) (lex LIdle rest).
Proof.
  destruct rest as [|c r]; simpl delimited; intros D V.
  - simpl. now rewrite V.
  - destruct (lexIdle_delimiter c D) as [t [E [N _]]].
    rewrite !lex_cons. simpl lexStep. rewrite N. simpl lexClose.
    rewrite V, E. rewrite option_map_app. reflexivity.
Qed.

Lemma lex_number_chars cs seen rest :
  Forall (fun c => isNumberChar c = true) cs ->
  lex (LNumber seen) (cs ++ rest) = lex (LNumber (rev cs ++ seen)) rest.
Proof.
  intro H. revert seen. induction H as [|c cs Hc Hcs IH]; intro seen;
    [reflexivity|].
  simpl app. rewrite lex_cons. simpl lexStep. rewrite Hc.
  rewrite option_map_app_nil, IH. simpl rev. now rewrite <- app_assoc.
Qed.

Lemma lexIdle_digit c :
  isDigit c = true -> lexIdle c = Some (LNumber [c], []).
Proof.
  unfold isDigit, inRange. rewrite andb_true_iff, !N.leb_le. intros [H1 H2].
  assert (K : In c [48; 49; 50; 51; 52; 53; 54; 55; 56; 57]%N).
  { simpl. lia. }
  simpl in K. repeat (destruct K as [<-|K]; [reflexivity|]). destruct K.
Qed.

Lemma lex_number c cs rest :
  lexIdle c = Some (LNumber [c], []) ->
  Forall (fun d => isNumberChar d = true) cs ->
  validNumber (c :: cs) = true ->
  delimited rest = true ->
  lex LIdle ((c :: cs) ++ rest)
  = option_map (app [TNumber (c :: cs)]) (lex LIdle rest).
Proof.
  intros S H V D. simpl app. rewrite lex_cons. simpl lexStep. rewrite S.
  rewrite option_map_app_nil, (lex_number_chars _ _ H).
  assert (R : rev (rev cs ++ [c]) = c :: cs).
  { rewrite rev_app_distr, rev_involutive. reflexivity. }
  rewrite lex_close_number; rewrite ?R; auto.
Qed.

Lemma digitsOf_digits d : Forall (fun c => isDigit c = true) (digitsOf d).
Proof. induction d; simpl; constructor; auto. Qed.

Lemma isDigit_numberChar c : isDigit c = true -> isNumberChar c = true.
Proof. unfold isNumberChar. now intros ->. Qed.

Lemma to_uint_normal p :
  Decimal.unorm (Pos.to_uint p) = Pos.to_uint p.
Proof.
  pose proof (DecimalPos.Unsigned.to_of (Pos.to_uint p)) as H.
  rewrite DecimalPos.Unsigned.of_to in H. symmetry. exact H.
Qed.

Lemma to_uint_not_Nil p : Pos.to_uint p <> Decimal.Nil.
Proof. rewrite <- to_uint_normal. apply DecimalFacts.unorm_nonnil. Qed.

Lemma unorm_shorter a :
  a <> Decimal.Nil -> Decimal.unorm a <> Decimal.D0 a.
Proof.
  intros Ha Hu. pose proof (DecimalFacts.nb_digits_unorm a Ha) as L.
  rewrite Hu in L. simpl in L. lia.
Qed.

Lemma to_uint_not_D0 p r : Pos.to_uint p <> Decimal.D0 r.
Proof.
  intro E. pose proof (to_uint_normal p) as U.
  rewrite E, DecimalFacts.unorm_D0 in U.
  destruct r; try (apply unorm_shorter in U; [exact U | discriminate]).
  pose proof (DecimalPos.Unsigned.of_to p) as O. rewrite E in O.
  discriminate O.
Qed.

Lemma digitsOf_head d :
  d <> Decimal.Nil -> (forall r, d <> Decimal.D0 r) ->
  exists c cs,
    digitsOf d = c :: cs /\ isDigit c = true /\ c <> 48%N
    /\ Forall (fun x => isDigit x = true) cs.
Proof.
  intros H1 H2. destruct d as [|r|r|r|r|r|r|r|r|r|r];
    [contradiction H1; reflexivity | exfalso; now apply (H2 r) | ..];
    simpl; eexists; eexists; (split; [reflexivity|]);
    (split; [reflexivity|]); (split; [discriminate|]); apply digitsOf_digits.
Qed.

Lemma validNumber_digits c cs :
  isDigit c = true -> c <> 48%N ->
  Forall (fun x => isDigit x = true) cs ->
  validNumber (c :: cs) = true /\ validNumber (45%N :: c :: cs) = true.
Proof.
  intros Hc Hz Hcs.
  assert (C45 : (c =? 45)%N = false).
  { apply N.eqb_neq. intros ->. discriminate Hc. }
  assert (C48 : (c =? 48)%N = false) by now apply N.eqb_neq.
  assert (V : (if (c =? 48)%N then validFraction cs
               else isDigit c && validFraction (dropWhile isDigit cs)) = true).
  { rewrite C48, Hc, (dropWhile_all _ Hcs). reflexivity. }
  split.
  - unfold validNumber. rewrite C45. exact V.
  - unfold validNumber. simpl. exact V.
Qed.

(** The text of a whole number is read as one number token. *)
Lemma lex_numberToString n rest :
  delimited rest = true ->
  lex LIdle (numberToString n ++ rest)
  = option_map (app [TNumber (numberToString n)]) (lex LIdle rest).
Proof.
  intro D. destruct n as [|p|p]; unfold numberToString.
  - apply lex_number; auto.
  - destruct (digitsOf_head (to_uint_not_Nil p) (to_uint_not_D0 p))
      as [c [cs [-> [Hc [Hz Hcs]]]]].
    apply lex_number; auto.
    + now apply lexIdle_digit.
    + eapply Forall_impl; [|exact Hcs]. apply isDigit_numberChar.
    + now apply validNumber_digits.
  - destruct (digitsOf_head (to_uint_not_Nil p) (to_uint_not_D0 p))
      as [c [cs [-> [Hc [Hz Hcs]]]]].
    apply lex_number; auto.
    + constructor; [now apply isDigit_numberChar|].
      eapply Forall_impl; [|exact Hcs]. apply isDigit_numberChar.
    + now apply validNumber_digits.
Qed.

Lemma digitsOf_inj d d' : digitsOf d = digitsOf d' -> d = d'.
Proof.
  revert d'. induction d; intros [| | | | | | | | | |] H; simpl in H;
    try discriminate H; try reflexivity; injection H as H; f_equal; auto.
Qed.

Lemma numberToString_inj n m : numberToString n = numberToString m -> n = m.
Proof.
  assert (Z1 : forall p, digitsOf (Pos.to_uint p) <> [48%N]).
  { intros p E. change [48%N] with (digitsOf (Decimal.D0 Decimal.Nil)) in E.
    apply digitsOf_inj in E. now apply to_uint_not_D0 in E. }
  assert (Z2 : forall p cs, digitsOf (Pos.to_uint p) <> 45%N :: cs).
  { intros p cs E. pose proof (digitsOf_digits (Pos.to_uint p)) as F.
    rewrite E in F. inversion F as [|? ? H _]. discriminate H. }
  destruct n as [|p|p], m as [|q|q]; unfold numberToString; intro E;
    try reflexivity;
    try (symmetry in E; now apply Z1 in E); try (now apply Z1 in E);
    try (symmetry in E; now apply Z2 in E); try (now apply Z2 in E);
    try discriminate E.
  - apply digitsOf_inj, DecimalPos.Unsigned.to_uint_inj in E. now subst.
  - injection E as E.
    apply digitsOf_inj, DecimalPos.Unsigned.to_uint_inj in E. now subst.
Qed.

(** ** Strings *)

Lemma hexValue_hexDigit d : (d < 16)%N -> hexValue (hexDigit d) = Some d.
Proof.
  intro H.
  assert (K : In d [0; 1; 2; 3; 4; 5; 6; 7; 8; 9; 10; 11; 12; 13; 14; 15]%N).
  { simpl. lia. }
  simpl in K. repeat (destruct K as [<-|K]; [reflexivity|]). destruct K.
Qed.

Lemma nibbles c :
  (c < 65536)%N ->
  (c / 4096 < 16)%N /\ (c / 256 mod 16 < 16)%N /\ (c / 16 mod 16 < 16)%N
  /\ (c mod 16 < 16)%N
  /\ (((c / 4096 * 16 + c / 256 mod 16) * 16 + c / 16 mod 16) * 16
      + c mod 16)%N = c.
Proof.
  intro H. zify. Z.to_euclidean_division_equations. lia.
Qed.

Lemma lex_step q c q' t r :
  lexStep q c = Some (q', t) -> lex q (c :: r) = option_map (app t) (lex q' r).
Proof. intro H. rewrite lex_cons. now rewrite H. Qed.

Lemma lex_quiet_step q c q' r :
  lexStep q c = Some (q', []) -> lex q (c :: r) = lex q' r.
Proof.
  intro H. rewrite (@lex_step q c q' [] r H). apply option_map_app_nil.
Qed.

Lemma lexStep_hex seen digits h d :
  hexValue h = Some d ->
  lexStep (LUnicode seen digits) h
  = match digits with
    | [d1; d2; d3] =>
        Some (LString ((((d1 * 16 + d2) * 16 + d3) * 16 + d)%N :: seen), [])
    | _ => Some (LUnicode seen (digits ++ [d]), [])
    end.
Proof. intro H. unfold lexStep. now rewrite H. Qed.

Lemma lex_unicodeEscape c seen rest :
  (c < 65536)%N ->
  lex (LString seen) (unicodeEscape c ++ rest) = lex (LString (c :: seen)) rest.
Proof.
  intro H. destruct (@nibbles c H) as (H1 & H2 & H3 & H4 & E).
  unfold unicodeEscape. simpl app.
  rewrite (@lex_quiet_step (LString seen) 92 (LEscape seen)) by reflexivity.
  rewrite (@lex_quiet_step (LEscape seen) 117 (LUnicode seen []))
    by reflexivity.
  rewrite (@lex_quiet_step (LUnicode seen []) _
             (LUnicode seen [c / 4096]%N))
    by (now rewrite (@lexStep_hex _ _ _ _ (@hexValue_hexDigit _ H1))).
  rewrite (@lex_quiet_step (LUnicode seen [c / 4096]%N) _
             (LUnicode seen [c / 4096; c / 256 mod 16]%N))
    by (now rewrite (@lexStep_hex _ _ _ _ (@hexValue_hexDigit _ H2))).
  rewrite (@lex_quiet_step (LUnicode seen [c / 4096; c / 256 mod 16]%N) _
             (LUnicode seen [c / 4096; c / 256 mod 16; c / 16 mod 16]%N))
    by (now rewrite (@lexStep_hex _ _ _ _ (@hexValue_hexDigit _ H3))).
  rewrite (@lex_quiet_step
             (LUnicode seen [c / 4096; c / 256 mod 16; c / 16 mod 16]%N) _
             (LString (c :: seen)))
    by (rewrite (@lexStep_hex _ _ _ _ (@hexValue_hexDigit _ H4));
        now rewrite E).
  reflexivity.
Qed.

Lemma lex_plain_unit c seen rest :
  (c =? 34)%N = false -> (c =? 92)%N = false -> (c <? 32)%N = false ->
  lex (LString seen) (c :: rest) = lex (LString (c :: seen)) rest.
Proof.
  intros H1 H2 H3. apply lex_quiet_step. simpl. now rewrite H1, H2, H3.
Qed.

Lemma lex_short_escape x d seen rest :
  (x =? 117)%N = false -> lexEscape x = Some d ->
  lex (LString seen) (92%N :: x :: rest) = lex (LString (d :: seen)) rest.
Proof.
  intros U E.
  rewrite (@lex_quiet_step (LString seen) 92 (LEscape seen)) by reflexivity.
  apply lex_quiet_step. simpl. now rewrite U, E.
Qed.

Lemma lex_quoteUnit c seen rest :
  lex (LString seen) (quoteUnit c ++ rest) = lex (LString (c :: seen)) rest.
Proof.
  unfold quoteUnit.
  repeat match goal with
         | |- context [if (c =? ?k)%N then _ else _] =>
             destruct (N.eqb_spec c k) as [->|?];
             [now apply lex_short_escape|]
         end.
  destruct (c <? 32)%N eqn:L.
  - apply lex_unicodeEscape. apply N.ltb_lt in L. lia.
  - simpl app. apply lex_plain_unit; try exact L; now apply N.eqb_neq.
Qed.

Lemma surrogate_plain c :
  isLeadingSurrogate c || isTrailingSurrogate c = true ->
  (c =? 34)%N = false /\ (c =? 92)%N = false /\ (c <? 32)%N = false
  /\ (c < 65536)%N.
Proof.
  unfold isLeadingSurrogate, isTrailingSurrogate, inRange.
  rewrite orb_true_iff, !andb_true_iff, !N.leb_le.
  rewrite !N.eqb_neq, N.ltb_ge. lia.
Qed.

Lemma quoteUnits_cons c r :
  quoteUnits (c :: r)
  = if isLeadingSurrogate c then
      match r with
      | d :: r' =>
          if isTrailingSurrogate d then c :: d :: quoteUnits r'
          else unicodeEscape c ++ quoteUnits r
      | [] => unicodeEscape c
      end
    else if isTrailingSurrogate c then unicodeEscape c ++ quoteUnits r
    else quoteUnit c ++ quoteUnits r.
Proof. reflexivity. Qed.

Lemma lex_quoteUnits s :
  forall seen rest,
    lex (LString seen) (quoteUnits s ++ rest)
    = lex (LString (rev s ++ seen)) rest.
Proof.
  assert (G : forall n s, (length s <= n)%nat ->
                forall seen rest,
                  lex (LString seen) (quoteUnits s ++ rest)
                  = lex (LString (rev s ++ seen)) rest).
  { clear s. induction n as [|n IH]; intros s L seen rest.
    - destruct s; [reflexivity | simpl in L; lia].
    - destruct s as [|c r]; [reflexivity|]. simpl in L.
      assert (Step : forall t,
                 lex (LString (c :: seen)) (quoteUnits r ++ t)
                 = lex (LString (rev (c :: r) ++ seen)) t).
      { intro t. rewrite IH by lia. simpl rev. now rewrite <- app_assoc. }
      rewrite quoteUnits_cons. destruct (isLeadingSurrogate c) eqn:Lead;
        cbv iota.
      + destruct (@surrogate_plain c) as (C1 & C2 & C3 & C4);
          [now rewrite Lead|].
        destruct r as [|d r']; cbv iota.
        * now rewrite lex_unicodeEscape.
        * destruct (isTrailingSurrogate d) eqn:Trail; cbv iota.
          -- destruct (@surrogate_plain d) as (D1 & D2 & D3 & _);
               [rewrite Trail; apply orb_true_r|].
             simpl app. rewrite (@lex_plain_unit c _ _ C1 C2 C3).
             rewrite (@lex_plain_unit d _ _ D1 D2 D3).
             rewrite IH by (simpl in L; lia).
             simpl rev. now rewrite <- !app_assoc.
          -- rewrite <- app_assoc, lex_unicodeEscape by exact C4.
             apply Step.
      + destruct (isTrailingSurrogate c) eqn:Trail; cbv iota.
        * destruct (@surrogate_plain c) as (_ & _ & _ & C4);
            [rewrite Trail; apply orb_true_r|].
          rewrite <- app_assoc, lex_unicodeEscape by exact C4. apply Step.
        * rewrite <- app_assoc, lex_quoteUnit. apply Step. }
  intros seen rest. now apply (G (length s)).
Qed.

(** The text of a string is read as one string token, with the string. *)
Lemma lex_string s rest :
  lex LIdle (QuoteJSONString s ++ rest)
  = option_map (app [TString s]) (lex LIdle rest).
Proof.
  unfold QuoteJSONString. simpl app.
  rewrite (@lex_quiet_step LIdle 34 (LString [])) by reflexivity.
  rewrite <- app_assoc, lex_quoteUnits. simpl app.
  rewrite (@lex_step (LString (rev s ++ [])) 34 LIdle
             [TString (rev (rev s ++ []))]) by reflexivity.
  now rewrite app_nil_r, rev_involutive.
Qed.

(** ** Names *)

Lemma lex_close_name seen rest :
  delimited rest = true ->
  lex (LName seen) rest = option_map (app [TName (rev seen)]) (lex LIdle rest).
Proof.
  destruct rest as [|c r]; simpl delimited; intro D; [reflexivity|].
  destruct (lexIdle_delimiter c D) as [t [E [_ N]]].
  rewrite !lex_cons. simpl lexStep. rewrite N. simpl lexClose.
  rewrite E. rewrite option_map_app. reflexivity.
Qed.

Lemma lex_name_chars cs seen rest :
  Forall (fun c => isLower c = true) cs ->
  lex (LName seen) (cs ++ rest) = lex (LName (rev cs ++ seen)) rest.
Proof.
  intro H. revert seen. induction H as [|c cs Hc Hcs IH]; intro seen;
    [reflexivity|].
  simpl app. rewrite (@lex_quiet_step (LName seen) c (LName (c :: seen)))
    by (simpl; now rewrite Hc).
  rewrite IH. simpl rev. now rewrite <- app_assoc.
Qed.

Lemma lex_name c cs rest :
  lexIdle c = Some (LName [c], []) ->
  Forall (fun d => isLower d = true) cs ->
  delimited rest = true ->
  lex LIdle ((c :: cs) ++ rest)
  = option_map (app [TName (c :: cs)]) (lex LIdle rest).
Proof.
  intros S H D. simpl app.
  rewrite (@lex_quiet_step LIdle c (LName [c])) by exact S.
  rewrite (@lex_name_chars cs [c] rest H), lex_close_name by exact D.
  now rewrite rev_app_distr, rev_involutive.
Qed.

Lemma lex_null rest :
  delimited rest = true ->
  lex LIdle (js "null" ++ rest)
  = option_map (app [TName (js "null")]) (lex LIdle rest).
Proof.
  intro D. apply (@lex_name 110%N [117; 108; 108]%N);
    [reflexivity | repeat constructor | exact D].
Qed.

Lemma lex_true rest :
  delimited rest = true ->
  lex LIdle (js "true" ++ rest)
  = option_map (app [TName (js "true")]) (lex LIdle rest).
Proof.
  intro D. apply (@lex_name 116%N [114; 117; 101]%N);
    [reflexivity | repeat constructor | exact D].
Qed.

Lemma lex_false rest :
  delimited rest = true ->
  lex LIdle (js "false" ++ rest)
  = option_map (app [TName (js "false")]) (lex LIdle rest).
Proof.
  intro D. apply (@lex_name 102%N [97; 108; 115; 101]%N);
    [reflexivity | repeat constructor | exact D].
Qed.

(** ** Values *)

Lemma join_map_cons (A B : Type) (sep : B) (f : A -> list B) x r :
  join [sep] (map f (x :: r)) = f x ++ flat_map (fun y => sep :: f y) r.
Proof.
  revert x. induction r as [|y r IH]; intro x.
  - simpl. now rewrite app_nil_r.
  - change (join [sep] (map f (x :: y :: r)))
      with (f x ++ [sep] ++ join [sep] (map f (y :: r))).
    rewrite IH. reflexivity.
Qed.

(** The texts of the elements, with commas between them and followed by
    the closing bracket, are read as the tokens of the elements with comma
    tokens between them. *)
Lemma lex_joined (A : Type) (text : A -> jsstring) (toks : A -> list token)
    (l : list A) (close : N) (rest : jsstring) :
  isDelimiter close = true ->
  Forall (fun x => forall rest',
              delimited rest' = true ->
              lex LIdle (text x ++ rest')
              = option_map (app (toks x)) (lex LIdle rest')) l ->
  lex LIdle (join [44%N] (map text l) ++ close :: rest)
  = option_map (app (join [TComma] (map toks l))) (lex LIdle (close :: rest)).
Proof.
  intros C H. induction H as [|x r Hx Hr IH].
  - simpl. now rewrite option_map_app_nil.
  - destruct r as [|y r'].
    + simpl. now apply Hx.
    + change (join [44%N] (map text (x :: y :: r')))
        with (text x ++ [44%N] ++ join [44%N] (map text (y :: r'))).
      change (join [TComma] (map toks (x :: y :: r')))
        with (toks x ++ [TComma] ++ join [TComma] (map toks (y :: r'))).
      rewrite <- !app_assoc. rewrite Hx by reflexivity.
      change ([44%N] ++ join [44%N] (map text (y :: r')) ++ close :: rest)
        with (44%N :: join [44%N] (map text (y :: r')) ++ close :: rest).
      rewrite (@lex_punct 44%N TComma _ eq_refl).
      rewrite IH, !option_map_app. now rewrite <- app_assoc.
Qed.

Lemma bracketed (A : Type) (o c : A) (m rest : list A) :
  (o :: m ++ [c]) ++ rest = o :: m ++ c :: rest.
Proof. simpl. now rewrite <- app_assoc. Qed.

Lemma stringify_array items :
  JSON_stringify (VArray items)
  = 91%N :: join [44%N] (map JSON_stringify items) ++ [93%N].
Proof. reflexivity. Qed.

Lemma stringify_object members :
  JSON_stringify (VObject members)
  = 123%N
      :: join [44%N]
           (map (fun m => QuoteJSONString (fst m) ++ 58%N
                            :: JSON_stringify (snd m)) members)
      ++ [125%N].
Proof. reflexivity. Qed.

Lemma tokens_array items :
  tokensOf (VArray items)
  = TLBracket :: join [TComma] (map tokensOf items) ++ [TRBracket].
Proof. reflexivity. Qed.

Lemma tokens_object members :
  tokensOf (VObject members)
  = TLBrace
      :: join [TComma]
           (map (fun m => TString (fst m) :: TColon :: tokensOf (snd m))
              members)
      ++ [TRBrace].
Proof. reflexivity. Qed.

Lemma lex_value v :
  forall rest,
    delimited rest = true ->
    lex LIdle (JSON_stringify v ++ rest)
    = option_map (app (tokensOf v)) (lex LIdle rest).
Proof.
  induction v as [|b|n|s|items IH|members IH] using value_ind;
    intros rest D.
  - now apply lex_null.
  - destruct b; [now apply lex_true | now apply lex_false].
  - now apply lex_numberToString.
  - apply lex_string.
  - rewrite stringify_array, tokens_array, bracketed.
    rewrite (@lex_punct 91%N TLBracket _ eq_refl).
    rewrite (@lex_joined value JSON_stringify tokensOf items 93%N rest
               eq_refl IH).
    rewrite (@lex_punct 93%N TRBracket _ eq_refl).
    rewrite !option_map_app.
      destruct (lex LIdle rest); simpl; rewrite <- ?app_assoc; reflexivity.
  - rewrite stringify_object, tokens_object, bracketed.
    rewrite (@lex_punct 123%N TLBrace _ eq_refl).
    change (@map (jsstring * value) (list N))
      with (@map (jsstring * value) jsstring).
    rewrite (@lex_joined (jsstring * value)
               (fun m => QuoteJSONString (fst m) ++ 58%N
                           :: JSON_stringify (snd m))
               (fun m => TString (fst m) :: TColon :: tokensOf (snd m))
               members 125%N rest eq_refl).
    + rewrite (@lex_punct 125%N TRBrace _ eq_refl).
      rewrite !option_map_app.
      destruct (lex LIdle rest); simpl; rewrite <- ?app_assoc; reflexivity.
    + eapply Forall_impl; [|exact IH]. intros m Hm rest' D'.
      rewrite <- app_assoc, lex_string.
      rewrite <- app_comm_cons, (@lex_punct 58%N TColon _ eq_refl).
      rewrite (Hm rest' D'). now rewrite !option_map_app.
Qed.

(** ** The parser on the tokens of a value *)

Lemma parse_cons q t r :
  parseTokens q (t :: r)
  = match parseStep q t with
    | None => None
    | Some q' => parseTokens q' r
    end.
Proof. reflexivity. Qed.

Lemma parse_step q t q' r :
  parseStep q t = Some q' -> parseTokens q (t :: r) = parseTokens q' r.
Proof. intro H. simpl. now rewrite H. Qed.

Lemma tokensOf_head v :
  exists t r,
    tokensOf v = t :: r
    /\ forall stack,
         parseStep (PArrayStart stack) t
         = parseStep (PValue (FArray [] :: stack)) t.
Proof.
  destruct v as [|[|]|n|s|items|members]; simpl; eexists; eexists;
    (split; [reflexivity|]); reflexivity.
Qed.

Lemma parse_items (r : list value) :
  Forall (fun x => forall stack ts,
              parseTokens (PValue stack) (tokensOf x ++ ts)
              = parseTokens (PAfter (parsedAs x) stack) ts) r ->
  forall seen v stack ts,
    parseTokens (PAfter v (FArray seen :: stack))
      (flat_map (fun y => TComma :: tokensOf y) r ++ TRBracket :: ts)
    = parseTokens (PAfter (JArray (rev seen ++ v :: map parsedAs r)) stack) ts.
Proof.
  induction 1 as [|y r Hy Hr IH]; intros seen v stack ts.
  - reflexivity.
  - change (flat_map (fun y => TComma :: tokensOf y) (y :: r)
              ++ TRBracket :: ts)
      with (TComma
              :: (tokensOf y ++ flat_map (fun y => TComma :: tokensOf y) r)
              ++ TRBracket :: ts).
    rewrite (@parse_step _ TComma (PValue (FArray (v :: seen) :: stack)))
      by reflexivity.
    rewrite <- app_assoc, Hy, IH. simpl rev. simpl map.
    now rewrite <- app_assoc.
Qed.

Lemma parse_members (r : list (jsstring * value)) :
  Forall (fun m => forall stack ts,
              parseTokens (PValue stack) (tokensOf (snd m) ++ ts)
              = parseTokens (PAfter (parsedAs (snd m)) stack) ts) r ->
  forall seen k v stack ts,
    parseTokens (PAfter v (FObject seen k :: stack))
      (flat_map (fun m => TComma :: TString (fst m) :: TColon
                            :: tokensOf (snd m)) r
       ++ TRBrace :: ts)
    = parseTokens
        (PAfter (JObject (rev seen ++ (k, v)
                            :: map (fun m => (fst m, parsedAs (snd m))) r))
           stack) ts.
Proof.
  induction 1 as [|m r Hm Hr IH]; intros seen k v stack ts.
  - reflexivity.
  - change (flat_map (fun m => TComma :: TString (fst m) :: TColon
                                 :: tokensOf (snd m)) (m :: r)
              ++ TRBrace :: ts)
      with (TComma :: TString (fst m) :: TColon
              :: (tokensOf (snd m)
                    ++ flat_map (fun m => TComma :: TString (fst m) :: TColon
                                            :: tokensOf (snd m)) r)
              ++ TRBrace :: ts).
    rewrite (@parse_step _ TComma (PKey ((k, v) :: seen) stack))
      by reflexivity.
    rewrite (@parse_step _ (TString (fst m))
               (PColon ((k, v) :: seen) (fst m) stack)) by reflexivity.
    rewrite (@parse_step _ TColon
               (PValue (FObject ((k, v) :: seen) (fst m) :: stack)))
      by reflexivity.
    rewrite <- app_assoc, Hm, IH. simpl rev. simpl map.
    now rewrite <- app_assoc.
Qed.

Lemma parse_value v :
  forall stack ts,
    parseTokens (PValue stack) (tokensOf v ++ ts)
    = parseTokens (PAfter (parsedAs v) stack) ts.
Proof.
  induction v as [|b|n|s|items IH|members IH] using value_ind;
    intros stack ts; try reflexivity.
  - now destruct b.
  - rewrite tokens_array, bracketed.
    rewrite (@parse_step _ TLBracket (PArrayStart stack)) by reflexivity.
    destruct IH as [|x r Hx Hr]; [reflexivity|].
    rewrite join_map_cons, <- app_assoc.
    destruct (tokensOf_head x) as [t [r' [E S]]].
    assert (Start : forall ts',
               parseTokens (PArrayStart stack) (tokensOf x ++ ts')
               = parseTokens (PValue (FArray [] :: stack)) (tokensOf x ++ ts')).
    { intro ts'. rewrite E, <- app_comm_cons, !parse_cons. now rewrite S. }
    rewrite Start, Hx. apply (parse_items Hr).
  - rewrite tokens_object, bracketed.
    rewrite (@parse_step _ TLBrace (PObjectStart stack)) by reflexivity.
    destruct IH as [|m r Hm Hr]; [reflexivity|].
    rewrite join_map_cons, <- app_assoc. rewrite <- !app_comm_cons.
    rewrite (@parse_step _ (TString (fst m)) (PColon [] (fst m) stack))
      by reflexivity.
    rewrite (@parse_step _ TColon (PValue (FObject [] (fst m) :: stack)))
      by reflexivity.
    rewrite Hm. apply (parse_members Hr).
Qed.

(** ** Nothing is lost *)

Lemma map_inj_Forall (A B : Type) (f : A -> B) (l : list A) :
  Forall (fun x => forall y, f x = f y -> x = y) l ->
  forall l', map f l = map f l' -> l = l'.
Proof.
  induction 1 as [|x r Hx Hr IH]; intros [|y r'] E; try discriminate E;
    [reflexivity|].
  simpl in E. injection E as E1 E2. f_equal; auto.
Qed.

Lemma parsedAs_inj v : forall w, parsedAs v = parsedAs w -> v = w.
Proof.
  induction v as [|b|n|s|items IH|members IH] using value_ind;
    intros [|b'|n'|s'|items'|members'] E; simpl in E; try discriminate E;
    try reflexivity.
  - now injection E as ->.
  - injection E as E. f_equal. now apply numberToString_inj.
  - now injection E as ->.
  - injection E as E. f_equal.
    now apply (@map_inj_Forall _ _ parsedAs items IH).
  - injection E as E. f_equal.
    apply (@map_inj_Forall _ _ (fun m => (fst m, parsedAs (snd m))));
      [|exact E].
    eapply Forall_impl; [|exact IH]. intros [k x] Hx [k' x'] E'.
    simpl in *. injection E' as -> E'. f_equal. now apply Hx.
Qed.

Lemma JSON_parse_stringify v :
  JSON_parse (JSON_stringify v) = Some (parsedAs v).
Proof.
  unfold JSON_parse.
  assert (L : lex LIdle (JSON_stringify v) = Some (tokensOf v)).
  { rewrite <- (app_nil_r (JSON_stringify v)).
    rewrite lex_value by reflexivity. simpl. now rewrite app_nil_r. }
  rewrite L, <- (app_nil_r (tokensOf v)). now rewrite parse_value.
Qed.

Lemma noteValue_inj n n' : noteValue n = noteValue n' -> n = n'.
Proof.
  destruct n as [i c ca ua p t g f], n' as [i' c' ca' ua' p' t' g' f'].
  unfold noteValue. simpl. intro E.
  injection E as E1 E2 E3 E4 E5 E6 E7 E8. subst.
  assert (G : g = g').
  { apply (@map_inj_Forall _ _ VString) in E7; [exact E7|].
    apply Forall_forall. intros x _ y H. now injection H. }
  assert (F : f = f').
  { destruct f, f'; simpl in E8; try discriminate E8; [|reflexivity].
    now injection E8 as ->. }
  now subst.
Qed.

Lemma folderValue_inj f f' : folderValue f = folderValue f' -> f = f'.
Proof.
  destruct f as [i n p c], f' as [i' n' p' c'].
  unfold folderValue. simpl. intro E. injection E as E1 E2 E3 E4. subst.
  assert (P : p = p').
  { destruct p, p'; simpl in E3; try discriminate E3; [|reflexivity].
    now injection E3 as ->. }
  now subst.
Qed.

Lemma map_inj (A B : Type) (f : A -> B) (l l' : list A) :
  (forall x y, f x = f y -> x = y) -> map f l = map f l' -> l = l'.
Proof.
  intros H. apply map_inj_Forall. apply Forall_forall. intros x _ y. apply H.
Qed.

End BlobFacts.
(** X24: [JSON.parse] undoes [JSON.stringify] on the values that the
    service writes: the text of a value is read as that value, with its
    strings code unit by code unit (escapes and lone surrogates included),
    its numbers digit by digit and the properties of its objects in their
    order. Values that differ have texts that differ, and the text of an
    array is read as an array. *)
Theorem stringify_then_parse (v : Blob.value) :
  Blob.safeIntegers v = true ->
  Blob.JSON_parse (Blob.JSON_stringify v) = Some (Blob.parsedAs v)
  /\ (forall w,
         Blob.safeIntegers w = true ->
         Blob.JSON_stringify v = Blob.JSON_stringify w -> v = w)
  /\ (forall l,
         v = Blob.VArray l ->
         Blob.parsesAsSequence (Blob.JSON_stringify v) = true).
Proof.
  intros _. split; [apply BlobFacts.JSON_parse_stringify|]. split.
  - intros w _ E. apply BlobFacts.parsedAs_inj.
    pose proof (BlobFacts.JSON_parse_stringify v) as Hv.
    pose proof (BlobFacts.JSON_parse_stringify w) as Hw.
    rewrite E in Hv. congruence.
  - intros l ->. unfold Blob.parsesAsSequence.
    now rewrite BlobFacts.JSON_parse_stringify.
Qed.

Lemma stringify_then_parse_witness :
  Blob.JSON_parse
    (Blob.JSON_stringify (Blob.VArray (map Blob.noteValue (notes shelf))))
  = Some (Blob.parsedAs (Blob.VArray (map Blob.noteValue (notes shelf)))).
Proof.
  destruct (@stringify_then_parse
              (Blob.VArray (map Blob.noteValue (notes shelf)))) as (H & _).
  - reflexivity.
  - exact H.
Defined.

Lemma read_written key l ls :
  Blob.readCollection (Blob.setItem key (Blob.JSON_stringify (Blob.VArray l))
                         ls key)
  = Blob.parsedAs (Blob.VArray l).
Proof.
  unfold Blob.setItem. rewrite streq_refl.
  apply readCollection_parsed. apply BlobFacts.JSON_parse_stringify.
Qed.

Lemma writeCollection_other fits key key' l ls :
  key' <> key -> Blob.writeCollection fits key l ls key' = ls key'.
Proof.
  intro H. unfold Blob.writeCollection, Blob.setItem.
  destruct (fits key _ ls); [|reflexivity].
  apply streq_false in H. now rewrite H.
Qed.

Lemma notesRead_inj notes notes' :
  notesRead notes = notesRead notes' -> notes = notes'.
Proof.
  unfold notesRead. intro E. injection E as E.
  apply (@BlobFacts.map_inj _ _ (fun n => Blob.parsedAs (Blob.noteValue n)));
    [|exact E].
  intros x y H. apply BlobFacts.noteValue_inj.
  now apply BlobFacts.parsedAs_inj.
Qed.

Lemma foldersRead_inj folders folders' :
  foldersRead folders = foldersRead folders' -> folders = folders'.
Proof.
  unfold foldersRead. intro E. injection E as E.
  apply (@BlobFacts.map_inj _ _
           (fun f => Blob.parsedAs (Blob.folderValue f))); [|exact E].
  intros x y H. apply BlobFacts.folderValue_inj.
  now apply BlobFacts.parsedAs_inj.
Qed.

(** X25: a collection that is written is read back as it is: after
    [saveNotesToStorage] the notes are read as the array of the records
    written, property by property, from which the records can be told; the
    folders likewise. Writing one collection does not touch what is read
    of the other. When the browser does not take the item, the exception is
    swallowed and the storage is as it was, so that the next call reads
    the collection from before. *)
Theorem saved_collections_are_read_back fits (ls : Blob.LocalStorage) :
  (forall notes,
      forallb Blob.safeIntegers (map Blob.noteValue notes) = true ->
      let ls' := Blob.saveNotesToStorage fits notes ls in
      (fits STORAGE_KEY_NOTES (notesText notes) ls = true ->
       Blob.getNotesFromStorage ls' = notesRead notes)
      /\ (fits STORAGE_KEY_NOTES (notesText notes) ls = false -> ls' = ls)
      /\ Blob.getFoldersFromStorage ls' = Blob.getFoldersFromStorage ls)
  /\ (forall folders,
         forallb Blob.safeIntegers (map Blob.folderValue folders) = true ->
         let ls' := Blob.saveFoldersToStorage fits folders ls in
         (fits STORAGE_KEY_FOLDERS (foldersText folders) ls = true ->
          Blob.getFoldersFromStorage ls' = foldersRead folders)
         /\ (fits STORAGE_KEY_FOLDERS (foldersText folders) ls = false ->
             ls' = ls)
         /\ Blob.getNotesFromStorage ls' = Blob.getNotesFromStorage ls)
  /\ (forall notes notes', notesRead notes = notesRead notes' -> notes = notes')
  /\ (forall folders folders',
         foldersRead folders = foldersRead folders' -> folders = folders').
Proof.
  split; [|split; [|split]].
  - intros notes _ ls'. unfold ls', Blob.saveNotesToStorage.
    split; [|split].
    + intro F. unfold Blob.getNotesFromStorage, Blob.writeCollection.
      fold (notesText notes). rewrite F. unfold notesText.
      rewrite read_written. unfold notesRead. simpl. now rewrite map_map.
    + intro F. unfold Blob.writeCollection. fold (notesText notes).
      now rewrite F.
    + unfold Blob.getFoldersFromStorage.
      rewrite writeCollection_other; [reflexivity | discriminate].
  - intros folders _ ls'. unfold ls', Blob.saveFoldersToStorage.
    split; [|split].
    + intro F. unfold Blob.getFoldersFromStorage, Blob.writeCollection.
      fold (foldersText folders). rewrite F. unfold foldersText.
      rewrite read_written. unfold foldersRead. simpl. now rewrite map_map.
    + intro F. unfold Blob.writeCollection. fold (foldersText folders).
      now rewrite F.
    + unfold Blob.getNotesFromStorage.
      rewrite writeCollection_other; [reflexivity | discriminate].
  - apply notesRead_inj.
  - apply foldersRead_inj.
Qed.

Lemma saved_collections_are_read_back_witness :
  Blob.getNotesFromStorage
    (Blob.saveNotesToStorage unlimited (notes shelf) neverWritten)
  = notesRead (notes shelf).
Proof.
  destruct (saved_collections_are_read_back unlimited neverWritten)
    as (H & _).
  destruct (H (notes shelf)) as (K & _); [reflexivity|].
  apply K. reflexivity.
Defined.

(* ================================================================== *)
(** * The application *)

Lemma strIncludes_unit s c : strIncludes s [c] = true <-> In c s.
Proof.
  induction s as [|d r IH]; simpl.
  - split; [discriminate | intros []].
  - rewrite orb_true_iff, IH, andb_true_r, N.eqb_eq. intuition congruence.
Qed.

Lemma extractTags_no_hash content :
  ~ In HASH content -> extractTags content = [].
Proof.
  intro H. destruct (extractTags content) as [|t r] eqn:E; [reflexivity|].
  exfalso. assert (I : In t (extractTags content)) by (rewrite E; now left).
  apply (proj2 (extractTags_spec _)) in I.
  destruct I as [pre [post [-> _]]]. apply H. apply in_or_app. right.
  now left.
Qed.

Lemma updateNote_notes id content folderId now st i :
  findIndex (hasId id) (notes st) = Some i ->
  notes (snd (updateNote id content folderId now st))
  = updateAt i (updatedNote content folderId (now 0%nat)) (notes st).
Proof.
  intro F. unfold updateNote, getNotesFromStorage. now rewrite F.
Qed.

Lemma updatedNote_tags content folderId t n :
  Note.tags (updatedNote content folderId t n) = extractTags content.
Proof. unfold updatedNote. now destruct folderId. Qed.

(** X26: a tag that is typed away can stay in the sidebar. When the new
    content of a note has no hash sign and no space, [handleUpdateNote]
    stores the note without tags but does not fetch the tag list: a tag
    that no other note outside the trash carried is still in the list of
    the state, with its count, while no stored note outside the trash
    carries it and [getTags] does not list it. *)
Theorem typed_away_tag_stays_listed s id content folderId now i tag c :
  App.tags s = getTags (App.storage s) ->
  allNotes tagsDerived (App.storage s) ->
  findIndex (hasId id) (notes (App.storage s)) = Some i ->
  In (tag, c) (App.tags s) ->
  (forall j m, nth_error (notes (App.storage s)) j = Some m ->
               carriesLive tag m = true -> j = i) ->
  ~ In HASH content -> ~ In SPACE content ->
  let s' := handleUpdateNote id content folderId now s in
  In (tag, c) (App.tags s')
  /\ (forall m, In m (notes (App.storage s')) -> carriesLive tag m = false)
  /\ ~ In tag (map fst (getTags (App.storage s'))).
Proof.
  intros Sync D F Listed Only NoHash NoSpace s'.
  assert (H1 : strIncludes content [HASH] = false).
  { destruct (strIncludes content [HASH]) eqn:E; [|reflexivity].
    apply strIncludes_unit in E. contradiction. }
  assert (H2 : strIncludes content [SPACE] = false).
  { destruct (strIncludes content [SPACE]) eqn:E; [|reflexivity].
    apply strIncludes_unit in E. contradiction. }
  assert (T : App.tags s' = App.tags s).
  { unfold s', handleUpdateNote. simpl. now rewrite H1, H2. }
  set (now' := fun k => now (length (filter (hasId id) (App.notes s)) + k)%nat).
  assert (St : App.storage s'
               = snd (updateNote id content folderId now' (App.storage s)))
    by reflexivity.
  assert (Gone : forall m, In m (notes (App.storage s')) ->
                           carriesLive tag m = false).
  { intros m I.
    rewrite St,
      (@updateNote_notes id content folderId now' (App.storage s) i F) in I.
    apply In_nth_error in I. destruct I as [j Hj].
    destruct (Nat.eq_dec j i) as [->|Ne].
    - rewrite updateAt_same in Hj.
      destruct (nth_error (notes (App.storage s)) i) as [old|];
        [|discriminate Hj].
      simpl in Hj. injection Hj as <-. unfold carriesLive.
      rewrite updatedNote_tags, (@extractTags_no_hash content NoHash).
      apply andb_false_r.
    - rewrite updateAt_other in Hj by (intro; now apply Ne).
      destruct (carriesLive tag m) eqn:C; [|reflexivity].
      exfalso. apply Ne. now apply (Only j m). }
  split; [now rewrite T|]. split; [exact Gone|].
  assert (D' : allNotes tagsDerived (App.storage s')).
  { rewrite St.
    apply (step_tagsDerived (UpdateNote id content folderId now') D). }
  fold (keys (getTags (App.storage s'))).
  rewrite (getTags_listed tag D'), carriesLive_length.
  intros [m [I [Tr C]]]. apply Gone in I. unfold carriesLive in I.
  rewrite Tr in I. simpl in I. apply includes_In in C. congruence.
Qed.

Lemma typed_away_tag_stays_listed_witness :
  In (js "idea", 1%nat)
    (App.tags (handleUpdateNote (js "n1") (js "idea") Omitted tick
                 oneTagState))
  /\ ~ In (js "idea")
         (map fst (getTags (App.storage
                              (handleUpdateNote (js "n1") (js "idea") Omitted
                                 tick oneTagState)))).
Proof.
  destruct (@typed_away_tag_stays_listed oneTagState (js "n1") (js "idea")
              Omitted tick 0%nat (js "idea") 1%nat) as (H1 & _ & H2).
  - reflexivity.
  - repeat constructor.
  - reflexivity.
  - left. reflexivity.
  - intros [|[|j]] m H; simpl in H; try discriminate H; reflexivity.
  - vm_compute. intuition discriminate.
  - vm_compute. intuition discriminate.
  - split; assumption.
Defined.

Lemma extractTags_NEW_NOTE : extractTags NEW_NOTE = [js "idea"].
Proof. vm_compute. reflexivity. Qed.

(** X27: a note made with the button of the list is in front of the user:
    [handleCreateNote] leaves a state in which the new note is selected
    and, when nothing is searched for, is among the notes of the view; the
    note carries the tag of its first content, and the tag list of the
    state shows that tag. *)
Theorem new_note_is_shown_and_tagged localeCompare toLowerCase newId now s :
  let s' := handleCreateNote localeCompare newId now s in
  let newNote :=
    fst (createNote newId now NEW_NOTE
           (if isFOLDER (NoteFilter.type (App.filter s))
            then match NoteFilter.folderId (App.filter s) with
                 | Some (c :: r) => Some (c :: r)
                 | _ => None
                 end
            else None) (App.storage s)) in
  App.selectedNoteId s' = Some newId
  /\ Note.id newNote = newId
  /\ In newNote (notes (App.storage s'))
  /\ In newNote (filteredNotes toLowerCase [] (App.filter s') (App.notes s'))
  /\ Note.tags newNote = [js "idea"]
  /\ In (js "idea") (map fst (App.tags s')).
Proof.
  intros s' newNote.
  assert (St : notes (App.storage s') = newNote :: notes (App.storage s))
    by reflexivity.
  split; [reflexivity|]. split; [reflexivity|].
  split; [rewrite St; now left|]. split; [|split].
  - unfold filteredNotes. apply filter_In. split.
    + change (App.notes s') with (getAllNotes (App.storage s')).
      unfold getAllNotes, getNotesFromStorage.
      apply (Permutation_in _ (Permutation_sym (sort_Permutation _ _))).
      rewrite St. now left.
    + unfold s', handleCreateNote, newNote, inView. simpl.
      destruct (NoteFilter.type (App.filter s)) eqn:Ty; simpl;
        rewrite ?Ty; try reflexivity.
      destruct (NoteFilter.folderId (App.filter s)) as [[|c r]|] eqn:Fo;
        simpl; try reflexivity.
      apply streq_refl.
  - unfold newNote, createNote. simpl. apply extractTags_NEW_NOTE.
  - change (App.tags s') with (getTags (App.storage s')).
    fold (keys (getTags (App.storage s'))). rewrite getTags_keys, St.
    unfold fromSet. apply In_dedupe. split; [|intros []].
    unfold liveTags. simpl. left. reflexivity.
Qed.

(* ================================================================== *)
(** * What the screen points to *)

Lemma noteExists_step op st id :
  noteExists id st = true ->
  (forall id', op = DeletePermanently id' -> id <> id') ->
  noteExists id (step op st) = true.
Proof.
  intros E H. apply noteExists_ids. apply noteExists_ids in E.
  rewrite note_ids_keys, step_noteKeys. rewrite note_ids_keys in E.
  destruct op; try exact E.
  - now right.
  - rewrite map_fst_filter_key. apply filter_In. split; [assumption|].
    apply negb_true_iff, streq_false. now apply H.
Qed.

Lemma noteExists_back op st id :
  noteExists id (step op st) = true ->
  noteExists id st = true \/ exists a b c, op = CreateNote id a b c.
Proof.
  intro E. apply noteExists_ids in E.
  rewrite note_ids_keys, step_noteKeys in E.
  rewrite noteExists_ids, note_ids_keys.
  destruct op; try (now left).
  - destruct E as [E|E]; [|now left]. simpl in E. subst newId.
    right. now exists now, content, folderId.
  - rewrite map_fst_filter_key in E. apply filter_In in E. now left.
Qed.

Lemma folderExists_back op st id :
  folderExists id (step op st) = true ->
  folderExists id st = true \/ exists a b c, op = CreateFolder id a b c.
Proof.
  intro E. apply folderExists_ids in E.
  rewrite folder_ids_keys, step_folderKeys in E.
  rewrite folderExists_ids, folder_ids_keys.
  destruct op; try (now left).
  - rewrite map_app, in_app_iff in E. destruct E as [E|[E|[]]]; [now left|].
    simpl in E. subst newId. right. now exists now, name, parentId.
  - rewrite map_fst_filter_key in E. apply filter_In in E. now left.
Qed.

Lemma mapEdited_ids id content folderId now k l :
  map Note.id (mapEdited id content folderId now k l) = map Note.id l.
Proof.
  revert k. induction l as [|n r IH]; intro k; simpl; [reflexivity|].
  destruct (hasId id n); simpl; now rewrite IH.
Qed.

Section Screen.
Variable localeCompare : jsstring -> jsstring -> Z.
Local Abbreviation handle' := (handle localeCompare).

Lemma storage_handle g s :
  App.storage (handle' g s) = step (callOf g s) (App.storage s).
Proof.
  destruct g; try reflexivity; simpl;
    unfold handleDeleteNote, handleDeletePermanently, handleDeleteFolder,
      handleRenameTag, handleDeleteTag, fetchNotesIfSelected, deselect;
    repeat match goal with
           | |- context [if ?b then _ else _] => destruct b
           end; reflexivity.
Qed.

Lemma handle_inSync g s :
  fetches g = true -> inSync localeCompare (handle' g s).
Proof.
  destruct g; try discriminate; intros _; simpl;
    unfold handleRenameTag, handleDeleteTag, fetchNotesIfSelected, inSync;
    repeat match goal with
           | |- context [if ?b then _ else _] => destruct b
           end; repeat split; reflexivity.
Qed.

Lemma inSync_ids s :
  inSync localeCompare s ->
  (forall id, In id (map Note.id (App.notes s))
              <-> noteExists id (App.storage s) = true)
  /\ (forall id, In id (map Folder.id (App.folders s))
                 <-> folderExists id (App.storage s) = true).
Proof.
  intros [N [F _]]. split; intro id.
  - rewrite N, noteExists_ids. unfold getAllNotes, getNotesFromStorage.
    split; apply Permutation_in, Permutation_map;
      [|apply Permutation_sym]; apply sort_Permutation.
  - rewrite F, folderExists_ids. unfold getAllFolders, getFoldersFromStorage.
    split; apply Permutation_in, Permutation_map;
      [|apply Permutation_sym]; apply sort_Permutation.
Qed.

Lemma selected_cases g s id :
  App.selectedNoteId (handle' g s) = Some id ->
  (exists now, g = GCreateNote id now)
  \/ g = GSelectNote id
  \/ (App.selectedNoteId s = Some id
      /\ g <> GDeletePermanently id /\ callOf g s <> Query).
Proof.
  destruct g; simpl;
    unfold handleDeleteNote, handleDeletePermanently, handleDeleteFolder,
      handleRenameTag, handleDeleteTag, fetchNotesIfSelected, deselect;
    simpl;
    try (intro H; right; right; repeat split; [exact H|discriminate..]).
  - intro H. injection H as <-. left. now exists now.
  - destruct (nullable_streq (App.selectedNoteId s) (Some id0)); simpl;
      intro H; [discriminate H|].
    right. right. repeat split; [exact H|discriminate..].
  - destruct (nullable_streq (App.selectedNoteId s) (Some id0)) eqn:E; simpl;
      intro H; [discriminate H|].
    right. right. repeat split; [exact H| |discriminate].
    intro G. injection G as ->. rewrite H in E. simpl in E.
    now rewrite streq_refl in E.
  - repeat match goal with
           | |- context [if ?b then _ else _] => destruct b
           end; simpl; intro H; right; right;
      (repeat split; [exact H|discriminate..]).
  - repeat match goal with
           | |- context [if ?b then _ else _] => destruct b
           end; simpl; intro H; right; right;
      (repeat split; [exact H|discriminate..]).
  - repeat match goal with
           | |- context [if ?b then _ else _] => destruct b
           end; simpl; intro H; right; right;
      (repeat split; [exact H|discriminate..]).
  - discriminate.
  - intro H. injection H as <-. now right; left.
Qed.

Lemma filter_cases g s id :
  NoteFilter.type (App.filter (handle' g s)) = FOLDER ->
  NoteFilter.folderId (App.filter (handle' g s)) = Some id ->
  (exists f, g = GSelectFilter f /\ NoteFilter.type f = FOLDER
             /\ NoteFilter.folderId f = Some id)
  \/ (NoteFilter.type (App.filter s) = FOLDER
      /\ NoteFilter.folderId (App.filter s) = Some id
      /\ g <> GDeleteFolder id).
Proof.
  destruct g; simpl;
    unfold handleDeleteNote, handleDeletePermanently, handleDeleteFolder,
      handleRenameTag, handleDeleteTag, fetchNotesIfSelected, deselect;
    simpl;
    try (intros T F; right; repeat split; [exact T|exact F|discriminate]).
  - destruct (isFOLDER (NoteFilter.type (App.filter s))); simpl;
      intros T F; [|discriminate T].
    right. repeat split; [exact T|exact F|discriminate].
  - destruct (nullable_streq (App.selectedNoteId s) (Some id0)); simpl;
      intros T F; right; (repeat split; [exact T|exact F|discriminate]).
  - destruct (nullable_streq (App.selectedNoteId s) (Some id0)); simpl;
      intros T F; right; (repeat split; [exact T|exact F|discriminate]).
  - destruct (isFOLDER (NoteFilter.type (App.filter s))
              && nullable_streq (NoteFilter.folderId (App.filter s))
                   (Some id0)) eqn:E; simpl; intros T F; [discriminate T|].
    right. repeat split; [exact T|exact F|].
    intro G. injection G as ->. rewrite T, F in E. simpl in E.
    now rewrite streq_refl in E.
  - repeat match goal with
           | |- context [if ?b then _ else _] => destruct b
           end; simpl; intros T F; try discriminate T;
      right; (repeat split; [exact T|exact F|discriminate]).
  - repeat match goal with
           | |- context [if ?b then _ else _] => destruct b
           end; simpl; intros T F; try discriminate T;
      right; (repeat split; [exact T|exact F|discriminate]).
  - intros T F. left. now exists f.
Qed.

Lemma quiet_ids g s :
  fetches g = false ->
  map Note.id (App.notes (handle' g s)) = map Note.id (App.notes s)
  /\ App.folders (handle' g s) = App.folders s.
Proof.
  destruct g; try discriminate; intros _; simpl; split; try reflexivity.
  apply mapEdited_ids.
Qed.

Lemma handle_pointsToStored g s :
  onScreen g s -> pointsToStored s -> pointsToStored (handle' g s).
Proof.
  intros O (Psel & Pfil & Pn & Pf).
  assert (Keep : forall id, noteExists id (App.storage s) = true ->
                            g <> GDeletePermanently id ->
                            noteExists id (App.storage (handle' g s)) = true).
  { intros id E Ne. rewrite storage_handle. apply noteExists_step; [exact E|].
    intros id' C ->. apply Ne. destruct g; try discriminate C.
    now injection C as ->. }
  assert (KeepF : forall id, folderExists id (App.storage s) = true ->
                             g <> GDeleteFolder id ->
                             folderExists id (App.storage (handle' g s))
                             = true).
  { intros id E Ne. rewrite storage_handle. apply folderExists_step;
      [exact E|].
    intros id' C ->. apply Ne. destruct g; try discriminate C.
    now injection C as ->. }
  assert (Lists :
            (forall id, In id (map Note.id (App.notes (handle' g s)))
                        <-> noteExists id (App.storage (handle' g s)) = true)
            /\ (forall id, In id (map Folder.id (App.folders (handle' g s)))
                           <-> folderExists id (App.storage (handle' g s))
                               = true)).
  { destruct (fetches g) eqn:Fe.
    - apply inSync_ids. now apply handle_inSync.
    - destruct (quiet_ids g s Fe) as [-> ->].
      assert (Q : (exists a b c d, callOf g s = UpdateNote a b c d)
                  \/ callOf g s = Query).
      { destruct g; try discriminate Fe; simpl; [left|right|right];
          try reflexivity. eauto. }
      split; intro id; rewrite storage_handle.
      + rewrite Pn. split.
        * intro E. apply noteExists_step; [exact E|].
          intros id' C. destruct Q as [(a & b & c & d & Q)|Q];
            rewrite Q in C; discriminate C.
        * intro E. apply noteExists_back in E.
          destruct E as [E|(a & b & c & E)]; [exact E|].
          destruct Q as [(a' & b' & c' & d & Q)|Q]; rewrite Q in E;
            discriminate E.
      + rewrite Pf. split.
        * intro E. apply folderExists_step; [exact E|].
          intros id' C. destruct Q as [(a & b & c & d & Q)|Q];
            rewrite Q in C; discriminate C.
        * intro E. apply folderExists_back in E.
          destruct E as [E|(a & b & c & E)]; [exact E|].
          destruct Q as [(a' & b' & c' & d & Q)|Q]; rewrite Q in E;
            discriminate E. }
  destruct Lists as [Ln Lf]. split; [|split; [|split]].
  - intros id H. apply selected_cases in H.
    destruct H as [[now ->]|[->|(H & Ne & _)]].
    + rewrite storage_handle. simpl. unfold noteExists. simpl.
      unfold hasId at 1. simpl. now rewrite streq_refl.
    + simpl in *. now apply Pn.
    + apply Keep; [now apply Psel | exact Ne].
  - intros id T F. destruct (filter_cases g s T F)
      as [(f & -> & Tf & Ff)|(T0 & F0 & Ne)].
    + simpl in *. apply Pf. destruct (O Tf) as [id' [E I]].
      rewrite Ff in E. now injection E as ->.
    + apply KeepF; [now apply Pfil | exact Ne].
  - exact Ln.
  - exact Lf.
Qed.

Lemma start_pointsToStored st : pointsToStored (start localeCompare st).
Proof.
  assert (S : inSync localeCompare (start localeCompare st))
    by (repeat split; reflexivity).
  destruct (inSync_ids S) as [N F].
  split; [discriminate|]. split; [discriminate|]. now split.
Qed.

Lemma gestures_pointsToStored gs s :
  allOnScreen localeCompare gs s -> pointsToStored s ->
  pointsToStored (gestures localeCompare gs s).
Proof.
  revert s. induction gs as [|g r IH]; simpl; intros s O P; [exact P|].
  destruct O as [Og Or]. apply IH; [exact Or|].
  now apply handle_pointsToStored.
Qed.
End Screen.



(* ================================================================== *)
(** * Flags and the order of the listing *)

Lemma insertSorted_map (A : Type) (cmp : A -> A -> Z) (f : A -> A) x l :
  (forall a b, cmp (f a) (f b) = cmp a b) ->
  map f (insertSorted cmp x l) = insertSorted cmp (f x) (map f l).
Proof.
  intro H. induction l as [|y r IH]; simpl; [reflexivity|].
  rewrite H. destruct (cmp x y <=? 0)%Z; simpl; [reflexivity|].
  now rewrite IH.
Qed.

Lemma sort_map (A : Type) (cmp : A -> A -> Z) (f : A -> A) l :
  (forall a b, cmp (f a) (f b) = cmp a b) ->
  map f (sort cmp l) = sort cmp (map f l).
Proof.
  intro H. induction l as [|x r IH]; simpl; [reflexivity|].
  now rewrite insertSorted_map, IH.
Qed.

Lemma flagsOnly_withoutFlags op st :
  flagsOnly op = true ->
  map withoutFlags (notes (step op st)) = map withoutFlags (notes st).
Proof.
  destruct op; try discriminate; intros _; simpl;
    unfold togglePin, moveToTrash, restoreFromTrash, getNotesFromStorage;
    destruct (findIndex (hasId id) (notes st)); simpl;
    try reflexivity; now apply updateAt_map.
Qed.

Lemma filter_StronglySorted (A : Type) (R : A -> A -> Prop)
    (p : A -> bool) l :
  StronglySorted R l -> StronglySorted R (filter p l).
Proof.
  induction 1 as [|x r Hr IH Hx]; simpl; [constructor|].
  destruct (p x); [|exact IH]. constructor; [exact IH|].
  rewrite Forall_forall in *. intros y Hy. apply Hx.
  now apply filter_In in Hy.
Qed.

(** X29: a pin does not bring a note to the front. [togglePin],
    [moveToTrash] and [restoreFromTrash] leave the listing of [getAllNotes]
    as it is, flags apart: the same notes at the same places. And every
    view of the list, which only filters the listing, shows its notes from
    the last changed to the first, pinned or not. *)
Theorem flags_do_not_reorder op st :
  flagsOnly op = true ->
  map withoutFlags (getAllNotes (step op st))
  = map withoutFlags (getAllNotes st)
  /\ (forall toLowerCase q f,
         StronglySorted newerOrSame
           (filteredNotes toLowerCase q f (getAllNotes (step op st)))).
Proof.
  intro F. split.
  - unfold getAllNotes, getNotesFromStorage.
    rewrite !sort_map by reflexivity. f_equal.
    now apply flagsOnly_withoutFlags.
  - intros toLowerCase q f. unfold filteredNotes.
    apply filter_StronglySorted. apply sort_sorted.
Qed.

Lemma flags_do_not_reorder_witness :
  map withoutFlags (getAllNotes (step (TogglePin (js "b")) shelf))
  = map withoutFlags (getAllNotes shelf).
Proof.
  apply (@flags_do_not_reorder (TogglePin (js "b")) shelf). reflexivity.
Defined.
